(** * The wikitext core of the LinguaLibre Malayalam Wiktionary bot

    A shallow embedding of the pure text functions of
    [lingualibre_ml_wikt_bot.py] (the filename pattern, [parse_sections],
    [page_has_audio], [find_pronunciation_section], [build_audio_line] and
    [add_pronunciation_to_page]) together with the fragment of Python's [re]
    backtracking matcher that their three patterns use.

    A Python [str] is a sequence of code points: it is modelled as a list of
    integers.  Positions and lengths are natural numbers.

    Around the core stand the loops that feed and drive it: the three
    sources of recordings ([query_lingualibre_recordings],
    [query_commons_for_files], [search_commons_for_words]) over the answers
    they get, and [process_recording] and [run] of
    [MalayalamPronunciationBot] over the answers of the wiki, with the
    counters of [self.stats] and the calls that leave the process. *)

From Stdlib Require Import String Ascii ZArith Arith Bool Lia List.
Import ListNotations.

Set Implicit Arguments.

(** ** Characters and text *)

Definition char := Z.
Definition text := list char.

(** An ASCII literal of the source, as code points. *)
Definition str (s : string) : text :=
  map (fun a => Z.of_N (N_of_ascii a)) (list_ascii_of_string s).

Definition NL : char := 10%Z.

Definition in_range (lo hi c : char) : bool := ((lo <=? c) && (c <=? hi))%Z.

(** [Py_UNICODE_ISSPACE]: the code points that [\s] matches in a [str]
    pattern and that [str.strip()] removes. *)
Definition unicode_isspace (c : char) : bool :=
  (in_range 9 13 c || in_range 28 32 c || (c =? 133) || (c =? 160)
   || (c =? 5760) || in_range 8192 8202 c || (c =? 8232) || (c =? 8233)
   || (c =? 8239) || (c =? 8287) || (c =? 12288))%Z.

(** The class [.] without DOTALL: anything but a line feed. *)
Definition dot (c : char) : bool := negb (c =? NL)%Z.

Definition ascii_lower (c : char) : char :=
  if in_range 65%Z 90%Z c then (c + 32)%Z else c.

(** A literal [x] of a pattern compiled with IGNORECASE, for an ASCII [x]
    (the patterns of the source hold no other literal): the two ASCII cases
    of the letter and the code points that the matcher folds onto it, which
    are U+0130 and U+0131 for [i], U+017F for [s] and U+212A for [k]. *)
Definition ignorecase_eq (x c : char) : bool :=
  let lo := ascii_lower x in
  (ascii_lower c =? lo)%Z
  || ((lo =? 105)%Z && ((c =? 304)%Z || (c =? 305)%Z))
  || ((lo =? 115)%Z && (c =? 383)%Z)
  || ((lo =? 107)%Z && (c =? 8490)%Z).

(** ** Exceptions

    What Python raises is a value of the model: a computation returns
    [Ok v] or [Raise e]. *)

Inductive exn := IndexError | AttributeError | TypeError.

Inductive outcome (A : Type) : Type :=
| Ok (a : A)
| Raise (e : exn).
Arguments Ok {A} a.
Arguments Raise {A} e.

Definition bind {A B} (m : outcome A) (f : A -> outcome B) : outcome B :=
  match m with
  | Ok a => f a
  | Raise e => Raise e
  end.

Notation "x <- m ;; f" := (bind m (fun x => f))
  (at level 61, m at next level, right associativity).

(** ** The regular expressions of the source

    The three patterns quantify single characters only, so a repetition
    carries an atom. *)

Module Re.

Inductive atom :=
| Lit (c : char)                (* a literal character *)
| Cls (p : char -> bool).       (* a class: [\s], [\d], [.], [[a-z]] *)

Inductive regex :=
| Eps                           (* the empty pattern *)
| One (a : atom)
| Rep (a : atom) (lo : nat) (hi : option nat) (greedy : bool)
| Bol                           (* ^ *)
| Eol                           (* $ *)
| Grp (n : nat) (r : regex)     (* the n-th capturing group *)
| Ref (n : nat)                 (* \n *)
| Alt (r1 r2 : regex)
| Seq (r1 r2 : regex).

Record flags := Flags { MULTILINE : bool; IGNORECASE : bool }.

(** The matcher's position in the subject: the characters before it, last
    one first, the characters from it on, and the groups closed so far (the
    latest binding of a group first). *)
Record cursor := Cursor {
  seen : text;
  rest : text;
  caps : list (nat * text)
}.

Definition pos (z : cursor) : nat := length (seen z).

Fixpoint group (n : nat) (cs : list (nat * text)) : option text :=
  match cs with
  | [] => None
  | (m, t) :: cs' => if Nat.eqb m n then Some t else group n cs'
  end.

Definition atom_ok (fl : flags) (a : atom) (c : char) : bool :=
  match a with
  | Lit x => if IGNORECASE fl then ignorecase_eq x c else (c =? x)%Z
  | Cls p => p c
  end.

Definition at_bol (fl : flags) (z : cursor) : bool :=
  match seen z with
  | [] => true
  | c :: _ => MULTILINE fl && (c =? NL)%Z
  end.

Definition at_eol (fl : flags) (z : cursor) : bool :=
  match rest z with
  | [] => true
  | c :: t => (c =? NL)%Z && (MULTILINE fl || match t with [] => true | _ => false end)
  end.

Definition may_more (hi : option nat) : bool :=
  match hi with
  | Some 0 => false
  | _ => true
  end.

Definition less (hi : option nat) : option nat := option_map Nat.pred hi.

Section Loops.
Variable R : Type.
Variable ok : char -> bool.

(** [x{lo,hi}]: take as many as allowed, then give back one at a time. *)
Fixpoint rep_greedy (lo : nat) (hi : option nat) (sn rs : text)
         (k : text -> text -> option R) : option R :=
  let stop := match lo with 0 => k sn rs | S _ => None end in
  match rs with
  | c :: rs' =>
      if ok c && may_more hi then
        match rep_greedy (Nat.pred lo) (less hi) (c :: sn) rs' k with
        | Some r => Some r
        | None => stop
        end
      else stop
  | [] => stop
  end.

(** [x{lo,hi}?]: take as few as allowed, then one more at a time. *)
Fixpoint rep_lazy (lo : nat) (hi : option nat) (sn rs : text)
         (k : text -> text -> option R) : option R :=
  match lo, k sn rs with
  | 0, Some r => Some r
  | _, _ =>
      match rs with
      | c :: rs' =>
          if ok c && may_more hi
          then rep_lazy (Nat.pred lo) (less hi) (c :: sn) rs' k
          else None
      | [] => None
      end
  end.
End Loops.

(** [t] at the head of [s]: what follows it. *)
Fixpoint strip_prefix (t s : text) : option text :=
  match t, s with
  | [], _ => Some s
  | x :: t', y :: s' => if (x =? y)%Z then strip_prefix t' s' else None
  | _ :: _, [] => None
  end.

(** The text between two positions of one scan. *)
Definition between (z z' : cursor) : text :=
  rev (firstn (pos z' - pos z) (seen z')).
Arguments between : simpl never.

(** The backtracking matcher, with the rest of the pattern as a
    continuation: the first success in the order in which [re] explores the
    alternatives. *)
Fixpoint run (fl : flags) (r : regex) (z : cursor)
         (k : cursor -> option cursor) : option cursor :=
  match r with
  | Eps => k z
  | One a =>
      match rest z with
      | c :: t => if atom_ok fl a c then k (Cursor (c :: seen z) t (caps z)) else None
      | [] => None
      end
  | Rep a lo hi g =>
      (if g then rep_greedy (R:=cursor) else rep_lazy (R:=cursor))
        (atom_ok fl a) lo hi (seen z) (rest z)
        (fun sn rs => k (Cursor sn rs (caps z)))
  | Bol => if at_bol fl z then k z else None
  | Eol => if at_eol fl z then k z else None
  | Grp n r1 =>
      run fl r1 z (fun z' => k (Cursor (seen z') (rest z') ((n, between z z') :: caps z')))
  | Ref n =>
      match group n (caps z) with
      | None => None
      | Some t =>
          match strip_prefix t (rest z) with
          | Some rs => k (Cursor (rev t ++ seen z) rs (caps z))
          | None => None
          end
      end
  | Alt r1 r2 =>
      match run fl r1 z k with
      | Some z' => Some z'
      | None => run fl r2 z k
      end
  | Seq r1 r2 => run fl r1 z (fun z' => run fl r2 z' k)
  end.

(** A match object: where it starts and ends, and its groups. *)
Record Match := MkMatch {
  m_start : nat;
  m_end : nat;
  m_whole : text;                 (* group(0) *)
  m_caps : list (nat * text)
}.

Definition mk_match (z z' : cursor) : Match :=
  MkMatch (pos z) (pos z') (between z z') (caps z').

(** The end of the pattern.  A scan that resumes after an empty match
    refuses another empty match at the position it resumes from. *)
Definition accept (must_advance : bool) (z z' : cursor) : option cursor :=
  if must_advance && Nat.eqb (pos z') (pos z) then None else Some z'.

(** [Pattern.match]: at the beginning of the subject only. *)
Definition re_match (fl : flags) (r : regex) (s : text) : option Match :=
  let z := Cursor [] s [] in
  option_map (mk_match z) (run fl r z Some).

(** The leftmost match at or after the position ([Pattern.search], and one
    step of a scanner). *)
Fixpoint search_from (fl : flags) (r : regex) (must_advance : bool)
         (sn rs : text) : option (cursor * cursor) :=
  let z := Cursor sn rs [] in
  match run fl r z (accept must_advance z) with
  | Some z' => Some (z, z')
  | None =>
      match rs with
      | [] => None
      | c :: rs' => search_from fl r false (c :: sn) rs'
      end
  end.

Definition re_search (fl : flags) (r : regex) (s : text) : option Match :=
  option_map (fun p => mk_match (fst p) (snd p)) (search_from fl r false [] s).

(** [Pattern.finditer]: the scanner resumes where the last match ended. *)
Fixpoint scan (fuel : nat) (fl : flags) (r : regex) (must_advance : bool)
         (sn rs : text) : list Match :=
  match fuel with
  | 0 => []
  | S fuel' =>
      match search_from fl r must_advance sn rs with
      | None => []
      | Some (z, z') =>
          mk_match z z'
            :: scan fuel' fl r (Nat.eqb (pos z') (pos z)) (seen z') (rest z')
      end
  end.

Definition re_finditer (fl : flags) (r : regex) (s : text) : list Match :=
  scan (2 * length s + 2) fl r false [] s.

(** [Match.group(n)] for n >= 1: [None] when the group took no part. *)
Definition m_group (n : nat) (m : Match) : option text := group n (m_caps m).

(** Pattern syntax: concatenation, literal words, the classes. *)
Fixpoint lits (t : text) : regex :=
  match t with
  | [] => Eps
  | c :: t' => Seq (One (Lit c)) (lits t')
  end.

Definition ws_star : regex := Rep (Cls unicode_isspace) 0 None true.   (* \s* *)

End Re.

Import Re.

Infix ">>" := Seq (at level 60, right associativity).

(** ** Constants of the module *)

(** [PRONUNCIATION_HEADER], the eight code points U+0D09 U+0D1A U+0D4D
    U+0D1A U+0D3E U+0D30 U+0D23 U+0D02. *)
Definition PRONUNCIATION_HEADER : text :=
  [3337; 3354; 3405; 3354; 3390; 3376; 3363; 3330]%Z.

(** [AUDIO_LABEL], U+0D36 U+0D2C U+0D4D U+0D26 U+0D02. *)
Definition AUDIO_LABEL : text := [3382; 3372; 3405; 3366; 3330]%Z.


(** [LL_FILE_PREFIX]. *)
Definition LL_FILE_PREFIX : text := str "LL-Q36236 (mal)".

(** ** The filename pattern

    [LL_FILENAME_REGEX] is
    [^LL-Q\d+\s*\([a-z]{3}\)-(.+?)-(.+)\.(wav|ogg|mp3|flac)$], without
    flags.  [\d] on a [str] is the decimal-digit table of the interpreter's
    Unicode database, which is no part of this repository: the pattern takes
    it as [unicode_isdigit]. *)

Definition no_flags : flags := Flags false false.

(** [wav|ogg|mp3|flac] *)
Definition extension_alt : regex :=
  Alt (lits (str "wav")) (Alt (lits (str "ogg"))
      (Alt (lits (str "mp3")) (lits (str "flac")))).

Definition LL_FILENAME_REGEX (unicode_isdigit : char -> bool) : regex :=
  Bol >> lits (str "LL-Q") >> Rep (Cls unicode_isdigit) 1 None true >> ws_star
  >> lits (str "(") >> Rep (Cls (in_range 97%Z 122%Z)) 3 (Some 3) true
  >> lits (str ")-")
  >> Grp 1 (Rep (Cls dot) 1 None false)
  >> lits (str "-")
  >> Grp 2 (Rep (Cls dot) 1 None true)
  >> lits (str ".")
  >> Grp 3 extension_alt
  >> Eol.

(** [LL_FILENAME_REGEX.match(filename)]. *)
Definition LL_FILENAME_match (unicode_isdigit : char -> bool)
           (filename : text) : option Match :=
  re_match no_flags (LL_FILENAME_REGEX unicode_isdigit) filename.

(** The table restricted to ASCII, where it is the digits 0 to 9. *)
Definition ascii_isdigit (c : char) : bool := in_range 48%Z 57%Z c.

(** ** Wikitext parsing and editing *)

Record Section := MkSection {
  level : nat;
  title : text;
  header_text : text;
  start_pos : nat;
  content_start : nat;
  end_pos : nat;
  content : text
}.

(** Slices [s[a:b]], [s[a:]] and [s[:b]] for indices that are not
    negative. *)
Definition slice (s : text) (a b : nat) : text := firstn (b - a) (skipn a s).
Definition slice_from (s : text) (a : nat) : text := skipn a s.
Definition slice_to (s : text) (b : nat) : text := firstn b s.

Fixpoint lstrip_by (p : char -> bool) (s : text) : text :=
  match s with
  | c :: s' => if p c then lstrip_by p s' else s
  | [] => []
  end.

Definition rstrip_by (p : char -> bool) (s : text) : text :=
  rev (lstrip_by p (rev s)).

Definition is_nl (c : char) : bool := (c =? NL)%Z.

(** [s.strip()], [s.lstrip("\n")] and [s.rstrip("\n")]. *)
Definition strip (s : text) : text :=
  rstrip_by unicode_isspace (lstrip_by unicode_isspace s).
Definition lstrip_nl (s : text) : text := lstrip_by is_nl s.
Definition rstrip_nl (s : text) : text := rstrip_by is_nl s.

Fixpoint text_eqb (s t : text) : bool :=
  match s, t with
  | [], [] => true
  | x :: s', y :: t' => (x =? y)%Z && text_eqb s' t'
  | _, _ => false
  end.

(** [header_pattern] of [parse_sections]: [^(={2,6})\s*(.+?)\s*\1\s*$]
    compiled with MULTILINE. *)
Definition header_flags : flags := Flags true false.

Definition header_pattern : regex :=
  Bol >> Grp 1 (Rep (Lit 61%Z) 2 (Some 6) true) >> ws_star
  >> Grp 2 (Rep (Cls dot) 1 None false) >> ws_star >> Ref 1 >> ws_star >> Eol.

(** [l[-1]] read and written back: an [IndexError] on the empty list. *)
Fixpoint set_last {A} (f : A -> A) (l : list A) : outcome (list A) :=
  match l with
  | [] => Raise IndexError
  | [x] => Ok [f x]
  | x :: l' => l'' <- set_last f l' ;; Ok (x :: l'')
  end.

(** [l[0]]. *)
Definition first_item {A} (l : list A) : outcome A :=
  match l with
  | [] => Raise IndexError
  | x :: _ => Ok x
  end.

Definition is_empty {A} (l : list A) : bool :=
  match l with [] => true | _ => false end.

(** The truth value of a list or of a string in an [if]. *)
Definition nonempty {A} (l : list A) : bool := negb (is_empty l).

(** A [for] loop over a list, threading the variables it assigns. *)
Fixpoint for_each {A S} (body : S -> A -> outcome S) (l : list A) (s : S)
  : outcome S :=
  match l with
  | [] => Ok s
  | a :: l' => s' <- body s a ;; for_each body l' s'
  end.

(** [len(match.group(1))] on a group that took no part is a [TypeError],
    [match.group(2).strip()] an [AttributeError]. *)
Definition group_or (e : exn) (n : nat) (m : Match) : outcome text :=
  match m_group n m with
  | Some t => Ok t
  | None => Raise e
  end.

(** The body of the loop of [parse_sections]. *)
Definition parse_sections_body (wikitext : text) (sections : list Section)
           (m : Match) : outcome (list Section) :=
  g1 <- group_or TypeError 1 m ;;
  g2 <- group_or AttributeError 2 m ;;
  let level' := length g1 in
  let title' := strip g2 in
  let start := m_start m in
  sections <-
    (if nonempty sections then
       set_last (fun s =>
         MkSection (level s) (title s) (header_text s) (start_pos s)
                   (content_start s) start
                   (slice wikitext (content_start s) start)) sections
     else Ok sections) ;;
  Ok (sections ++
      [MkSection level' title' (m_whole m) start (m_end m) (length wikitext) []]).

Definition parse_sections (wikitext : text) : outcome (list Section) :=
  sections <- for_each (parse_sections_body wikitext)
                (re_finditer header_flags header_pattern wikitext) [] ;;
  if nonempty sections then
    set_last (fun s =>
      MkSection (level s) (title s) (header_text s) (start_pos s)
                (content_start s) (length wikitext)
                (slice_from wikitext (content_start s))) sections
  else Ok sections.

(** [audio_pattern] of [page_has_audio]: [\{\{\s*audio\s*\|] compiled
    with IGNORECASE. *)
Definition audio_flags : flags := Flags false true.

Definition audio_pattern : regex :=
  lits (str "{{") >> ws_star >> lits (str "audio") >> ws_star >> lits (str "|").

Definition page_has_audio (wikitext : text) : bool :=
  match re_search audio_flags audio_pattern wikitext with
  | Some _ => true
  | None => false
  end.

Fixpoint find_pronunciation_section (sections : list Section) : option Section :=
  match sections with
  | [] => None
  | section :: sections' =>
      if text_eqb (title section) PRONUNCIATION_HEADER then Some section
      else find_pronunciation_section sections'
  end.

Definition find_first_section_index (sections : list Section) : nat := 0.

Definition build_audio_line (filename : text) : text :=
  str "* " ++ AUDIO_LABEL ++ str ": {{audio|" ++ filename ++ str "}}".

(** [add_pronunciation_to_page]; the calls of the logger leave the result
    alone and are left out.  [None] is the no-change result. *)
Definition add_pronunciation_to_page (wikitext filename : text)
  : outcome (option text) :=
  if page_has_audio wikitext then Ok None
  else
    let audio_line := build_audio_line filename in
    sections <- parse_sections wikitext ;;
    match find_pronunciation_section sections with
    | Some pron_section =>
        let insert_pos := content_start pron_section in
        let remaining := slice_from wikitext insert_pos in
        let stripped := lstrip_nl remaining in
        let skip_count := length remaining - length stripped in
        let insert_pos := insert_pos + skip_count in
        Ok (Some (slice_to wikitext insert_pos ++ audio_line ++ [NL]
                  ++ slice_from wikitext insert_pos))
    | None =>
        let new_section :=
          [NL] ++ str "==" ++ PRONUNCIATION_HEADER ++ str "==" ++ [NL]
          ++ audio_line ++ [NL] in
        if negb (nonempty sections) then
          Ok (Some (rstrip_nl wikitext ++ [NL] ++ new_section ++ [NL]))
        else
          first <- first_item sections ;;
          let first_section_pos := start_pos first in
          let preamble := rstrip_nl (slice_to wikitext first_section_pos) in
          let rest := slice_from wikitext first_section_pos in
          if nonempty preamble
          then Ok (Some (preamble ++ [NL] ++ new_section ++ [NL] ++ rest))
          else Ok (Some (new_section ++ [NL] ++ rest))
    end.

(** ** Auxiliary notions for the proofs *)

(** The least number of characters a pattern takes, and the groups that
    every match of it closes. *)
Fixpoint min_width (r : regex) : nat :=
  match r with
  | Eps | Bol | Eol | Ref _ => 0
  | One _ => 1
  | Rep _ lo _ _ => lo
  | Grp _ r1 => min_width r1
  | Alt r1 r2 => Nat.min (min_width r1) (min_width r2)
  | Seq r1 r2 => min_width r1 + min_width r2
  end.

Fixpoint binds (r : regex) : list nat :=
  match r with
  | Grp n r1 => n :: binds r1
  | Seq r1 r2 => binds r1 ++ binds r2
  | _ => []
  end.

(** The matcher went from [z] to [z'] over the characters [w]. *)
Definition advance (z z' : cursor) (w : text) : Prop :=
  rest z = w ++ rest z' /\ seen z' = rev w ++ seen z.

Definition is_set (n : nat) (cs : list (nat * text)) : Prop :=
  group n cs <> None.

Definition keeps (z z' : cursor) : Prop :=
  forall n, is_set n (caps z) -> is_set n (caps z').

(** The scanner of [finditer] as a relation: it stops when a search
    fails, and not before. *)
Inductive scanned (fl : flags) (r : regex)
  : bool -> text -> text -> list Match -> Prop :=
| scanned_done : forall must sn rs,
    search_from fl r must sn rs = None -> scanned fl r must sn rs []
| scanned_next : forall must sn rs z z' ms,
    search_from fl r must sn rs = Some (z, z') ->
    scanned fl r (Nat.eqb (pos z') (pos z)) (seen z') (rest z') ms ->
    scanned fl r must sn rs (mk_match z z' :: ms).

(** Matches that follow one another in [doc], from position [p] on. *)
Inductive chained (doc : text) : nat -> list Match -> Prop :=
| chained_nil : forall p, p <= length doc -> chained doc p []
| chained_cons : forall p m ms,
    p <= m_start m -> m_start m <= m_end m -> m_end m <= length doc ->
    m_whole m = slice doc (m_start m) (m_end m) ->
    chained doc (m_end m) ms ->
    chained doc p (m :: ms).

(** [m] is what the matcher returned for [r] at some position. *)
Definition is_match (fl : flags) (r : regex) (doc : text) (m : Match) : Prop :=
  exists must z z',
    m = mk_match z z' /\ caps z = [] /\ run fl r z (accept must z) = Some z'
    /\ rev (seen z') ++ rest z' = doc.

(** A text that is at the end of a line: empty, or a line feed first. *)
Definition line_end (s : text) : Prop :=
  match s with
  | [] => True
  | c :: _ => c = NL
  end.

(** The last piece of a pattern is [$]. *)
Fixpoint ends_eol (r : regex) : bool :=
  match r with
  | Eol => true
  | Seq _ r2 => ends_eol r2
  | _ => false
  end.

(** What every match of [r] has. *)
Definition match_of (r : regex) (m : Match) : Prop :=
  m_start m + min_width r <= m_end m
  /\ forall n, In n (binds r) -> is_set n (m_caps m).

(** A match of the header pattern: it begins with an equals sign and ends
    at the end of a line. *)
Definition header_match (doc : text) (m : Match) : Prop :=
  match_of header_pattern m /\ (exists t, m_whole m = 61%Z :: t)
  /\ line_end (skipn (m_end m) doc).

(** [parse_sections] without the loop: the section of each match runs to
    the start of the next match, or to the end of the text. *)
Definition opt_text (o : option text) : text :=
  match o with
  | Some t => t
  | None => []
  end.

Definition next_start (doc : text) (ms : list Match) : nat :=
  match ms with
  | [] => length doc
  | m :: _ => m_start m
  end.

Definition section_upto (doc : text) (m : Match) (stop : nat) (c : text) : Section :=
  MkSection (length (opt_text (m_group 1 m))) (strip (opt_text (m_group 2 m)))
            (m_whole m) (m_start m) (m_end m) stop c.

Fixpoint sections_of (doc : text) (ms : list Match) : list Section :=
  match ms with
  | [] => []
  | m :: ms' =>
      section_upto doc m (next_start doc ms')
                   (slice doc (m_end m) (next_start doc ms'))
        :: sections_of doc ms'
  end.

(** The preamble: the text before the first section, all of it when there
    is no section. *)
Definition first_start (doc : text) (secs : list Section) : nat :=
  match secs with
  | [] => length doc
  | s :: _ => start_pos s
  end.

Definition preamble_of (doc : text) (secs : list Section) : text :=
  slice_to doc (first_start doc secs).

Definition rebuild (doc : text) (secs : list Section) : text :=
  preamble_of doc secs
  ++ concat (map (fun s => header_text s ++ content s) secs).

(** Sections in document order from position [p] on: each one starts
    where the one before it ends, with a header that is not empty. *)
Fixpoint in_order (p : nat) (secs : list Section) : Prop :=
  match secs with
  | [] => True
  | s :: secs' =>
      p <= start_pos s /\ start_pos s < content_start s
      /\ content_start s <= end_pos s /\ in_order (end_pos s) secs'
  end.

(** The texts of a section are the spans of the document that its
    positions delimit. *)
Definition spans_of (doc : text) (s : Section) : Prop :=
  header_text s = slice doc (start_pos s) (content_start s)
  /\ content s = slice doc (content_start s) (end_pos s)
  /\ end_pos s <= length doc
  /\ (end_pos s = length doc \/ exists t, skipn (end_pos s) doc = 61%Z :: t)
  /\ line_end (skipn (content_start s) doc).

(** The header line that the editor writes, and that line with the audio
    line under it. *)
Definition pron_header_line : text :=
  str "==" ++ PRONUNCIATION_HEADER ++ str "==".

Definition new_section_lines (filename : text) : text :=
  pron_header_line ++ [NL] ++ build_audio_line filename ++ [NL].

(** [t] is [s] without its trailing line feeds. *)
Definition trimmed (s t : text) : Prop :=
  exists nls, s = t ++ nls /\ forallb is_nl nls = true
              /\ match rev t with [] => True | c :: _ => is_nl c = false end.


Definition starts_blank (s : text) : bool :=
  match s with
  | [] => false
  | c :: _ => is_nl c
  end.

(** The layout that the specification gives for a page with sections and
    no Pronunciation section: the trimmed preamble, one line feed, "the new
    section", one line feed, the text from the first header on. *)
Definition claimed_layout (section pre rest : text) : text :=
  rstrip_nl pre ++ [NL] ++ section ++ [NL] ++ rest.

Definition claimed_output (section doc : text) : outcome (option text) :=
  secs <- parse_sections doc ;;
  Ok (Some (claimed_layout section (preamble_of doc secs)
                           (slice_from doc (first_start doc secs)))).

(** The audio construct in the words of the specification: two opening
    braces, optional whitespace, the word audio in any casing, optional
    whitespace and a vertical bar, somewhere in the text.

    Two characters are the same letter in some casing when their upper-case
    forms or their lower-case forms are the same.  The case mappings are
    those of Unicode as far as they reach the ASCII letters (U+0131 and
    U+017F have the capitals I and S, U+0130 and U+212A the small letters i
    and k); no other mapping can make a character meet an ASCII letter. *)
Definition simple_upper (c : char) : char :=
  if in_range 97%Z 122%Z c then (c - 32)%Z
  else if (c =? 305)%Z then 73%Z
  else if (c =? 383)%Z then 83%Z
  else c.

Definition simple_lower (c : char) : char :=
  if in_range 65%Z 90%Z c then (c + 32)%Z
  else if (c =? 304)%Z then 105%Z
  else if (c =? 8490)%Z then 107%Z
  else c.

Definition same_letter (x c : char) : Prop :=
  simple_upper c = simple_upper x \/ simple_lower c = simple_lower x.

Definition any_casing (word a : text) : Prop := Forall2 same_letter word a.

Definition audio_construct (doc : text) : Prop :=
  exists pre w1 a w2 suf,
    doc = pre ++ str "{{" ++ w1 ++ a ++ w2 ++ str "|" ++ suf
    /\ forallb unicode_isspace w1 = true
    /\ forallb unicode_isspace w2 = true
    /\ any_casing (str "audio") a.

(** The extensions of the filename pattern, and the characters of a
    speaker name that holds no hyphen. *)
Definition LL_EXTENSIONS : list text :=
  [str "wav"; str "ogg"; str "mp3"; str "flac"].

Definition speaker_char (c : char) : bool := dot c && negb (c =? 45)%Z.

(** Where a greedy repetition cannot go on. *)
Definition stops (ok : char -> bool) (rs : text) : Prop :=
  match rs with
  | [] => True
  | c :: _ => ok c = false
  end.

(** ** The bot *)

(** A recording, the dict with the keys word, filename, speaker and date
    that the three sources build. *)
Record Recording := MkRecording {
  rec_word : text;
  rec_filename : text;
  rec_speaker : text;
  rec_date : text
}.

(** The keys of [self.stats]; [__init__] sets every one of them to 0. *)
Inductive StatKey :=
| total_recordings | pages_checked | pages_edited | pages_skipped_has_audio
| pages_skipped_not_found | pages_skipped_redirect | pages_skipped_error
| pages_created_section | pages_added_to_existing.

Definition stat_index (k : StatKey) : nat :=
  match k with
  | total_recordings => 0 | pages_checked => 1 | pages_edited => 2
  | pages_skipped_has_audio => 3 | pages_skipped_not_found => 4
  | pages_skipped_redirect => 5 | pages_skipped_error => 6
  | pages_created_section => 7 | pages_added_to_existing => 8
  end.

Definition Stats := StatKey -> nat.

Definition initial_stats : Stats := fun _ => 0.

(** [stats[k] = v] and [stats[k] += 1]. *)
Definition set_stat (k : StatKey) (v : nat) (s : Stats) : Stats :=
  fun k' => if Nat.eqb (stat_index k) (stat_index k') then v else s k'.

Definition bump_stat (k : StatKey) (s : Stats) : Stats := set_stat k (S (s k)) s.

(** The attributes of the bot that the run reads and writes. *)
Record Bot := MkBot {
  dry_run : bool;
  edit_delay : Z;
  stats : Stats
}.

Definition bump (k : StatKey) (self : Bot) : Bot :=
  MkBot (dry_run self) (edit_delay self) (bump_stat k (stats self)).

(** What [_get_page] returns when it returns a dict. *)
Record PageData := MkPageData {
  pd_exists : bool;
  pd_redirect : bool;
  pd_content : text
}.

(** What a call can raise: [KeyboardInterrupt], which is no [Exception],
    a [RequestException], or another [Exception]. *)
Inductive raised := KeyboardInterrupt | RequestException | OtherError.

Inductive io (A : Type) : Type :=
| Returns (a : A)
| Throws (e : raised).
Arguments Returns {A} a.
Arguments Throws {A} e.

(** The calls that leave the process, the latest first in a history. *)
Inductive Call :=
| GetPage (title : text)
| EditPage (title new_text summary : text)
| Sleep (seconds : Z).

(** [EDIT_SUMMARY_TEMPLATE.format(filename=filename)]: the filename and
    the fixed words behind it. *)
Definition EDIT_SUMMARY_WORDS : text :=
  [44; 32; 76; 105; 110; 103; 117; 97; 76; 105; 98; 114; 101; 45; 3375; 3391;
   3453; 32; 3368; 3391; 3368; 3405; 3368; 3405; 32; 3337; 3354; 3405; 3354;
   3390; 3376; 3363; 3330; 32; 3354; 3399; 3452; 3349; 3405; 3349; 3393; 3368;
   3405; 3368; 3393; 46]%Z.

Definition edit_summary_of (filename : text) : text := filename ++ EDIT_SUMMARY_WORDS.

Definition is_some {A} (o : option A) : bool :=
  match o with Some _ => true | None => false end.

(** [w in words] for a list or a set of strings. *)
Definition mem (w : text) (words : list text) : bool := existsb (text_eqb w) words.

(** [time.sleep(seconds)] for an [int].  A negative length is refused
    before anything is waited for (a [ValueError], or an [OverflowError]
    when it is beyond the range of the clock).  For another length the call
    is made, and what comes of it is the platform's, [answer_sleep]: it
    returns, it is interrupted, or it raises, as it does with an
    [OverflowError] for a length beyond the range of the clock. *)
Definition sleep (answer_sleep : list Call -> Z -> io unit) (seconds : Z)
           (h : list Call) : io unit * list Call :=
  if (seconds <? 0)%Z then (Throws OtherError, h)
  else (answer_sleep h seconds, Sleep seconds :: h).

(** The de-duplication loop of [run]: the words seen and the recordings
    kept. *)
Definition unique_step (st : list text * list Recording) (rec : Recording)
  : list text * list Recording :=
  let (seen_words, unique_recordings) := st in
  if negb (mem (rec_word rec) seen_words)
  then (rec_word rec :: seen_words, unique_recordings ++ [rec])
  else st.

Definition unique_recordings_of (recordings : list Recording) : list Recording :=
  snd (fold_left unique_step recordings ([], [])).

(** [if words_filter:] holds for a list that is not empty. *)
Definition filter_words (words_filter : option (list text))
           (recordings : list Recording) : list Recording :=
  match words_filter with
  | Some (w :: ws) =>
      filter (fun r => mem (rec_word r) (w :: ws)) recordings
  | _ => recordings
  end.

(** The methods of the class that the run goes through. *)
Module MalayalamPronunciationBot.
Section Gateway.
(** [_get_page] and [_edit_page] go to the wiki; the model takes their
    results, whatever they are, from [answer_get] and [answer_edit], which
    know the calls made so far, and the result of [time.sleep] from
    [answer_sleep].  An exception comes out of one of these calls: a
    [KeyboardInterrupt] is taken to arrive while the process waits there. *)
Variable answer_get : list Call -> text -> io (option PageData).
Variable answer_edit : list Call -> text -> text -> text -> io bool.
Variable answer_sleep : list Call -> Z -> io unit.

Definition _get_page (title : text) (h : list Call)
  : io (option PageData) * list Call :=
  (answer_get h title, GetPage title :: h).

Definition _edit_page (title new_text summary : text) (h : list Call)
  : io bool * list Call :=
  (answer_edit h title new_text summary, EditPage title new_text summary :: h).

Definition process_recording (recording : Recording) (self : Bot) (h : list Call)
  : io bool * Bot * list Call :=
  let word := rec_word recording in
  let filename := rec_filename recording in
  let self := bump pages_checked self in
  let (page_data, h) := _get_page word h in
  match page_data with
  | Throws e => (Throws e, self, h)
  | Returns None => (Returns false, bump pages_skipped_error self, h)
  | Returns (Some page_data) =>
      if negb (pd_exists page_data) then
        (Returns false, bump pages_skipped_not_found self, h)
      else if pd_redirect page_data then
        (Returns false, bump pages_skipped_redirect self, h)
      else
        let current_text := pd_content page_data in
        match add_pronunciation_to_page current_text filename with
        | Raise _ => (Throws OtherError, self, h)
        | Ok None => (Returns false, bump pages_skipped_has_audio self, h)
        | Ok (Some new_text) =>
            match parse_sections current_text with
            | Raise _ => (Throws OtherError, self, h)
            | Ok sections =>
                let had_pron_section :=
                  is_some (find_pronunciation_section sections) in
                let self :=
                  if had_pron_section then bump pages_added_to_existing self
                  else bump pages_created_section self in
                let edit_summary := edit_summary_of filename in
                if dry_run self then (Returns true, bump pages_edited self, h)
                else
                  let (saved, h) := _edit_page word new_text edit_summary h in
                  match saved with
                  | Throws e => (Throws e, self, h)
                  | Returns true =>
                      let self := bump pages_edited self in
                      let (slept, h) := sleep answer_sleep (edit_delay self) h in
                      match slept with
                      | Throws e => (Throws e, self, h)
                      | Returns _ => (Returns true, self, h)
                      end
                  | Returns false =>
                      (Returns false, bump pages_skipped_error self, h)
                  end
            end
        end
  end.

(** The processing loop of [run]. *)
Fixpoint run_loop (unique_recordings : list Recording) (self : Bot)
         (h : list Call) : Bot * list Call :=
  match unique_recordings with
  | [] => (self, h)
  | recording :: rest =>
      match process_recording recording self h with
      | (Throws KeyboardInterrupt, self, h) => (self, h)
      | (Throws _, self, h) => run_loop rest (bump pages_skipped_error self) h
      | (Returns _, self, h) => run_loop rest self h
      end
  end.

Definition run (recordings : list Recording) (words_filter : option (list text))
           (self : Bot) (h : list Call) : Bot * list Call :=
  let self :=
    MkBot (dry_run self) (edit_delay self)
          (set_stat total_recordings (length recordings) (stats self)) in
  let recordings := filter_words words_filter recordings in
  run_loop (unique_recordings_of recordings) self h.

End Gateway.
End MalayalamPronunciationBot.

(** What a run may send.  An edit request is sent in live mode only, for
    the word of a recording and with the summary of its file, straight
    after the reading of that page, which exists and is no redirect, and
    the text sent is the one the editor made of the text read with that
    file.  A sleep follows an edit request. *)
Fixpoint sent_ok (answer_get : list Call -> text -> io (option PageData))
         (live : bool) (recordings : list Recording)
         (h new : list Call) : Prop :=
  match new with
  | [] => True
  | GetPage _ :: new' => sent_ok answer_get live recordings h new'
  | EditPage t x s :: new' =>
      live = true
      /\ (exists r pd rest,
            In r recordings /\ t = rec_word r
            /\ s = edit_summary_of (rec_filename r)
            /\ new' = GetPage t :: rest
            /\ answer_get (rest ++ h) t = Returns (Some pd)
            /\ pd_exists pd = true /\ pd_redirect pd = false
            /\ add_pronunciation_to_page (pd_content pd) (rec_filename r)
               = Ok (Some x))
      /\ sent_ok answer_get live recordings h new'
  | Sleep _ :: new' =>
      live = true
      /\ (exists t x s rest, new' = EditPage t x s :: rest)
      /\ sent_ok answer_get live recordings h new'
  end.

(** The text of an edit request has audio. *)
Definition sends_audio (c : Call) : Prop :=
  match c with
  | EditPage _ x _ => page_has_audio x = true
  | _ => True
  end.

(** Nobody interrupts the run. *)
Definition never_interrupted
           (answer_get : list Call -> text -> io (option PageData))
           (answer_edit : list Call -> text -> text -> text -> io bool)
           (answer_sleep : list Call -> Z -> io unit) : Prop :=
  (forall h t, answer_get h t <> Throws KeyboardInterrupt)
  /\ (forall h t x s, answer_edit h t x s <> Throws KeyboardInterrupt)
  /\ (forall h d, answer_sleep h d <> Throws KeyboardInterrupt).

(** [time.sleep] takes the delay: the delay is not negative, and the call
    raises no [Exception] for it, whenever it is made; it may still be
    interrupted. *)
Definition sleep_accepts (answer_sleep : list Call -> Z -> io unit)
           (delay : Z) : Prop :=
  (0 <= delay)%Z
  /\ forall h e, answer_sleep h delay = Throws e -> e = KeyboardInterrupt.

(** The pages that a run has disposed of, one way or another. *)
Definition handled (s : Stats) : nat :=
  s pages_edited + s pages_skipped_has_audio + s pages_skipped_not_found
  + s pages_skipped_redirect + s pages_skipped_error.

Definition classified (s : Stats) : nat :=
  s pages_created_section + s pages_added_to_existing.

(** The titles fetched, the earliest first. *)
Fixpoint fetched (calls : list Call) : list text :=
  match calls with
  | [] => []
  | GetPage t :: calls' => fetched calls' ++ [t]
  | _ :: calls' => fetched calls'
  end.

(** The titles of the edit requests, the earliest first. *)
Fixpoint edited (calls : list Call) : list text :=
  match calls with
  | [] => []
  | EditPage t _ _ :: calls' => edited calls' ++ [t]
  | _ :: calls' => edited calls'
  end.

Definition reads_only (calls : list Call) : Prop :=
  Forall (fun c => match c with GetPage _ => True | _ => False end) calls.

(** The recordings whose word is not among [seen] nor borne by an earlier
    recording. *)
Fixpoint firsts (seen : list text) (recs : list Recording) : list Recording :=
  match recs with
  | [] => []
  | r :: recs' =>
      if mem (rec_word r) seen then firsts seen recs'
      else r :: firsts (rec_word r :: seen) recs'
  end.

(** [l] is [l'] with some elements left out. *)
Inductive subseq {A : Type} : list A -> list A -> Prop :=
| subseq_nil : subseq [] []
| subseq_skip : forall x l l', subseq l l' -> subseq l (x :: l')
| subseq_keep : forall x l l', subseq l l' -> subseq (x :: l) (x :: l').

(** ** The shape of headers and of filenames *)

(** A repetition count under the upper bound of [x{lo,hi}]. *)
Definition within (hi : option nat) (n : nat) : Prop :=
  match hi with
  | Some h => n <= h
  | None => True
  end.

Definition is_eq_sign (c : char) : bool := (c =? 61)%Z.

(** No whitespace at either end. *)
Definition bare (s : text) : Prop :=
  match s with [] => True | c :: _ => unicode_isspace c = false end
  /\ match rev s with [] => True | c :: _ => unicode_isspace c = false end.

(** The header of a section: equals signs, the title between whitespace,
    the same equals signs, whitespace. *)
Definition section_shape (s : Section) : Prop :=
  exists marks ws1 ws2 ws3,
    header_text s = marks ++ ws1 ++ title s ++ ws2 ++ marks ++ ws3
    /\ forallb is_eq_sign marks = true
    /\ level s = length marks /\ 2 <= level s <= 6
    /\ forallb unicode_isspace ws1 = true
    /\ forallb unicode_isspace ws2 = true
    /\ forallb unicode_isspace ws3 = true
    /\ forallb dot (title s) = true /\ bare (title s)
    /\ ws1 ++ title s ++ ws2 <> [].

(** Two equals signs in a row, somewhere in the text. *)
Definition has_marks (doc : text) : Prop :=
  exists a b, doc = a ++ str "==" ++ b.

(** What follows the speaker in the filename pattern:
    [-(.+)\.(wav|ogg|mp3|flac)$]. *)
Definition word_and_extension : regex :=
  lits (str "-") >> Grp 2 (Rep (Cls dot) 1 None true) >> lits (str ".")
  >> Grp 3 extension_alt >> Eol.

(** The filenames that the pattern accepts, and what it captures. *)
Definition filename_shape (unicode_isdigit : char -> bool)
           (f speaker word ext : text) : Prop :=
  exists digits ws lang c S tail,
    f = str "LL-Q" ++ digits ++ ws ++ str "(" ++ lang ++ str ")-"
        ++ speaker ++ str "-" ++ word ++ str "." ++ ext ++ tail
    /\ digits <> [] /\ forallb unicode_isdigit digits = true
    /\ forallb unicode_isspace ws = true
    /\ length lang = 3 /\ forallb (in_range 97%Z 122%Z) lang = true
    /\ speaker = c :: S /\ dot c = true /\ forallb speaker_char S = true
    /\ word <> [] /\ forallb dot word = true
    /\ In ext LL_EXTENSIONS /\ (tail = [] \/ tail = [NL]).

(** The groups of a match of the filename pattern. *)
Definition filename_groups (m : Match) : option (text * text * text) :=
  match m_group 1 m, m_group 2 m, m_group 3 m with
  | Some s, Some w, Some e => Some (s, w, e)
  | _, _, _ => None
  end.

(** What the editor puts into a page: the audio line and a line feed, or
    one or two line feeds, the header line, the audio line and two line
    feeds. *)
Definition inserted (filename ins : text) : Prop :=
  ins = build_audio_line filename ++ [NL]
  \/ exists blanks,
       (blanks = [NL] \/ blanks = [NL; NL])
       /\ ins = blanks ++ new_section_lines filename ++ [NL].

(** ** The sources of recordings *)

(** [s.startswith(prefix)] and [s.replace(old, new, 1)]. *)
Definition startswith (prefix s : text) : bool := is_some (strip_prefix prefix s).

Fixpoint replace_first (old new s : text) : text :=
  match strip_prefix old s with
  | Some s' => new ++ s'
  | None =>
      match s with
      | [] => []
      | c :: s' => c :: replace_first old new s'
      end
  end.

(** [title.replace("File:", "", 1) if title.startswith("File:") else title] *)
Definition bare_filename (title : text) : text :=
  if startswith (str "File:") title then replace_first (str "File:") [] title
  else title.

(** A member of the category as the Commons API lists it; [.get(key, "")]
    reads a key that may be missing. *)
Record Member := MkMember {
  mb_title : option text;
  mb_timestamp : option text
}.

(** What a request to Commons comes to: a [RequestException], or the data
    with its members and, when there is more, the key [continue] with the
    token it may hold. *)
Inductive Response :=
| Failed
| Data (members : list Member) (continue_ : option (option text)).

Definition members_of (r : Response) : list Member :=
  match r with
  | Failed => []
  | Data members _ => members
  end.

(** A limit that counts in an [if]: neither [None] nor 0. *)
Definition has_limit (limit : option Z) : bool :=
  match limit with
  | Some l => negb (l =? 0)%Z
  | None => false
  end.

(** [min(500, limit - count if limit else 500)] *)
Definition cmlimit_of (limit : option Z) (count : Z) : Z :=
  Z.min 500 (match limit with
             | Some l => if has_limit limit then l - count else 500
             | None => 500
             end)%Z.

(** [limit is None or count < limit] and [limit and count >= limit] *)
Definition room_left (limit : option Z) (count : Z) : bool :=
  match limit with
  | None => true
  | Some l => (count <? l)%Z
  end.

Definition limit_reached (limit : option Z) (count : Z) : bool :=
  match limit with
  | None => false
  | Some l => has_limit limit && (l <=? count)%Z
  end.

(** The answers of the search of Commons for one word: a
    [RequestException], or the titles found. *)
Inductive SearchResponse :=
| SearchFailed
| SearchData (titles : list (option text)).

Section Sources.
Variable unicode_isdigit : char -> bool.

(** The body of the loop over the members of a batch.  [match.group(n)]
    is [None] for a group that took no part; the pattern has no such
    match, and the model writes the empty text there. *)
Definition member_step (st : list Recording * Z) (member : Member)
  : list Recording * Z :=
  let (results, count) := st in
  let title := opt_text (mb_title member) in
  let filename := bare_filename title in
  match LL_FILENAME_match unicode_isdigit filename with
  | Some m =>
      let speaker := opt_text (m_group 1 m) in
      let word := opt_text (m_group 2 m) in
      (results ++ [MkRecording word filename speaker
                               (opt_text (mb_timestamp member))],
       (count + 1)%Z)
  | None => (results, count)
  end.

(** The loop of [query_commons_for_files] over the answers that the
    requests get, one after the other: the results and the count so far,
    and for each answered request the [cmlimit] asked and the number of
    members received.  The loop ends at a failed request, at an answer
    without [continue], or when the limit leaves no room; with no answer
    left, the function gives what the loop holds at that point. *)
Fixpoint commons_batches (limit : option Z) (answers : list Response)
         (results : list Recording) (count : Z) (asked : list (Z * nat))
  : list Recording * Z * list (Z * nat) :=
  match answers with
  | [] => (results, count, asked)
  | Failed :: _ => (results, count, asked)
  | Data members continue_ :: answers' =>
      let asked := asked ++ [(cmlimit_of limit count, length members)] in
      let (results, count) := fold_left member_step members (results, count) in
      if is_some continue_ && room_left limit count then
        if limit_reached limit count then (results, count, asked)
        else commons_batches limit answers' results count asked
      else (results, count, asked)
  end.

Definition query_commons_for_files (limit : option Z) (answers : list Response)
  : list Recording :=
  fst (fst (commons_batches limit answers [] 0%Z [])).

(** The loop over the search results of one word: the first title whose
    filename the pattern matches with that word. *)
Fixpoint first_hit (word : text) (titles : list (option text)) : option Recording :=
  match titles with
  | [] => None
  | sr :: titles' =>
      let title := opt_text sr in
      let filename := bare_filename title in
      match LL_FILENAME_match unicode_isdigit filename with
      | Some m =>
          match m_group 2 m with
          | Some w =>
              if text_eqb w word
              then Some (MkRecording word filename (opt_text (m_group 1 m)) [])
              else first_hit word titles'
          | None => first_hit word titles'
          end
      | None => first_hit word titles'
      end
  end.

(** [search_commons_for_words]: the answer to the search for a word may
    depend on the words searched before. *)
Fixpoint search_loop (answer : list text -> text -> SearchResponse)
         (words : list text) (searched : list text) (results : list Recording)
  : list Recording :=
  match words with
  | [] => results
  | word :: words' =>
      let results :=
        match answer searched word with
        | SearchFailed => results
        | SearchData titles =>
            match first_hit word titles with
            | Some r => results ++ [r]
            | None => results
            end
        end in
      search_loop answer words' (searched ++ [word]) results
  end.

Definition search_commons_for_words (answer : list text -> text -> SearchResponse)
           (words : list text) : list Recording :=
  search_loop answer words [] [].
End Sources.

(** A recording made of a member of the category: the title is the
    filename, with or without [File:] before it, the date is the
    timestamp, and the speaker and the word are those of the filename. *)
Definition from_title (unicode_isdigit : char -> bool) (title : text)
           (r : Recording) : Prop :=
  (title = str "File:" ++ rec_filename r \/ title = rec_filename r)
  /\ exists ext,
       filename_shape unicode_isdigit (rec_filename r) (rec_speaker r)
                      (rec_word r) ext.

Definition from_member (unicode_isdigit : char -> bool) (member : Member)
           (r : Recording) : Prop :=
  from_title unicode_isdigit (opt_text (mb_title member)) r
  /\ rec_date r = opt_text (mb_timestamp member).

(** The server gives no more members than asked. *)
Definition honoured (asked : list (Z * nat)) : Prop :=
  Forall (fun p => (Z.of_nat (snd p) <= fst p)%Z) asked.

(** A binding of the SPARQL answer: for each variable its value, when the
    binding has the variable and the variable has a value;
    [binding.get(v, {}).get("value", "")] reads it. *)
Record Binding := MkBinding {
  b_word : option text;
  b_filename : option text;
  b_speakerLabel : option text;
  b_date : option text
}.

(** [needle in hay] for strings. *)
Fixpoint contains (needle hay : text) : bool :=
  match strip_prefix needle hay with
  | Some _ => true
  | None =>
      match hay with
      | [] => false
      | _ :: hay' => contains needle hay'
      end
  end.

Section Bindings.
(** [str.lower], which is the interpreter's. *)
Variable unicode_lower : text -> text.

(** The body of the loop over the bindings in
    [query_lingualibre_recordings]: [None] for a binding that is skipped. *)
Definition binding_recording (speaker : option text) (binding : Binding)
  : option Recording :=
  let word := strip (opt_text (b_word binding)) in
  let filename := strip (opt_text (b_filename binding)) in
  let speaker_label := strip (opt_text (b_speakerLabel binding)) in
  let date := opt_text (b_date binding) in
  if negb (nonempty word) || negb (nonempty filename) then None
  else if nonempty (opt_text speaker)
          && negb (contains (unicode_lower (opt_text speaker))
                            (unicode_lower speaker_label))
  then None
  else Some (MkRecording word filename speaker_label date).

Definition bindings_step (speaker : option text) (results : list Recording)
           (binding : Binding) : list Recording :=
  match binding_recording speaker binding with
  | Some r => results ++ [r]
  | None => results
  end.

Definition bindings_loop (speaker : option text) (bindings : list Binding)
  : list Recording :=
  fold_left (bindings_step speaker) bindings [].
End Bindings.

(** A recording that is complete: a word and a filename that are not
    empty, and no whitespace around them or around the speaker. *)
Definition complete_recording (r : Recording) : Prop :=
  rec_word r <> [] /\ bare (rec_word r)
  /\ rec_filename r <> [] /\ bare (rec_filename r)
  /\ bare (rec_speaker r).

(** The speaker of the recording holds the name asked for, cases apart. *)
Definition speaker_holds (unicode_lower : text -> text) (speaker : option text)
           (r : Recording) : Prop :=
  match speaker with
  | Some (c :: s) =>
      exists a b, unicode_lower (rec_speaker r) = a ++ unicode_lower (c :: s) ++ b
  | _ => True
  end.

(** ** The module's tests, on the model *)

Example test_no_audio :
  page_has_audio (str "==A==" ++ [NL] ++ str "word") = false.
Proof. reflexivity. Qed.

Example test_has_audio_case_insensitive :
  page_has_audio (pron_header_line ++ [NL] ++ str "* x: {{Audio|f.wav}}") = true.
Proof. reflexivity. Qed.

Example test_has_audio_with_spaces :
  page_has_audio (pron_header_line ++ [NL] ++ str "* x: {{ audio |f.wav}}") = true.
Proof. reflexivity. Qed.

Example test_empty_page : parse_sections [] = Ok [].
Proof. reflexivity. Qed.

Example test_nested_sections :
  bind (parse_sections (str "==A==" ++ [NL] ++ str "Noun stuff" ++ [NL]
                        ++ str "===B===" ++ [NL] ++ str "Declension"))
       (fun secs => Ok (map (fun s => (level s, title s)) secs))
  = Ok [(2, str "A"); (3, str "B")].
Proof. vm_compute. reflexivity. Qed.

Example test_preamble_before_sections :
  bind (parse_sections (str "Some preamble text" ++ [NL; NL] ++ str "==A=="
                        ++ [NL] ++ str "Noun stuff"))
       (fun secs => Ok (map (fun s => (title s, start_pos s, content s)) secs))
  = Ok [(str "A", 20, NL :: str "Noun stuff")].
Proof. vm_compute. reflexivity. Qed.

(** A header followed by an empty line takes the line feed that ends its
    own line: [\s*$] gives back only what it must. *)
Example header_before_blank_line :
  bind (parse_sections (str "==A==" ++ [NL; NL] ++ str "==B=="))
       (fun secs => Ok (map (fun s => (header_text s, content s)) secs))
  = Ok [(str "==A==" ++ [NL], [NL]); (str "==B==", [])].
Proof. vm_compute. reflexivity. Qed.

Example test_complex_speaker_name :
  option_map (fun m => (m_group 1 m, m_group 2 m, m_group 3 m))
             (LL_FILENAME_match ascii_isdigit
                (str "LL-Q36236 (mal)-Akbar Ali-India.wav"))
  = Some (Some (str "Akbar Ali"), Some (str "India"), Some (str "wav")).
Proof. vm_compute. reflexivity. Qed.

Example test_non_matching :
  LL_FILENAME_match ascii_isdigit (str "some_random_file.wav") = None.
Proof. reflexivity. Qed.

Example test_skip_if_audio_exists :
  add_pronunciation_to_page
    (pron_header_line ++ [NL] ++ str "* x: {{audio|X.wav}}" ++ [NL; NL]
     ++ str "==A==" ++ [NL] ++ str "Def")
    (str "LL-Q36236 (mal)-Vis M-x.wav") = Ok None.
Proof. reflexivity. Qed.

Example test_create_pronunciation_section_no_sections :
  add_pronunciation_to_page (str "Just some content with no sections") (str "f.wav")
  = Ok (Some (str "Just some content with no sections" ++ [NL; NL]
              ++ pron_header_line ++ [NL] ++ build_audio_line (str "f.wav")
              ++ [NL; NL])).
Proof. vm_compute. reflexivity. Qed.

(** ** The matcher *)

Section LoopFacts.
Variable R : Type.
Variable ok : char -> bool.

Lemma rep_greedy_inv :
  forall rs lo hi sn (k : text -> text -> option R) r,
    rep_greedy ok lo hi sn rs k = Some r ->
    exists w rs', rs = w ++ rs' /\ forallb ok w = true /\ lo <= length w
                  /\ k (rev w ++ sn) rs' = Some r.
Proof.
  induction rs as [|c rs IH]; intros lo hi sn k r H; simpl in H.
  - destruct lo; [|discriminate].
    exists [], []. repeat split; auto.
  - assert (Hstop : match lo with 0 => k sn (c :: rs) | S _ => None end = Some r ->
                    exists w rs', c :: rs = w ++ rs' /\ forallb ok w = true
                                  /\ lo <= length w /\ k (rev w ++ sn) rs' = Some r).
    { intros Hs. destruct lo; [|discriminate].
      exists [], (c :: rs). repeat split; auto. }
    destruct (ok c && may_more hi) eqn:E; [|auto].
    destruct (rep_greedy ok (Nat.pred lo) (less hi) (c :: sn) rs k) eqn:E1; [|auto].
    inversion H; subst r0. apply IH in E1.
    destruct E1 as (w & rs' & -> & Hw & Hlo & Hk).
    apply andb_prop in E as [Hc _].
    exists (c :: w), rs'. simpl. rewrite Hc, Hw. repeat split; auto; [lia|].
    rewrite <- app_assoc. exact Hk.
Qed.

Lemma rep_lazy_inv :
  forall rs lo hi sn (k : text -> text -> option R) r,
    rep_lazy ok lo hi sn rs k = Some r ->
    exists w rs', rs = w ++ rs' /\ forallb ok w = true /\ lo <= length w
                  /\ k (rev w ++ sn) rs' = Some r.
Proof.
  induction rs as [|c rs IH]; intros lo hi sn k r H; simpl in H.
  - destruct lo; [|discriminate].
    destruct (k sn []) eqn:E; [|discriminate].
    inversion H; subst. exists [], []. repeat split; auto.
  - assert (Hmore : (if ok c && may_more hi
                     then rep_lazy ok (Nat.pred lo) (less hi) (c :: sn) rs k
                     else None) = Some r ->
                    exists w rs', c :: rs = w ++ rs' /\ forallb ok w = true
                                  /\ lo <= length w /\ k (rev w ++ sn) rs' = Some r).
    { intros Hm. destruct (ok c && may_more hi) eqn:E; [|discriminate].
      apply IH in Hm. destruct Hm as (w & rs' & -> & Hw & Hlo & Hk).
      apply andb_prop in E as [Hc _].
      exists (c :: w), rs'. simpl. rewrite Hc, Hw. repeat split; auto; [lia|].
      rewrite <- app_assoc. exact Hk. }
    destruct lo; [|auto].
    destruct (k sn (c :: rs)) eqn:E; [|auto].
    inversion H; subst. exists [], (c :: rs). repeat split; auto.
Qed.

(** The first success of a greedy repetition: the continuation succeeds
    after [w] and fails after every longer run. *)
Lemma rep_greedy_first :
  forall w lo sn rs (k : text -> text -> option R) r,
    forallb ok w = true -> lo <= length w ->
    k (rev w ++ sn) rs = Some r ->
    (forall u v, rs = u ++ v -> u <> [] -> forallb ok u = true ->
                 k (rev u ++ rev w ++ sn) v = None) ->
    rep_greedy ok lo None sn (w ++ rs) k = Some r.
Proof.
  induction w as [|x w IH]; intros lo sn rs k r Hw Hlo Hk Hnone.
  - simpl in *. assert (lo = 0) by lia. subst lo.
    destruct rs as [|c rs]; simpl; [exact Hk|].
    destruct (ok c) eqn:Ec; simpl; [|exact Hk].
    destruct (rep_greedy ok 0 None (c :: sn) rs k) eqn:E; [|exact Hk].
    apply rep_greedy_inv in E. destruct E as (u & v & -> & Hu & _ & Hku).
    assert (Hn : k (rev (c :: u) ++ sn) v = None).
    { apply (Hnone (c :: u) v); [reflexivity|discriminate|].
      simpl. rewrite Ec, Hu. reflexivity. }
    simpl in Hn. rewrite <- app_assoc in Hn. simpl in Hn. congruence.
  - simpl in Hw. apply andb_prop in Hw as [Hx Hw].
    simpl. rewrite Hx. simpl.
    rewrite (IH (Nat.pred lo) (x :: sn) rs k r); auto.
    + simpl in Hlo. lia.
    + simpl in Hk. rewrite <- app_assoc in Hk. exact Hk.
    + intros u v E Hu Hok.
      replace (rev w ++ x :: sn) with (rev (x :: w) ++ sn)
        by (simpl; rewrite <- app_assoc; reflexivity).
      auto.
Qed.

Lemma rep_greedy_stops :
  forall w lo sn rs (k : text -> text -> option R) r,
    forallb ok w = true -> lo <= length w -> stops ok rs ->
    k (rev w ++ sn) rs = Some r ->
    rep_greedy ok lo None sn (w ++ rs) k = Some r.
Proof.
  intros w lo sn rs k r Hw Hlo Hs Hk. apply rep_greedy_first; auto.
  intros u v -> Hu Hok. destruct u as [|c u]; [congruence|].
  simpl in Hs, Hok. rewrite Hs in Hok. discriminate.
Qed.

(** Exactly [n] times. *)
Lemma rep_greedy_exact :
  forall w n sn rs (k : text -> text -> option R),
    forallb ok w = true -> length w = n ->
    rep_greedy ok n (Some n) sn (w ++ rs) k = k (rev w ++ sn) rs.
Proof.
  induction w as [|x w IH]; intros n sn rs k Hw Hn; simpl in Hn; subst n.
  - simpl. destruct rs as [|c rs]; [reflexivity|].
    simpl. rewrite andb_false_r. reflexivity.
  - simpl in Hw. apply andb_prop in Hw as [Hx Hw].
    simpl. rewrite Hx. simpl. rewrite (IH (length w)); auto.
    rewrite <- app_assoc. simpl.
    destruct (k (rev w ++ x :: sn) rs); reflexivity.
Qed.

(** The first success of a lazy repetition: the continuation succeeds
    after [w] and fails after every shorter run that is long enough. *)
Lemma rep_lazy_first :
  forall w lo sn rs (k : text -> text -> option R) r,
    forallb ok w = true -> lo <= length w ->
    k (rev w ++ sn) rs = Some r ->
    (forall u v, w = u ++ v -> v <> [] -> lo <= length u ->
                 k (rev u ++ sn) (v ++ rs) = None) ->
    rep_lazy ok lo None sn (w ++ rs) k = Some r.
Proof.
  induction w as [|x w IH]; intros lo sn rs k r Hw Hlo Hk Hnone.
  - simpl in *. assert (lo = 0) by lia. subst lo.
    destruct rs; simpl; rewrite Hk; reflexivity.
  - simpl in Hw. apply andb_prop in Hw as [Hx Hw].
    assert (Hrec : rep_lazy ok (Nat.pred lo) None (x :: sn) (w ++ rs) k = Some r).
    { apply IH; auto.
      - simpl in Hlo. lia.
      - simpl in Hk. rewrite <- app_assoc in Hk. exact Hk.
      - intros u v E Hv Hu. specialize (Hnone (x :: u) v).
        simpl in Hnone. rewrite <- app_assoc in Hnone. apply Hnone; auto.
        + rewrite E. reflexivity.
        + lia. }
    destruct lo as [|lo].
    + assert (Hk0 : k sn (x :: w ++ rs) = None).
      { apply (Hnone [] (x :: w)); [reflexivity|discriminate|simpl; lia]. }
      simpl. rewrite Hx, Hk0. simpl. exact Hrec.
    + simpl. rewrite Hx. simpl. exact Hrec.
Qed.
End LoopFacts.

Lemma strip_prefix_app : forall t s rs, strip_prefix t s = Some rs -> s = t ++ rs.
Proof.
  induction t as [|x t IH]; intros s rs H; simpl in H.
  - inversion H; reflexivity.
  - destruct s as [|y s]; [discriminate|].
    destruct (Z.eqb_spec x y); [|discriminate].
    subst. simpl. f_equal. auto.
Qed.

Lemma advance_refl : forall z, advance z z [].
Proof. intros z. split; reflexivity. Qed.

Lemma advance_trans : forall z1 z2 z3 w1 w2,
  advance z1 z2 w1 -> advance z2 z3 w2 -> advance z1 z3 (w1 ++ w2).
Proof.
  intros z1 z2 z3 w1 w2 [H1 H2] [H3 H4]. split.
  - rewrite H1, H3, app_assoc. reflexivity.
  - rewrite H4, H2, rev_app_distr, app_assoc. reflexivity.
Qed.

Lemma keeps_refl : forall z, keeps z z.
Proof. intros z n H. exact H. Qed.

Lemma keeps_trans : forall z1 z2 z3, keeps z1 z2 -> keeps z2 z3 -> keeps z1 z3.
Proof. intros z1 z2 z3 H1 H2 n H. auto. Qed.

Ltac side :=
  simpl; auto using keeps_refl; try lia; try tauto;
  try (intros ? Hside; exact Hside);
  try (split; simpl; solve [auto]).

Ltac split5 := refine (conj _ (conj _ (conj _ (conj _ _)))).

(** Every success of the matcher is a success of its continuation, at a
    position further on in the same subject; the pattern took at least its
    least width and closed its groups. *)
Lemma run_inv : forall fl r z k res,
  run fl r z k = Some res ->
  exists z' w, k z' = Some res /\ advance z z' w /\ min_width r <= length w
               /\ keeps z z' /\ (forall n, In n (binds r) -> is_set n (caps z')).
Proof.
  intros fl r. induction r as [|a|a lo hi g| | |n r1 IH|n|r1 IH1 r2 IH2|r1 IH1 r2 IH2];
    intros z k res H; simpl in H.
  - exists z, []. split5; side.
  - destruct (rest z) as [|c t] eqn:Er; [discriminate|].
    destruct (atom_ok fl a c); [|discriminate].
    exists (Cursor (c :: seen z) t (caps z)), [c]. split5; side.
  - assert (exists w rs', rest z = w ++ rs' /\ lo <= length w
              /\ k (Cursor (rev w ++ seen z) rs' (caps z)) = Some res) as (w & rs' & Hr & Hlo & Hk).
    { destruct g.
      - apply rep_greedy_inv in H. destruct H as (w & rs' & ? & ? & ? & ?); eauto.
      - apply rep_lazy_inv in H. destruct H as (w & rs' & ? & ? & ? & ?); eauto. }
    exists (Cursor (rev w ++ seen z) rs' (caps z)), w. split5; side.
  - destruct (at_bol fl z); [|discriminate].
    exists z, []. split5; side.
  - destruct (at_eol fl z); [|discriminate].
    exists z, []. split5; side.
  - apply IH in H. destruct H as (z1 & w & Hk & Ha & Hw & Hkeep & Hb).
    exists (Cursor (seen z1) (rest z1) ((n, between z z1) :: caps z1)), w.
    repeat split; simpl; auto; try apply Ha.
    + intros m Hm. unfold is_set. simpl. destruct (Nat.eqb n m); [discriminate|].
      apply Hkeep, Hm.
    + intros m [->|Hm]; unfold is_set; simpl.
      * rewrite Nat.eqb_refl. discriminate.
      * destruct (Nat.eqb n m); [discriminate|]. apply Hb, Hm.
  - destruct (group n (caps z)) as [t|] eqn:Eg; [|discriminate].
    destruct (strip_prefix t (rest z)) as [rs|] eqn:Es; [|discriminate].
    apply strip_prefix_app in Es.
    exists (Cursor (rev t ++ seen z) rs (caps z)), t. split5; side.
  - destruct (run fl r1 z k) eqn:E1.
    + inversion H; subst. apply IH1 in E1.
      destruct E1 as (z' & w & ? & ? & ? & ? & ?).
      exists z', w. split5; side.
    + apply IH2 in H. destruct H as (z' & w & ? & ? & ? & ? & ?).
      exists z', w. split5; side.
  - apply IH1 in H. destruct H as (z1 & w1 & H & Ha1 & Hw1 & Hk1 & Hb1).
    apply IH2 in H. destruct H as (z2 & w2 & H & Ha2 & Hw2 & Hk2 & Hb2).
    exists z2, (w1 ++ w2).
    split; [exact H|]. split; [eapply advance_trans; eauto|].
    split; [simpl; rewrite length_app; lia|]. split; [eapply keeps_trans; eauto|].
    intros n Hn. apply in_app_or in Hn as [Hn|Hn]; auto.
Qed.

(** ** Searching and scanning *)

Lemma skipn_rev_app : forall (a b : text), skipn (length a) (rev a ++ b) = b.
Proof.
  intros a b. rewrite <- (length_rev a), skipn_app, Nat.sub_diag, skipn_all.
  reflexivity.
Qed.

Lemma firstn_rev_app : forall (a b : text), firstn (length a) (rev a ++ b) = rev a.
Proof.
  intros a b. rewrite <- (length_rev a), firstn_app, Nat.sub_diag, firstn_all.
  simpl. apply app_nil_r.
Qed.

Lemma advance_doc : forall z z' w,
  advance z z' w -> rev (seen z') ++ rest z' = rev (seen z) ++ rest z.
Proof.
  intros z z' w [H1 H2]. rewrite H1, H2, rev_app_distr, rev_involutive, <- app_assoc.
  reflexivity.
Qed.

Lemma advance_pos : forall z z' w, advance z z' w -> pos z' = pos z + length w.
Proof.
  intros z z' w [_ H]. unfold pos. rewrite H, length_app, length_rev. lia.
Qed.

Lemma advance_between : forall z z' w, advance z z' w -> between z z' = w.
Proof.
  intros z z' w H. unfold between. rewrite (advance_pos H).
  destruct H as [_ H]. rewrite H.
  replace (pos z + length w - pos z) with (length w) by lia.
  rewrite firstn_rev_app. apply rev_involutive.
Qed.

(** A search that succeeds skipped some characters and then matched. *)
Lemma search_inv : forall fl r rs must sn z z',
  search_from fl r must sn rs = Some (z, z') ->
  exists skipped w,
    seen z = rev skipped ++ sn /\ rs = skipped ++ rest z /\ caps z = []
    /\ advance z z' w /\ min_width r <= length w
    /\ (forall n, In n (binds r) -> is_set n (caps z'))
    /\ (must = true -> skipped = [] -> 0 < length w).
Proof.
  intros fl r. induction rs as [|c rs IH]; intros must sn z z' H; simpl in H.
  - destruct (run fl r (Cursor sn [] []) (accept must (Cursor sn [] []))) eqn:E;
      [|discriminate].
    inversion H; subst; clear H. apply run_inv in E.
    destruct E as (z1 & w & Hacc & Ha & Hw & _ & Hb).
    unfold accept in Hacc.
    destruct (must && Nat.eqb (pos z1) (pos (Cursor sn [] []))) eqn:Em; [discriminate|].
    inversion Hacc; subst z1.
    exists [], w. repeat split; auto; try apply Ha.
    intros -> _. simpl in Em. apply Nat.eqb_neq in Em.
    rewrite (advance_pos Ha) in Em. lia.
  - destruct (run fl r (Cursor sn (c :: rs) []) (accept must (Cursor sn (c :: rs) [])))
      eqn:E.
    + inversion H; subst; clear H. apply run_inv in E.
      destruct E as (z1 & w & Hacc & Ha & Hw & _ & Hb).
      unfold accept in Hacc.
      destruct (must && Nat.eqb (pos z1) (pos (Cursor sn (c :: rs) []))) eqn:Em;
        [discriminate|].
      inversion Hacc; subst z1.
      exists [], w. repeat split; auto; try apply Ha.
      intros -> _. simpl in Em. apply Nat.eqb_neq in Em.
      rewrite (advance_pos Ha) in Em. lia.
    + apply IH in H. destruct H as (sk & w & Hs & Hr & Hc & Ha & Hw & Hb & _).
      exists (c :: sk), w. repeat split; auto; try apply Ha.
      * rewrite Hs. simpl. rewrite <- app_assoc. reflexivity.
      * simpl. f_equal. exact Hr.
      * intros _ Hsk. discriminate.
Qed.

Lemma search_match : forall fl r rs must sn z z',
  search_from fl r must sn rs = Some (z, z') ->
  let doc := rev sn ++ rs in
  let m := mk_match z z' in
  length sn <= m_start m /\ m_start m <= m_end m /\ m_end m <= length doc
  /\ m_whole m = slice doc (m_start m) (m_end m)
  /\ rev (seen z') ++ rest z' = doc
  /\ length (rest z') <= length rs
  /\ (pos z' = pos z -> must = true -> length (rest z') < length rs)
  /\ (pos z' <> pos z -> length (rest z') < length rs)
  /\ match_of r m.
Proof.
  intros fl r rs must sn z z' H doc m.
  apply search_inv in H.
  destruct H as (sk & w & Hs & Hr & Hc & Ha & Hw & Hb & Hm).
  pose proof (advance_pos Ha) as Hp. pose proof (advance_doc Ha) as Hd.
  pose proof (advance_between Ha) as Hbt.
  assert (Hdoc : doc = rev (seen z) ++ rest z).
  { unfold doc. rewrite Hs, Hr, rev_app_distr, rev_involutive, <- app_assoc.
    reflexivity. }
  assert (Hlen : length rs = length sk + length w + length (rest z')).
  { rewrite Hr. destruct Ha as [Ha _]. rewrite Ha, !length_app. lia. }
  assert (Hz : pos z = length sn + length sk).
  { unfold pos. rewrite Hs, length_app, length_rev. lia. }
  unfold m; simpl. rewrite Hbt. clearbody doc. subst doc.
  repeat split; try lia.
  - rewrite <- Hd, length_app, length_rev. unfold pos in *. lia.
  - unfold slice, pos. rewrite skipn_rev_app.
    destruct Ha as [Ha _]. rewrite Ha.
    replace (length (seen z') - length (seen z)) with (length w)
      by (unfold pos in Hp; lia).
    rewrite firstn_app, Nat.sub_diag, firstn_all. simpl. symmetry; apply app_nil_r.
  - exact Hd.
  - intros He Hmust. destruct sk; [|simpl in Hlen; lia].
    specialize (Hm Hmust eq_refl). lia.
  - simpl. lia.
  - exact Hb.
Qed.

Lemma search_is_match : forall fl r rs must sn z z',
  search_from fl r must sn rs = Some (z, z') ->
  is_match fl r (rev sn ++ rs) (mk_match z z').
Proof.
  intros fl r. induction rs as [|c rs IH]; intros must sn z z' H; simpl in H.
  - destruct (run fl r (Cursor sn [] []) (accept must (Cursor sn [] []))) eqn:E;
      [|discriminate].
    inversion H; subst. exists must, (Cursor sn [] []), z'.
    repeat split; auto.
    pose proof (run_inv _ _ _ _ E) as (z1 & w & Hacc & Ha & _).
    unfold accept in Hacc. destruct (must && _); [discriminate|].
    inversion Hacc; subst z1. apply (advance_doc Ha).
  - destruct (run fl r (Cursor sn (c :: rs) []) (accept must (Cursor sn (c :: rs) [])))
      eqn:E.
    + inversion H; subst. exists must, (Cursor sn (c :: rs) []), z'.
      repeat split; auto.
      pose proof (run_inv _ _ _ _ E) as (z1 & w & Hacc & Ha & _).
      unfold accept in Hacc. destruct (must && _); [discriminate|].
      inversion Hacc; subst z1. apply (advance_doc Ha).
    + apply IH in H. simpl in H. rewrite <- app_assoc in H. exact H.
Qed.

Lemma scan_chained : forall fl r fuel must sn rs,
  chained (rev sn ++ rs) (length sn) (scan fuel fl r must sn rs)
  /\ Forall (match_of r) (scan fuel fl r must sn rs)
  /\ Forall (is_match fl r (rev sn ++ rs)) (scan fuel fl r must sn rs).
Proof.
  intros fl r. induction fuel as [|fuel IH]; intros must sn rs; simpl.
  - repeat split; constructor. rewrite length_app, length_rev. lia.
  - destruct (search_from fl r must sn rs) as [[z z']|] eqn:E.
    + pose proof (search_match _ _ _ _ _ E) as (H1 & H2 & H3 & H4 & H5 & _ & _ & _ & H6).
      pose proof (search_is_match _ _ _ _ _ E) as H7.
      specialize (IH (Nat.eqb (pos z') (pos z)) (seen z') (rest z')).
      rewrite H5 in IH. destruct IH as (IH1 & IH2 & IH3).
      repeat split; constructor; auto.
    + repeat split; constructor. rewrite length_app, length_rev. lia.
Qed.

(** The fuel of [re_finditer] never runs out: its list is the scanner's. *)
Lemma scan_scanned : forall fl r fuel (must : bool) sn rs,
  2 * length rs + (if must then 0 else 1) < fuel ->
  scanned fl r must sn rs (scan fuel fl r must sn rs).
Proof.
  intros fl r. induction fuel as [|fuel IH]; intros must sn rs Hf; [lia|].
  simpl. destruct (search_from fl r must sn rs) as [[z z']|] eqn:E.
  - econstructor; [exact E|]. apply IH.
    pose proof (search_match _ _ _ _ _ E) as (_ & _ & _ & _ & _ & Hle & Heq & Hne & _).
    destruct (Nat.eqb_spec (pos z') (pos z)) as [He|Hn].
    + destruct must; [specialize (Heq He eq_refl)|]; lia.
    + specialize (Hne Hn). lia.
  - constructor. exact E.
Qed.

Lemma re_finditer_scanned : forall fl r s,
  scanned fl r false [] s (re_finditer fl r s).
Proof. intros. apply scan_scanned. lia. Qed.

Lemma re_finditer_chained : forall fl r s,
  chained s 0 (re_finditer fl r s)
  /\ Forall (match_of r) (re_finditer fl r s)
  /\ Forall (is_match fl r s) (re_finditer fl r s).
Proof. intros. apply (scan_chained fl r (2 * length s + 2) false [] s). Qed.

(** ** [parse_sections] *)

Lemma set_last_snoc : forall A (f : A -> A) xs x,
  set_last f (xs ++ [x]) = Ok (xs ++ [f x]).
Proof.
  induction xs as [|a xs IH]; intros x; [reflexivity|].
  simpl. rewrite IH. destruct (xs ++ [x]) eqn:E; [|reflexivity].
  destruct xs; discriminate.
Qed.

Lemma nonempty_snoc : forall A (xs : list A) x, nonempty (xs ++ [x]) = true.
Proof. destruct xs; reflexivity. Qed.

Lemma slice_to_end : forall (doc : text) a, slice doc a (length doc) = slice_from doc a.
Proof.
  intros doc a. unfold slice, slice_from. apply firstn_all2.
  rewrite length_skipn. lia.
Qed.

Lemma header_groups : forall m,
  match_of header_pattern m ->
  exists g1 g2, m_group 1 m = Some g1 /\ m_group 2 m = Some g2.
Proof.
  intros m [_ H]. unfold m_group.
  pose proof (H 1) as H1. pose proof (H 2) as H2.
  unfold is_set in H1, H2. simpl in H1, H2.
  destruct (group 1 (m_caps m)) as [g1|]; [|exfalso; apply H1; auto].
  destruct (group 2 (m_caps m)) as [g2|]; [|exfalso; apply H2; auto].
  eauto.
Qed.

Lemma header_width : forall m, match_of header_pattern m -> m_start m + 3 <= m_end m.
Proof. intros m [H _]. exact H. Qed.

(** The loop and the lines after it, from a state in which the last
    section is still open. *)
Lemma parse_sections_loop : forall doc ms xs m0,
  Forall (match_of header_pattern) ms ->
  (sections <- for_each (parse_sections_body doc) ms
                 (xs ++ [section_upto doc m0 (length doc) []]) ;;
   if nonempty sections then
     set_last (fun s =>
       MkSection (level s) (title s) (header_text s) (start_pos s)
                 (content_start s) (length doc)
                 (slice_from doc (content_start s))) sections
   else Ok sections)
  = Ok (xs ++ sections_of doc (m0 :: ms)).
Proof.
  intros doc. induction ms as [|m ms IH]; intros xs m0 HF.
  - simpl. rewrite nonempty_snoc, set_last_snoc. simpl.
    rewrite slice_to_end. reflexivity.
  - inversion HF as [|? ? Hm HF']; subst.
    destruct (header_groups Hm) as (g1 & g2 & E1 & E2).
    simpl for_each. unfold parse_sections_body at 1, group_or.
    rewrite E1, E2. simpl bind at 2.
    rewrite nonempty_snoc, set_last_snoc. simpl bind.
    specialize (IH (xs ++ [section_upto doc m0 (m_start m)
                             (slice doc (m_end m0) (m_start m))]) m HF').
    unfold section_upto at 2 in IH. rewrite E1, E2 in IH. simpl opt_text in IH.
    simpl in IH |- *.
    etransitivity; [exact IH|]. rewrite <- app_assoc. reflexivity.
Qed.

(** [parse_sections] raises nothing, and its list is [sections_of] of the
    matches of the header pattern. *)
Lemma parse_sections_eq : forall doc,
  parse_sections doc
  = Ok (sections_of doc (re_finditer header_flags header_pattern doc)).
Proof.
  intros doc. unfold parse_sections.
  destruct (re_finditer_chained header_flags header_pattern doc) as (_ & HF & _).
  destruct (re_finditer header_flags header_pattern doc) as [|m ms]; [reflexivity|].
  inversion HF as [|? ? Hm HF']; subst.
  destruct (header_groups Hm) as (g1 & g2 & E1 & E2).
  simpl for_each. unfold parse_sections_body at 1, group_or.
  rewrite E1, E2. simpl bind at 2.
  pose proof (parse_sections_loop doc [] m HF') as H.
  unfold section_upto at 1 in H. rewrite E1, E2 in H. simpl in H |- *.
  exact H.
Qed.

Lemma slice_split : forall (doc : text) p q,
  p <= q -> skipn p doc = slice doc p q ++ skipn q doc.
Proof.
  intros doc p q H. unfold slice.
  replace q with ((q - p) + p) at 2 by lia.
  rewrite <- skipn_skipn. symmetry. apply firstn_skipn.
Qed.

Lemma sections_of_first : forall doc ms,
  first_start doc (sections_of doc ms) = next_start doc ms.
Proof. intros doc [|m ms]; reflexivity. Qed.

Lemma header_starts : forall doc m,
  is_match header_flags header_pattern doc m -> exists t, m_whole m = 61%Z :: t.
Proof.
  intros doc m (must & z & z' & -> & _ & H & _).
  pose proof (run_inv _ _ _ _ H) as (z1 & w & Hacc & Ha & Hw & _).
  unfold accept in Hacc. destruct (must && Nat.eqb (pos z1) (pos z)); [discriminate|].
  inversion Hacc; subst z1. simpl. rewrite (advance_between Ha).
  simpl in H. destruct (at_bol header_flags z); [|discriminate].
  apply rep_greedy_inv in H. destruct H as (w1 & rs' & Hr & Hok & Hlo & _).
  destruct Ha as [Ha _]. rewrite Ha in Hr.
  destruct w as [|c w]; [simpl in Hw; lia|].
  destruct w1 as [|c1 w1]; [simpl in Hlo; lia|].
  simpl in Hr, Hok. inversion Hr; subst c1.
  apply andb_prop in Hok as [Hc _]. apply Z.eqb_eq in Hc. subst c. eauto.
Qed.

(** What a pattern that ends with [$] has matched ends a line. *)
Lemma run_ends_eol : forall fl r z k res,
  ends_eol r = true -> run fl r z k = Some res ->
  exists z', k z' = Some res /\ at_eol fl z' = true.
Proof.
  intros fl r. induction r; intros z k res He H; simpl in He; try discriminate.
  - simpl in H. destruct (at_eol fl z) eqn:E; [|discriminate]. eauto.
  - simpl in H. apply run_inv in H. destruct H as (z1 & _ & H & _). eauto.
Qed.

Lemma at_eol_line_end : forall z, at_eol header_flags z = true -> line_end (rest z).
Proof.
  intros z H. unfold at_eol in H. destruct (rest z) as [|c t]; [exact I|].
  apply andb_prop in H as [H _]. apply Z.eqb_eq in H. exact H.
Qed.

Lemma header_line_end : forall doc m,
  is_match header_flags header_pattern doc m -> line_end (skipn (m_end m) doc).
Proof.
  intros doc m (must & z & z' & -> & _ & H & Hd).
  apply run_ends_eol in H; [|reflexivity]. destruct H as (z1 & Hacc & He).
  unfold accept in Hacc. destruct (must && _); [discriminate|].
  inversion Hacc; subst z1. apply at_eol_line_end in He.
  simpl. unfold pos. rewrite <- Hd, skipn_rev_app. exact He.
Qed.

Lemma header_matches : forall doc,
  Forall (header_match doc) (re_finditer header_flags header_pattern doc).
Proof.
  intros doc.
  destruct (re_finditer_chained header_flags header_pattern doc) as (_ & H1 & H2).
  rewrite Forall_forall in *. intros m Hm. repeat split.
  - apply H1, Hm.
  - apply H1, Hm.
  - apply (header_starts (H2 m Hm)).
  - apply (header_line_end (H2 m Hm)).
Qed.

(** The sections of chained matches tile the text from [p] on. *)
Lemma sections_tile : forall doc p ms,
  chained doc p ms -> Forall (header_match doc) ms ->
  skipn p doc
  = slice doc p (next_start doc ms)
    ++ concat (map (fun s => header_text s ++ content s) (sections_of doc ms))
  /\ p <= next_start doc ms <= length doc
  /\ in_order p (sections_of doc ms)
  /\ Forall (spans_of doc) (sections_of doc ms)
  /\ (ms = [] \/ exists t, skipn (next_start doc ms) doc = 61%Z :: t).
Proof.
  intros doc p ms H. induction H as [p Hp|p m ms H1 H2 H3 H4 Hc IH]; intros HF.
  - simpl. rewrite app_nil_r, slice_to_end. repeat split; auto.
  - inversion HF as [|? ? (Hm & [t Ht] & Hle) HF']; subst.
    destruct (IH HF') as (IHa & IHb & IHc & IHd & IHe).
    pose proof (header_width Hm) as Hw.
    simpl. repeat split; auto; try lia.
    + rewrite <- app_assoc, <- IHa, H4, <- slice_split by lia.
      apply slice_split; lia.
    + destruct ms as [|m' ms]; [exact I|].
      simpl in IHc |- *. repeat split; try apply IHc. lia.
    + constructor; auto. repeat split; simpl; auto; try lia.
      destruct IHe as [->|IHe]; auto.
    + right. rewrite (slice_split doc (p:=m_start m) (q:=m_end m)) by lia.
      rewrite <- H4, Ht. simpl. eauto.
Qed.

(** What [parse_sections] returns, in one statement. *)
Lemma parse_sections_facts : forall doc,
  exists secs,
    parse_sections doc = Ok secs /\ rebuild doc secs = doc
    /\ in_order 0 secs /\ Forall (spans_of doc) secs
    /\ first_start doc secs <= length doc.
Proof.
  intros doc. exists (sections_of doc (re_finditer header_flags header_pattern doc)).
  destruct (re_finditer_chained header_flags header_pattern doc) as (Hc & _ & _).
  destruct (sections_tile Hc (header_matches doc)) as (H1 & H2 & H3 & H4 & _).
  split; [apply parse_sections_eq|].
  unfold rebuild, preamble_of, slice_to. rewrite sections_of_first.
  unfold slice in H1. simpl in H1. rewrite Nat.sub_0_r in H1.
  repeat split; auto; lia.
Qed.

(** C2. For every document, [parse_sections] returns a list of sections
    such that the preamble (the text before the start of the first section,
    the whole text when there is none) followed by the header text and the
    content of each section, in order, is the document itself; the sections
    are in document order, each one starting where the one before it ends,
    and the texts of a section are the spans that its positions delimit. *)
Theorem parse_sections_round_trip : forall doc,
  exists secs,
    parse_sections doc = Ok secs
    /\ preamble_of doc secs
       ++ concat (map (fun s => header_text s ++ content s) secs) = doc
    /\ in_order 0 secs
    /\ Forall (spans_of doc) secs.
Proof.
  intros doc. destruct (parse_sections_facts doc) as (secs & H1 & H2 & H3 & H4 & _).
  exists secs. auto.
Qed.

(** ** Stripping *)

Lemma lstrip_by_split : forall p s,
  exists blanks,
    s = blanks ++ lstrip_by p s /\ forallb p blanks = true
    /\ match lstrip_by p s with
       | [] => True
       | c :: _ => p c = false
       end.
Proof.
  intros p. induction s as [|c s (b & H1 & H2 & H3)]; simpl.
  - exists []. auto.
  - destruct (p c) eqn:E.
    + exists (c :: b). simpl. rewrite E, H2. repeat split; auto. f_equal. exact H1.
    + exists []. simpl. auto.
Qed.

Lemma rstrip_by_split : forall p s,
  exists blanks,
    s = rstrip_by p s ++ blanks /\ forallb p blanks = true
    /\ match rev (rstrip_by p s) with
       | [] => True
       | c :: _ => p c = false
       end.
Proof.
  intros p s. destruct (lstrip_by_split p (rev s)) as (b & H1 & H2 & H3).
  exists (rev b). unfold rstrip_by. rewrite rev_involutive. repeat split; auto.
  - rewrite <- rev_app_distr, <- H1, rev_involutive. reflexivity.
  - rewrite forallb_forall in *. intros x Hx. apply H2. apply in_rev. exact Hx.
Qed.

Lemma lstrip_by_stop : forall p s,
  match s with [] => True | c :: _ => p c = false end -> lstrip_by p s = s.
Proof. intros p [|c s] H; simpl; [reflexivity|]. rewrite H. reflexivity. Qed.

Lemma lstrip_by_app : forall p a b,
  forallb p a = true -> lstrip_by p (a ++ b) = lstrip_by p b.
Proof.
  intros p. induction a as [|c a IH]; intros b H; simpl in *; [reflexivity|].
  apply andb_prop in H as [H1 H2]. rewrite H1. auto.
Qed.

Lemma text_eqb_eq : forall s t, text_eqb s t = true <-> s = t.
Proof.
  induction s as [|x s IH]; intros [|y t]; simpl; split; intros H;
    try reflexivity; try discriminate.
  - apply andb_prop in H as [H1 H2]. apply Z.eqb_eq in H1. apply IH in H2.
    subst. reflexivity.
  - inversion H; subst. rewrite Z.eqb_refl. simpl. apply IH. reflexivity.
Qed.

Lemma find_pronunciation_section_some : forall secs s,
  find_pronunciation_section secs = Some s ->
  In s secs /\ title s = PRONUNCIATION_HEADER.
Proof.
  induction secs as [|x secs IH]; intros s H; simpl in H; [discriminate|].
  destruct (text_eqb (title x) PRONUNCIATION_HEADER) eqn:E.
  - inversion H; subst. apply text_eqb_eq in E. simpl. auto.
  - apply IH in H. simpl. tauto.
Qed.

Lemma find_pronunciation_section_none : forall secs,
  find_pronunciation_section secs = None <->
  (forall s, In s secs -> title s <> PRONUNCIATION_HEADER).
Proof.
  induction secs as [|x secs IH]; simpl; split; intros H.
  - intros s [].
  - reflexivity.
  - destruct (text_eqb (title x) PRONUNCIATION_HEADER) eqn:E; [discriminate|].
    intros s [<-|Hs].
    + intros Ht. apply text_eqb_eq in Ht. congruence.
    + apply IH; auto.
  - destruct (text_eqb (title x) PRONUNCIATION_HEADER) eqn:E.
    + apply text_eqb_eq in E. exfalso. apply (H x); auto.
    + apply IH. intros s Hs. apply H. auto.
Qed.

(** ** The editor *)

Lemma rstrip_nl_trimmed : forall s, trimmed s (rstrip_nl s).
Proof. intros s. apply rstrip_by_split. Qed.

Lemma in_order_bounds : forall secs p s,
  in_order p secs -> In s secs ->
  p <= start_pos s /\ start_pos s < content_start s <= end_pos s.
Proof.
  induction secs as [|x secs IH]; intros p s H Hs; [destruct Hs|].
  simpl in H. destruct H as (H1 & H2 & H3 & H4).
  destruct Hs as [<-|Hs]; [lia|].
  destruct (IH _ _ H4 Hs). lia.
Qed.


(** The document around one of its sections. *)
Lemma section_split : forall doc secs s,
  in_order 0 secs -> Forall (spans_of doc) secs -> In s secs ->
  doc = slice_to doc (start_pos s) ++ header_text s ++ content s
        ++ slice_from doc (end_pos s)
  /\ length (slice_to doc (start_pos s)) = start_pos s
  /\ length (slice_to doc (start_pos s) ++ header_text s) = content_start s
  /\ slice_from doc (content_start s) = content s ++ slice_from doc (end_pos s)
  /\ (slice_from doc (end_pos s) = []
      \/ exists t, slice_from doc (end_pos s) = 61%Z :: t)
  /\ line_end (slice_from doc (content_start s)).
Proof.
  intros doc secs s Ho Hf Hs.
  destruct (@in_order_bounds secs 0 s Ho Hs) as (_ & H1 & H2).
  rewrite Forall_forall in Hf. destruct (Hf s Hs) as (Hh & Hc & He & Hp & Hle).
  unfold slice_to, slice_from.
  assert (Hcs : skipn (content_start s) doc = content s ++ skipn (end_pos s) doc).
  { rewrite Hc. apply slice_split. lia. }
  assert (Hst : skipn (start_pos s) doc = header_text s ++ skipn (content_start s) doc).
  { rewrite Hh. apply slice_split. lia. }
  assert (Hl : length (firstn (start_pos s) doc) = start_pos s).
  { rewrite length_firstn. lia. }
  repeat split; auto.
  - rewrite <- Hcs, <- Hst. symmetry. apply firstn_skipn.
  - rewrite length_app, Hl, Hh. unfold slice.
    rewrite length_firstn, length_skipn. lia.
  - destruct Hp as [Hp|Hp]; auto.
    left. rewrite Hp. apply skipn_all.
Qed.

Lemma firstn_exact : forall (a b : text), firstn (length a) (a ++ b) = a.
Proof.
  intros a b. rewrite firstn_app, Nat.sub_diag, firstn_all. simpl. apply app_nil_r.
Qed.

Lemma skipn_exact : forall (a b : text), skipn (length a) (a ++ b) = b.
Proof.
  intros a b. rewrite skipn_app, Nat.sub_diag, skipn_all. reflexivity.
Qed.

(** The three ways out of the editor when the page has no audio. *)
Lemma add_in_section : forall doc f secs sec,
  page_has_audio doc = false -> parse_sections doc = Ok secs ->
  find_pronunciation_section secs = Some sec ->
  let remaining := slice_from doc (content_start sec) in
  let insert_pos :=
    content_start sec + (length remaining - length (lstrip_nl remaining)) in
  add_pronunciation_to_page doc f
  = Ok (Some (slice_to doc insert_pos ++ build_audio_line f ++ [NL]
              ++ slice_from doc insert_pos)).
Proof.
  intros doc f secs sec H1 H2 H3. unfold add_pronunciation_to_page.
  rewrite H1, H2. cbn [bind]. rewrite H3. reflexivity.
Qed.

Lemma add_no_sections : forall doc f,
  page_has_audio doc = false -> parse_sections doc = Ok [] ->
  add_pronunciation_to_page doc f
  = Ok (Some (rstrip_nl doc ++ [NL] ++ [NL] ++ new_section_lines f ++ [NL])).
Proof.
  intros doc f H1 H2. unfold add_pronunciation_to_page.
  rewrite H1, H2. cbn [bind find_pronunciation_section is_empty nonempty negb].
  unfold new_section_lines, pron_header_line.
  rewrite <- !app_assoc. reflexivity.
Qed.

Lemma add_before_first : forall doc f first secs,
  page_has_audio doc = false -> parse_sections doc = Ok (first :: secs) ->
  find_pronunciation_section (first :: secs) = None ->
  let preamble := rstrip_nl (slice_to doc (start_pos first)) in
  add_pronunciation_to_page doc f
  = Ok (Some ((if is_empty preamble then [] else preamble ++ [NL])
              ++ [NL] ++ new_section_lines f ++ [NL]
              ++ slice_from doc (start_pos first))).
Proof.
  intros doc f first secs H1 H2 H3. unfold add_pronunciation_to_page.
  rewrite H1, H2. cbn [bind]. rewrite H3.
  cbn [is_empty nonempty negb first_item bind].
  unfold new_section_lines, pron_header_line, nonempty.
  destruct (is_empty (rstrip_nl (slice_to doc (start_pos first))));
    cbn [negb]; rewrite <- ?app_assoc; reflexivity.
Qed.

(** C1. For every document in which [page_has_audio] is true and every
    filename, [add_pronunciation_to_page] returns the no-change result
    [None], raising nothing; no section is looked at. *)
Theorem audio_present_no_change : forall doc f,
  page_has_audio doc = true -> add_pronunciation_to_page doc f = Ok None.
Proof.
  intros doc f H. unfold add_pronunciation_to_page. rewrite H. reflexivity.
Qed.

Lemma audio_present_no_change_witness :
  page_has_audio (str "==A==" ++ [NL] ++ str "{{Audio|x.wav}}") = true
  /\ add_pronunciation_to_page (str "==A==" ++ [NL] ++ str "{{Audio|x.wav}}")
                               (str "y.wav") = Ok None.
Proof.
  split; [reflexivity|].
  apply (audio_present_no_change (str "==A==" ++ [NL] ++ str "{{Audio|x.wav}}")
                                 (str "y.wav")).
  reflexivity.
Defined.

(** Where the editor puts the audio line under a Pronunciation header
    that is there.  For every document without an audio construct that has
    a section titled [PRONUNCIATION_HEADER], and every filename: the editor
    takes the first such section [sec]; the document is [pre], the header
    text of [sec], its content [blanks ++ body] and [post], where [blanks]
    are the line feeds that follow the header and [body] does not begin
    with one; the result is the same text with the audio line and one line
    feed put between [blanks] and [body], and nothing else changed.  There
    is no line feed to skip only when the header is the very end of the
    text; the audio line then stands right behind the header text, on the
    line of the header when that text ends with no line feed. *)
Theorem add_to_existing_section : forall doc f secs s,
  page_has_audio doc = false ->
  parse_sections doc = Ok secs ->
  In s secs -> title s = PRONUNCIATION_HEADER ->
  exists sec pre blanks body post,
    find_pronunciation_section secs = Some sec
    /\ In sec secs /\ title sec = PRONUNCIATION_HEADER
    /\ length pre = start_pos sec
    /\ content sec = blanks ++ body
    /\ forallb is_nl blanks = true /\ starts_blank body = false
    /\ (blanks = [] -> body = [] /\ post = [])
    /\ doc = pre ++ header_text sec ++ blanks ++ body ++ post
    /\ add_pronunciation_to_page doc f
       = Ok (Some (pre ++ header_text sec ++ blanks
                   ++ build_audio_line f ++ [NL] ++ body ++ post)).
Proof.
  intros doc f secs s Hno Hp Hs Ht.
  destruct (parse_sections_facts doc) as (secs' & Hp' & _ & Ho & Hf & _).
  rewrite Hp in Hp'. inversion Hp'; subst secs'; clear Hp'.
  destruct (find_pronunciation_section secs) as [sec|] eqn:Ef.
  2:{ exfalso. rewrite find_pronunciation_section_none in Ef. exact (Ef s Hs Ht). }
  destruct (find_pronunciation_section_some _ Ef) as [Hin Htitle].
  destruct (@section_split doc secs sec Ho Hf Hin)
    as (Hdoc & Hl1 & Hl2 & Hrem & Hpost & Hle).
  destruct (lstrip_by_split is_nl (content sec)) as (blanks & Hc & Hb & Hbody).
  set (body := lstrip_by is_nl (content sec)) in *.
  set (pre := slice_to doc (start_pos sec)) in *.
  set (post := slice_from doc (end_pos sec)) in *.
  assert (Hstrip : lstrip_nl (slice_from doc (content_start sec)) = body ++ post).
  { rewrite Hrem, Hc, <- app_assoc. unfold lstrip_nl.
    rewrite lstrip_by_app by exact Hb.
    destruct body as [|c body'].
    - simpl. apply lstrip_by_stop.
      destruct Hpost as [->|[t ->]]; [exact I|reflexivity].
    - apply lstrip_by_stop. exact Hbody. }
  exists sec, pre, blanks, body, post.
  assert (Hsb : starts_blank body = false)
    by (destruct body; [reflexivity|exact Hbody]).
  split; [reflexivity|]. split; [exact Hin|]. split; [exact Htitle|].
  split; [exact Hl1|]. split; [exact Hc|]. split; [exact Hb|].
  split; [exact Hsb|]. split; [|split].
  - intros ->. rewrite Hrem, Hc in Hle. simpl in Hle.
    destruct body as [|c body'].
    + split; [reflexivity|]. simpl in Hle.
      destruct Hpost as [Hq|[t Hq]]; [exact Hq|].
      rewrite Hq in Hle. simpl in Hle. discriminate.
    + simpl in Hle, Hsb. subst c. discriminate.
  - rewrite Hdoc at 1. rewrite Hc, <- app_assoc. reflexivity.
  - assert (Hd : doc = (pre ++ header_text sec ++ blanks) ++ body ++ post).
    { rewrite Hdoc at 1. rewrite Hc, <- !app_assoc. reflexivity. }
    assert (Hip : content_start sec
                  + (length (slice_from doc (content_start sec))
                     - length (lstrip_nl (slice_from doc (content_start sec))))
                  = length (pre ++ header_text sec ++ blanks)).
    { rewrite Hstrip, Hrem, Hc, <- Hl2, !length_app. lia. }
    rewrite (add_in_section doc f Hno Hp Ef). cbv zeta. rewrite Hip.
    unfold slice_to, slice_from.
    rewrite Hd at 1 2. rewrite firstn_exact, skipn_exact.
    rewrite <- !app_assoc. reflexivity.
Qed.

Lemma add_to_existing_section_witness :
  let doc := pron_header_line ++ [NL; NL] ++ str "==A==" ++ [NL] ++ str "x" in
  page_has_audio doc = false
  /\ exists secs,
       parse_sections doc = Ok secs
       /\ exists sec pre blanks body post,
            find_pronunciation_section secs = Some sec
            /\ In sec secs /\ title sec = PRONUNCIATION_HEADER
            /\ length pre = start_pos sec
            /\ content sec = blanks ++ body
            /\ forallb is_nl blanks = true /\ starts_blank body = false
            /\ (blanks = [] -> body = [] /\ post = [])
            /\ doc = pre ++ header_text sec ++ blanks ++ body ++ post
            /\ add_pronunciation_to_page doc (str "f.wav")
               = Ok (Some (pre ++ header_text sec ++ blanks
                           ++ build_audio_line (str "f.wav") ++ [NL]
                           ++ body ++ post)).
Proof.
  intros doc. split; [vm_compute; reflexivity|].
  eexists. split; [vm_compute; reflexivity|].
  eapply (add_to_existing_section doc (str "f.wav")).
  - vm_compute; reflexivity.
  - vm_compute; reflexivity.
  - left; reflexivity.
  - vm_compute; reflexivity.
Defined.

(** C3. The claim does not hold of the code on a page that ends with the
    Pronunciation header and no line feed.  On the page made of a line
    [word] and the header line [==ഉച്ചാരണം==], which has no audio and
    whose only section is titled [PRONUNCIATION_HEADER], the editor finds
    no line feed behind the header and writes the audio line onto the line
    of the header.  The page it returns is the old text, the audio line and
    a line feed; the line of the header is no header any more, so that the
    new page has no section at all: the audio line is no line of its own
    and not the first content of a Pronunciation section, which is
    gone. *)
Theorem header_at_end_takes_audio_line :
  let doc := str "word" ++ [NL] ++ pron_header_line in
  let f := str "f.wav" in
  let new := doc ++ build_audio_line f ++ [NL] in
  page_has_audio doc = false
  /\ (exists sec,
        parse_sections doc = Ok [sec]
        /\ title sec = PRONUNCIATION_HEADER
        /\ header_text sec = pron_header_line
        /\ content sec = [])
  /\ add_pronunciation_to_page doc f = Ok (Some new)
  /\ parse_sections new = Ok [].
Proof.
  intros doc f new. split; [vm_compute; reflexivity|]. split.
  - eexists. split; [vm_compute; reflexivity|].
    split; [vm_compute; reflexivity|]. split; vm_compute; reflexivity.
  - split; vm_compute; reflexivity.
Qed.

(** C8. For every document without an audio construct in which
    [parse_sections] finds no section, and every filename, the result is the
    document without its trailing line feeds, then one line feed and one
    empty line, then the header line and the audio line, then one empty
    line. *)
Theorem append_when_no_sections : forall doc f,
  page_has_audio doc = false -> parse_sections doc = Ok [] ->
  trimmed doc (rstrip_nl doc)
  /\ add_pronunciation_to_page doc f
     = Ok (Some (rstrip_nl doc ++ [NL] ++ [NL]
                 ++ pron_header_line ++ [NL] ++ build_audio_line f ++ [NL]
                 ++ [NL])).
Proof.
  intros doc f H1 H2. split; [apply rstrip_nl_trimmed|].
  rewrite (add_no_sections doc f H1 H2). unfold new_section_lines.
  rewrite <- !app_assoc. reflexivity.
Qed.

Lemma append_when_no_sections_witness :
  let doc := str "Just some content" ++ [NL; NL] in
  let f := str "f.wav" in
  trimmed doc (rstrip_nl doc)
  /\ add_pronunciation_to_page doc f
     = Ok (Some (rstrip_nl doc ++ [NL] ++ [NL]
                 ++ pron_header_line ++ [NL] ++ build_audio_line f ++ [NL]
                 ++ [NL])).
Proof.
  intros doc f. apply (append_when_no_sections doc f); vm_compute; reflexivity.
Defined.

(** C9, as the code has it.  For every document without an audio construct
    that has sections, none of them titled [PRONUNCIATION_HEADER], and every
    filename, the result is: the preamble without its trailing line feeds
    followed by one line feed, when that trimmed preamble is not empty, and
    nothing when it is empty; then one empty line, the header line and the
    audio line; then one more line feed; then the text from the first
    header on, unchanged. *)
Theorem insert_before_first_section : forall doc f secs,
  page_has_audio doc = false -> parse_sections doc = Ok secs ->
  secs <> [] -> (forall s, In s secs -> title s <> PRONUNCIATION_HEADER) ->
  let pre := rstrip_nl (preamble_of doc secs) in
  trimmed (preamble_of doc secs) pre
  /\ add_pronunciation_to_page doc f
     = Ok (Some ((if is_empty pre then [] else pre ++ [NL])
                 ++ [NL] ++ pron_header_line ++ [NL] ++ build_audio_line f
                 ++ [NL] ++ [NL] ++ slice_from doc (first_start doc secs))).
Proof.
  intros doc f secs H1 H2 H3 H4 pre. split; [apply rstrip_nl_trimmed|].
  destruct secs as [|first secs]; [congruence|].
  apply find_pronunciation_section_none in H4.
  rewrite (add_before_first doc f H1 H2 H4). cbv zeta. unfold new_section_lines.
  subst pre. unfold preamble_of. simpl first_start.
  rewrite <- !app_assoc. reflexivity.
Qed.

Lemma insert_before_first_section_witness :
  let doc := str "intro" ++ [NL; NL] ++ str "==A==" ++ [NL] ++ str "x" in
  exists secs,
    parse_sections doc = Ok secs
    /\ let pre := rstrip_nl (preamble_of doc secs) in
       trimmed (preamble_of doc secs) pre
       /\ add_pronunciation_to_page doc (str "f.wav")
          = Ok (Some ((if is_empty pre then [] else pre ++ [NL])
                      ++ [NL] ++ pron_header_line ++ [NL]
                      ++ build_audio_line (str "f.wav")
                      ++ [NL] ++ [NL] ++ slice_from doc (first_start doc secs))).
Proof.
  intros doc. eexists. split; [vm_compute; reflexivity|].
  apply (insert_before_first_section doc (str "f.wav")).
  - vm_compute; reflexivity.
  - vm_compute; reflexivity.
  - discriminate.
  - intros s [<-|[]]. vm_compute. discriminate.
Defined.

(** C9 as the specification words it does not hold: whatever text is taken
    for "the new section", the layout "trimmed preamble, one line feed, the
    new section, one line feed, the rest" cannot be the result both for a
    page that begins with a header and for a page with a preamble.  (With
    the header line and the audio line as the new section it fails on the
    second page, with the empty line before them counted in it fails on the
    first.) *)
Lemma claimed_layout_fails :
  let f := str "f.wav" in
  let doc1 := str "==A==" in
  let doc2 := str "intro" ++ [NL] ++ str "==A==" in
  page_has_audio doc1 = false /\ page_has_audio doc2 = false
  /\ (exists s1, parse_sections doc1 = Ok [s1]
                 /\ find_pronunciation_section [s1] = None)
  /\ (exists s2, parse_sections doc2 = Ok [s2]
                 /\ find_pronunciation_section [s2] = None)
  /\ ~ exists section,
        add_pronunciation_to_page doc1 f = claimed_output section doc1
        /\ add_pronunciation_to_page doc2 f = claimed_output section doc2.
Proof.
  intros f doc1 doc2. split; [reflexivity|]. split; [reflexivity|].
  split; [eexists; split; vm_compute; reflexivity|].
  split; [eexists; split; vm_compute; reflexivity|].
  intros (section & E1 & E2).
  assert (A1 : add_pronunciation_to_page doc1 f
               = Ok (Some ([NL] ++ new_section_lines f ++ [NL] ++ str "==A==")))
    by (vm_compute; reflexivity).
  assert (A2 : add_pronunciation_to_page doc2 f
               = Ok (Some (str "intro" ++ [NL] ++ [NL] ++ new_section_lines f
                           ++ [NL] ++ str "==A==")))
    by (vm_compute; reflexivity).
  assert (P1 : claimed_output section doc1
               = Ok (Some ([NL] ++ section ++ [NL] ++ str "==A==")))
    by reflexivity.
  assert (P2 : claimed_output section doc2
               = Ok (Some (str "intro" ++ [NL] ++ section ++ [NL] ++ str "==A==")))
    by reflexivity.
  rewrite A1, P1 in E1. rewrite A2, P2 in E2.
  inversion E1 as [L1]. inversion E2 as [L2].
  apply (f_equal (@length char)) in L1, L2.
  rewrite !length_app in L1, L2. simpl in L1, L2. lia.
Qed.






(** ** The audio pattern *)

Ltac zcases :=
  repeat (match goal with
          | H : context [Z.eqb ?a ?b] |- _ => destruct (Z.eqb_spec a b)
          | H : context [Z.leb ?a ?b] |- _ => destruct (Z.leb_spec a b)
          | |- context [Z.eqb ?a ?b] => destruct (Z.eqb_spec a b)
          | |- context [Z.leb ?a ?b] => destruct (Z.leb_spec a b)
          end; simpl in *; try lia; try discriminate).

Lemma cursor_eta : forall z, Cursor (seen z) (rest z) (caps z) = z.
Proof. destruct z; reflexivity. Qed.

Lemma run_lits_inv : forall fl t z k res,
  run fl (lits t) z k = Some res ->
  exists u rs,
    rest z = u ++ rs
    /\ Forall2 (fun x c => atom_ok fl (Lit x) c = true) t u
    /\ k (Cursor (rev u ++ seen z) rs (caps z)) = Some res.
Proof.
  intros fl. induction t as [|x t IH]; intros z k res H; cbn [run lits] in H.
  - exists [], (rest z). simpl. rewrite cursor_eta. auto.
  - destruct (rest z) as [|c rs0] eqn:Er; [discriminate|].
    destruct (atom_ok fl (Lit x) c) eqn:Ec; [|discriminate].
    apply IH in H. cbn [seen rest caps] in H. destruct H as (u & rs & Hr & Hu & Hk).
    exists (c :: u), rs. split; [simpl; f_equal; exact Hr|].
    split; [constructor; auto|].
    simpl. rewrite <- app_assoc. exact Hk.
Qed.

Lemma run_lits_intro : forall fl t u z rs k,
  Forall2 (fun x c => atom_ok fl (Lit x) c = true) t u ->
  rest z = u ++ rs ->
  run fl (lits t) z k = k (Cursor (rev u ++ seen z) rs (caps z)).
Proof.
  intros fl t u z rs k H. revert z. induction H as [|x c t u Hc _ IH]; intros z Hr.
  - simpl in *. rewrite <- Hr, cursor_eta. reflexivity.
  - cbn [run lits]. rewrite Hr. cbn [app]. rewrite Hc.
    rewrite (IH (Cursor (c :: seen z) (u ++ rs) (caps z)) eq_refl). simpl.
    rewrite <- app_assoc. reflexivity.
Qed.

Lemma run_rep_inv : forall fl a lo hi g z k res,
  run fl (Rep a lo hi g) z k = Some res ->
  exists w rs,
    rest z = w ++ rs /\ forallb (atom_ok fl a) w = true /\ lo <= length w
    /\ k (Cursor (rev w ++ seen z) rs (caps z)) = Some res.
Proof.
  intros fl a lo hi g z k res H. simpl in H. destruct g.
  - apply rep_greedy_inv in H. destruct H as (w & rs & ? & ? & ? & ?). eauto 6.
  - apply rep_lazy_inv in H. destruct H as (w & rs & ? & ? & ? & ?). eauto 6.
Qed.

Lemma run_greedy_stops : forall fl a lo z w rs k res,
  rest z = w ++ rs -> forallb (atom_ok fl a) w = true -> lo <= length w ->
  stops (atom_ok fl a) rs ->
  k (Cursor (rev w ++ seen z) rs (caps z)) = Some res ->
  run fl (Rep a lo None true) z k = Some res.
Proof.
  intros fl a lo z w rs k res Hr Hw Hlo Hs Hk. simpl. rewrite Hr.
  apply rep_greedy_stops; auto.
Qed.

Lemma ignorecase_same_letter : forall x c,
  In x (str "audio") -> (ignorecase_eq x c = true <-> same_letter x c).
Proof.
  intros x c Hx. simpl in Hx.
  unfold same_letter, simple_upper, simple_lower, ignorecase_eq, ascii_lower, in_range.
  destruct Hx as [<-|[<-|[<-|[<-|[<-|[]]]]]]; simpl; split; intros H.
  all: zcases; auto; try (destruct H; zcases; fail).
Qed.

Lemma ignorecase_brace : forall c, ignorecase_eq 123%Z c = true <-> c = 123%Z.
Proof.
  intros c. unfold ignorecase_eq, ascii_lower, in_range. simpl.
  split; intros H; zcases; auto.
Qed.

Lemma ignorecase_bar : forall c, ignorecase_eq 124%Z c = true <-> c = 124%Z.
Proof.
  intros c. unfold ignorecase_eq, ascii_lower, in_range. simpl.
  split; intros H; zcases; auto.
Qed.

Lemma letter_not_space : forall x c,
  In x (str "audio") -> ignorecase_eq x c = true -> unicode_isspace c = false.
Proof.
  intros x c Hx. simpl in Hx.
  unfold unicode_isspace, ignorecase_eq, ascii_lower, in_range.
  destruct Hx as [<-|[<-|[<-|[<-|[<-|[]]]]]]; simpl; intros H.
  all: zcases; auto.
Qed.

Lemma Forall2_impl_in : forall (P Q : char -> char -> Prop) l l',
  Forall2 P l l' -> (forall x y, In x l -> P x y -> Q x y) -> Forall2 Q l l'.
Proof.
  intros P Q l l' H. induction H as [|x y l l' Hxy _ IH]; intros HPQ.
  - constructor.
  - constructor; [apply HPQ; simpl; auto|]. apply IH.
    intros a b Ha. apply HPQ. simpl; auto.
Qed.

Lemma lits_braces : forall u,
  Forall2 (fun x c => atom_ok audio_flags (Lit x) c = true) (str "{{") u
  <-> u = str "{{".
Proof.
  intros u. change (str "{{") with [123%Z; 123%Z]. split; intros H.
  - inversion H as [|? c1 ? u1 H1 H']; subst. inversion H' as [|? c2 ? u2 H2 H'']; subst.
    inversion H''; subst. simpl in H1, H2.
    apply ignorecase_brace in H1, H2. subst. reflexivity.
  - subst. repeat constructor.
Qed.

Lemma lits_bar : forall u,
  Forall2 (fun x c => atom_ok audio_flags (Lit x) c = true) (str "|") u
  <-> u = str "|".
Proof.
  intros u. change (str "|") with [124%Z]. split; intros H.
  - inversion H as [|? c1 ? u1 H1 H']; subst. inversion H'; subst.
    simpl in H1. apply ignorecase_bar in H1. subst. reflexivity.
  - subst. repeat constructor.
Qed.

Lemma lits_audio : forall a,
  Forall2 (fun x c => atom_ok audio_flags (Lit x) c = true) (str "audio") a
  <-> any_casing (str "audio") a.
Proof.
  intros a. unfold any_casing. split; intros H.
  - eapply Forall2_impl_in; [exact H|]. intros x y Hx Hxy. simpl in Hxy.
    apply ignorecase_same_letter; auto.
  - eapply Forall2_impl_in; [exact H|]. intros x y Hx Hxy. simpl.
    apply ignorecase_same_letter; auto.
Qed.

Lemma audio_stops : forall a rs,
  any_casing (str "audio") a -> stops unicode_isspace (a ++ rs).
Proof.
  intros a rs H. apply lits_audio in H.
  change (str "audio") with [97%Z; 117%Z; 100%Z; 105%Z; 111%Z] in H.
  inversion H as [|? c ? ? Hc _]; subst. simpl in Hc |- *.
  apply (@letter_not_space 97%Z c); [simpl; auto|exact Hc].
Qed.

(** A success of the audio pattern reads an audio construct. *)
Lemma audio_run_inv : forall z k res,
  run audio_flags audio_pattern z k = Some res ->
  exists w1 a w2 rs,
    rest z = str "{{" ++ w1 ++ a ++ w2 ++ str "|" ++ rs
    /\ forallb unicode_isspace w1 = true
    /\ forallb unicode_isspace w2 = true
    /\ any_casing (str "audio") a.
Proof.
  intros z k res H. unfold audio_pattern, ws_star in H. cbn [run] in H.
  apply run_lits_inv in H. destruct H as (u1 & r1 & E1 & F1 & H).
  apply lits_braces in F1. subst u1.
  apply rep_greedy_inv in H. cbn [seen rest caps] in H.
  destruct H as (w1 & r2 & E2 & Hw1 & _ & H).
  apply run_lits_inv in H. cbn [seen rest caps] in H.
  destruct H as (a & r3 & E3 & F3 & H). apply lits_audio in F3.
  apply rep_greedy_inv in H. cbn [seen rest caps] in H.
  destruct H as (w2 & r4 & E4 & Hw2 & _ & H).
  apply run_lits_inv in H. cbn [seen rest caps] in H.
  destruct H as (u5 & r5 & E5 & F5 & _). apply lits_bar in F5. subst u5.
  exists w1, a, w2, r5. subst. auto.
Qed.

(** The audio pattern matches wherever an audio construct begins. *)
Lemma audio_run_intro : forall z w1 a w2 rs,
  rest z = str "{{" ++ w1 ++ a ++ w2 ++ str "|" ++ rs ->
  forallb unicode_isspace w1 = true -> forallb unicode_isspace w2 = true ->
  any_casing (str "audio") a ->
  exists z', run audio_flags audio_pattern z Some = Some z'.
Proof.
  intros z w1 a w2 rs Hr Hw1 Hw2 Ha. eexists.
  unfold audio_pattern, ws_star. cbn [run].
  rewrite (@run_lits_intro audio_flags _ (str "{{") _ (w1 ++ a ++ w2 ++ str "|" ++ rs));
    [|apply lits_braces; reflexivity|exact Hr].
  cbn [seen rest caps].
  apply rep_greedy_stops;
    [exact Hw1|simpl; lia|apply audio_stops; exact Ha|].
  rewrite (@run_lits_intro audio_flags _ a _ (w2 ++ str "|" ++ rs));
    [|apply lits_audio; exact Ha|reflexivity].
  cbn [seen rest caps].
  apply rep_greedy_stops; [exact Hw2|simpl; lia|reflexivity|].
  rewrite (@run_lits_intro audio_flags _ (str "|") _ rs);
    [|apply lits_bar; reflexivity|reflexivity].
  reflexivity.
Qed.

(** A search finds a match that begins further on, or an earlier one. *)
Lemma search_complete : forall fl r x,
  (forall sn, exists z', run fl r (Cursor sn x []) Some = Some z') ->
  forall pre sn, search_from fl r false sn (pre ++ x) <> None.
Proof.
  intros fl r x Hx. induction pre as [|c pre IH]; intros sn.
  - destruct (Hx sn) as (z' & Hz). simpl app.
    destruct x; simpl;
      change (accept false ?z) with (@Some cursor); rewrite Hz; discriminate.
  - simpl.
    destruct (run fl r (Cursor sn (c :: pre ++ x) [])
                  (accept false (Cursor sn (c :: pre ++ x) []))); [discriminate|].
    apply IH.
Qed.

Lemma search_run : forall fl r rs must sn z z',
  search_from fl r must sn rs = Some (z, z') ->
  exists must' skipped,
    rs = skipped ++ rest z /\ run fl r z (accept must' z) = Some z'.
Proof.
  intros fl r. induction rs as [|c rs IH]; intros must sn z z' H; simpl in H.
  - destruct (run fl r (Cursor sn [] []) (accept must (Cursor sn [] []))) eqn:E;
      [|discriminate].
    inversion H; subst. exists must, []. auto.
  - destruct (run fl r (Cursor sn (c :: rs) []) (accept must (Cursor sn (c :: rs) [])))
      eqn:E.
    + inversion H; subst. exists must, []. auto.
    + apply IH in H. destruct H as (must' & sk & Hr & Hrun).
      exists must', (c :: sk). simpl. rewrite <- Hr. auto.
Qed.

(** [page_has_audio] is true exactly on the texts that hold an audio
    construct. *)
Lemma page_has_audio_iff : forall doc,
  page_has_audio doc = true <-> audio_construct doc.
Proof.
  intros doc. unfold page_has_audio, re_search. split.
  - destruct (search_from audio_flags audio_pattern false [] doc) as [[z z']|] eqn:E;
      [intros _|discriminate].
    apply search_run in E. destruct E as (must & sk & Hd & Hrun).
    apply audio_run_inv in Hrun.
    destruct Hrun as (w1 & a & w2 & rs & Hr & Hw1 & Hw2 & Ha).
    exists sk, w1, a, w2, rs. rewrite Hd, Hr. auto.
  - intros (pre & w1 & a & w2 & suf & -> & Hw1 & Hw2 & Ha).
    pose proof (@search_complete audio_flags audio_pattern
                  (str "{{" ++ w1 ++ a ++ w2 ++ str "|" ++ suf)) as H.
    destruct (search_from audio_flags audio_pattern false []
                (pre ++ str "{{" ++ w1 ++ a ++ w2 ++ str "|" ++ suf)) eqn:E;
      [reflexivity|].
    exfalso. refine (H _ pre [] E).
    intros sn. eapply audio_run_intro; [reflexivity|exact Hw1|exact Hw2|exact Ha].
Qed.

Lemma audio_any_casing : any_casing (str "audio") (str "audio").
Proof.
  unfold any_casing. change (str "audio") with [97%Z; 117%Z; 100%Z; 105%Z; 111%Z].
  repeat (constructor; [left; reflexivity|]). constructor.
Qed.

(** C10. [page_has_audio] is true exactly when the text holds, somewhere,
    two opening braces, optional whitespace, the word audio in any casing,
    optional whitespace and a vertical bar; neither closing braces nor a
    filename are asked for, so the bare fragment of an unterminated audio
    template counts as audio and the editor leaves such a page alone. *)
Theorem page_has_audio_spec :
  (forall doc, page_has_audio doc = true <-> audio_construct doc)
  /\ audio_construct (str "{{audio|")
  /\ forall f, add_pronunciation_to_page (str "{{audio|") f = Ok None.
Proof.
  split; [exact page_has_audio_iff|]. split.
  - exists [], [], (str "audio"), [], []. repeat split.
    exact audio_any_casing.
  - intros f. reflexivity.
Qed.

Lemma build_audio_line_construct : forall a f b,
  audio_construct (a ++ build_audio_line f ++ b).
Proof.
  intros a f b.
  exists (a ++ str "* " ++ AUDIO_LABEL ++ str ": "), [], (str "audio"), [],
         (f ++ str "}}" ++ b).
  repeat split.
  - unfold build_audio_line. rewrite <- !app_assoc. reflexivity.
  - exact audio_any_casing.
Qed.

Lemma ok_some_inj : forall (a b : text), Ok (Some a) = Ok (Some b) -> a = b.
Proof. intros a b H. congruence. Qed.

(** Whatever the editor writes holds the audio line. *)
Lemma add_output_has_line : forall doc f new,
  add_pronunciation_to_page doc f = Ok (Some new) ->
  exists a b, new = a ++ build_audio_line f ++ b.
Proof.
  intros doc f new H. unfold add_pronunciation_to_page in H.
  destruct (page_has_audio doc); [discriminate|].
  rewrite parse_sections_eq in H. cbn [bind] in H.
  destruct (find_pronunciation_section _) as [sec|].
  - apply ok_some_inj in H. rewrite <- H. eexists. eexists. reflexivity.
  - destruct (sections_of doc _) as [|first secs];
      cbn [is_empty nonempty negb first_item bind] in H.
    + apply ok_some_inj in H. rewrite <- H.
      exists (rstrip_nl doc ++ [NL] ++ [NL] ++ str "==" ++ PRONUNCIATION_HEADER
              ++ str "==" ++ [NL]), ([NL] ++ [NL]).
      rewrite <- !app_assoc. reflexivity.
    + destruct (nonempty _); apply ok_some_inj in H; rewrite <- H.
      * exists (rstrip_nl (slice_to doc (start_pos first)) ++ [NL] ++ [NL]
                ++ str "==" ++ PRONUNCIATION_HEADER ++ str "==" ++ [NL]),
               ([NL] ++ [NL] ++ slice_from doc (start_pos first)).
        rewrite <- !app_assoc. reflexivity.
      * exists ([NL] ++ str "==" ++ PRONUNCIATION_HEADER ++ str "==" ++ [NL]),
               ([NL] ++ [NL] ++ slice_from doc (start_pos first)).
        rewrite <- !app_assoc. reflexivity.
Qed.

(** C6. The editor is idempotent: when it returns a new text for a
    document and a filename, that text holds an audio construct (the audio
    line it wrote), so the editor returns the no-change result for the new
    text and any filename. *)
Theorem add_twice_no_change : forall doc f f' new,
  add_pronunciation_to_page doc f = Ok (Some new) ->
  page_has_audio new = true
  /\ add_pronunciation_to_page new f' = Ok None.
Proof.
  intros doc f f' new H.
  destruct (add_output_has_line _ _ H) as (a & b & ->).
  assert (Ha : page_has_audio (a ++ build_audio_line f ++ b) = true).
  { apply page_has_audio_iff. apply build_audio_line_construct. }
  split; [exact Ha|].
  unfold add_pronunciation_to_page. rewrite Ha. reflexivity.
Qed.

Lemma add_twice_no_change_witness :
  let doc := str "==A==" ++ [NL] ++ str "Definition" in
  exists new,
    add_pronunciation_to_page doc (str "f.wav") = Ok (Some new)
    /\ page_has_audio new = true
    /\ add_pronunciation_to_page new (str "g.ogg") = Ok None.
Proof.
  intros doc. eexists. split; [vm_compute; reflexivity|].
  eapply (add_twice_no_change doc (str "f.wav") (str "g.ogg")).
  vm_compute; reflexivity.
Defined.

(** ** The filename pattern *)

Lemma between_cursor : forall sn rs c w rs' c',
  between (Cursor sn rs c) (Cursor (rev w ++ sn) rs' c') = w.
Proof.
  intros. unfold between, pos. cbn [seen].
  rewrite length_app, length_rev.
  replace (length w + length sn - length sn) with (length w) by lia.
  rewrite firstn_rev_app. apply rev_involutive.
Qed.

(** The dot, the extension and the end of the name. *)
Lemma ext_run : forall ext sn cs,
  In ext LL_EXTENSIONS ->
  run no_flags (lits (str ".") >> Grp 3 extension_alt >> Eol)
      (Cursor sn (str "." ++ ext) cs) Some
  = Some (Cursor (rev ext ++ 46%Z :: sn) [] ((3, ext) :: cs)).
Proof.
  intros ext sn cs H.
  assert (Hb : forall w, between (Cursor (46%Z :: sn) w cs)
                                 (Cursor (rev w ++ 46%Z :: sn) [] cs) = w)
    by (intros; apply between_cursor).
  destruct H as [<-|[<-|[<-|[<-|[]]]]].
  - specialize (Hb (str "wav")). simpl. do 4 f_equal. exact Hb.
  - specialize (Hb (str "ogg")). simpl. do 4 f_equal. exact Hb.
  - specialize (Hb (str "mp3")). simpl. do 4 f_equal. exact Hb.
  - specialize (Hb (str "flac")). simpl. do 4 f_equal. exact Hb.
Qed.

Lemma dot_fail : forall r z k,
  match rest z with [] => True | c :: _ => c <> 46%Z end ->
  run no_flags (lits (str ".") >> r) z k = None.
Proof.
  intros r z k H. change (str ".") with [46%Z]. cbn [lits run].
  destruct (rest z) as [|c t]; [reflexivity|].
  cbn [atom_ok IGNORECASE no_flags].
  destruct (Z.eqb_spec c 46); [contradiction|reflexivity].
Qed.

Lemma ext_suffix : forall ext u v,
  In ext LL_EXTENSIONS -> str "." ++ ext = u ++ v -> u <> [] ->
  match v with [] => True | c :: _ => c <> 46%Z end.
Proof.
  intros ext u v H E Hu.
  assert (Hf : Forall (fun c => c <> 46%Z) ext).
  { destruct H as [<-|[<-|[<-|[<-|[]]]]]; repeat constructor; discriminate. }
  destruct u as [|c u]; [congruence|].
  simpl in E. inversion E as [[Hc He]]. rewrite He in Hf.
  apply Forall_app in Hf as [_ Hv].
  destruct v; [exact I|]. inversion Hv; auto.
Qed.

(** The part of the pattern behind the prefix, on a speaker [c :: S] whose
    characters after the first are no hyphens. *)
Lemma tail_run : forall c S W ext sp,
  dot c = true -> forallb speaker_char S = true ->
  W <> [] -> forallb dot W = true -> In ext LL_EXTENSIONS ->
  exists zf,
    run no_flags
        (Grp 1 (Rep (Cls dot) 1 None false) >> lits (str "-")
         >> Grp 2 (Rep (Cls dot) 1 None true) >> lits (str ".")
         >> Grp 3 extension_alt >> Eol)
        (Cursor sp ((c :: S) ++ str "-" ++ W ++ str "." ++ ext) []) Some
    = Some zf
    /\ group 1 (caps zf) = Some (c :: S) /\ group 2 (caps zf) = Some W
    /\ group 3 (caps zf) = Some ext.
Proof.
  intros c S W ext sp Hc HSok HW HWok Hext.
  assert (HSdot : forallb dot (c :: S) = true).
  { simpl. rewrite Hc. simpl. rewrite forallb_forall in *. intros x Hx.
    specialize (HSok x Hx). unfold speaker_char in HSok.
    apply andb_prop in HSok. tauto. }
  eexists. split.
  - cbn [run seen rest caps].
    apply rep_lazy_first.
    + exact HSdot.
    + simpl; lia.
    + cbn beta. rewrite between_cursor.
      change (str "-") with [45%Z].
      cbn [lits run rest app atom_ok IGNORECASE no_flags].
      rewrite Z.eqb_refl. cbn [seen rest caps].
      apply rep_greedy_first.
      * exact HWok.
      * destruct W; [congruence|simpl; lia].
      * cbn beta. rewrite between_cursor.
        apply ext_run. exact Hext.
      * intros u v E Hu Hok. apply dot_fail. cbn [rest].
        exact (@ext_suffix ext u v Hext E Hu).
    + intros u v E Hv Hlen. cbn beta.
      change (str "-") with [45%Z]. cbn [lits run rest].
      destruct v as [|x v]; [congruence|]. cbn [app atom_ok IGNORECASE no_flags].
      destruct u as [|y u]; [simpl in Hlen; lia|].
      simpl in E. inversion E as [[Hy ES]].
      assert (Hx : speaker_char x = true).
      { rewrite forallb_forall in HSok. apply HSok. rewrite ES.
        apply in_or_app. right. left. reflexivity. }
      unfold speaker_char in Hx. apply andb_prop in Hx as [_ Hx].
      apply negb_true_iff in Hx. rewrite Hx. reflexivity.
  - cbn [caps group Nat.eqb]. auto.
Qed.

Section Filename.
(** The decimal digits of the interpreter's Unicode database; on ASCII
    they are the digits 0 to 9. *)
Variable unicode_isdigit : char -> bool.
Hypothesis ascii_digits :
  forall c, (0 <= c < 128)%Z -> unicode_isdigit c = ascii_isdigit c.

Lemma prefix_run : forall tail r k zf,
  run no_flags r (Cursor (rev (str "LL-Q36236 (mal)-")) tail []) k = Some zf ->
  run no_flags
      (Bol >> lits (str "LL-Q") >> Rep (Cls unicode_isdigit) 1 None true
       >> ws_star >> lits (str "(")
       >> Rep (Cls (in_range 97%Z 122%Z)) 3 (Some 3) true
       >> lits (str ")-") >> r)
      (Cursor [] (str "LL-Q36236 (mal)-" ++ tail) []) k = Some zf.
Proof.
  intros tail r k zf H. cbn [run]. cbn [at_bol seen].
  rewrite (@run_lits_intro no_flags _ (str "LL-Q") _ (str "36236 (mal)-" ++ tail));
    [|repeat constructor|reflexivity].
  cbn [seen rest caps].
  change (str "36236 (mal)-" ++ tail) with (str "36236" ++ str " (mal)-" ++ tail).
  apply rep_greedy_stops.
  - simpl. rewrite !ascii_digits by lia. reflexivity.
  - simpl; lia.
  - simpl. rewrite ascii_digits by lia. reflexivity.
  - unfold ws_star. cbn [run seen rest caps].
    change (str " (mal)-" ++ tail) with (str " " ++ str "(mal)-" ++ tail).
    apply rep_greedy_stops; [reflexivity|simpl; lia|reflexivity|].
    rewrite (@run_lits_intro no_flags _ (str "(") _ (str "mal)-" ++ tail));
      [|repeat constructor|reflexivity].
    cbn [seen rest caps].
    change (str "mal)-" ++ tail) with (str "mal" ++ str ")-" ++ tail).
    rewrite rep_greedy_exact; [|reflexivity|reflexivity].
    rewrite (@run_lits_intro no_flags _ (str ")-") _ tail);
      [|repeat constructor|reflexivity].
    cbn [seen rest caps]. exact H.
Qed.

(** C5, as the code has it.  For every filename made of
    [LL_FILE_PREFIX], a hyphen, a speaker part, a hyphen, a word and an
    extension of the pattern, where the speaker part is one character
    followed by characters that are no hyphens (and no line feeds) and the
    word is not empty and holds no line feed: the speaker capture is that
    speaker part and the word capture is the whole word, hyphens
    included.  The split is at the first hyphen that follows at least one
    character of the speaker: the shortest speaker, the longest word. *)
Theorem filename_split_first_hyphen : forall c S W ext,
  dot c = true -> forallb speaker_char S = true ->
  W <> [] -> forallb dot W = true -> In ext LL_EXTENSIONS ->
  exists m,
    LL_FILENAME_match unicode_isdigit
      (LL_FILE_PREFIX ++ str "-" ++ (c :: S) ++ str "-" ++ W ++ str "." ++ ext)
    = Some m
    /\ m_group 1 m = Some (c :: S) /\ m_group 2 m = Some W
    /\ m_group 3 m = Some ext.
Proof.
  intros c S W ext Hc HS HW HWok Hext.
  destruct (@tail_run c S W ext (rev (str "LL-Q36236 (mal)-")) Hc HS HW HWok Hext)
    as (zf & Hrun & G1 & G2 & G3).
  exists (mk_match (Cursor [] (LL_FILE_PREFIX ++ str "-" ++ (c :: S) ++ str "-"
                               ++ W ++ str "." ++ ext) []) zf).
  split; [|unfold m_group; simpl; auto].
  unfold LL_FILENAME_match, re_match.
  change (LL_FILE_PREFIX ++ str "-" ++ (c :: S) ++ str "-" ++ W ++ str "." ++ ext)
    with (str "LL-Q36236 (mal)-" ++ ((c :: S) ++ str "-" ++ W ++ str "." ++ ext)).
  unfold LL_FILENAME_REGEX. rewrite (prefix_run _ _ _ Hrun). reflexivity.
Qed.

(** C7. Nothing in the core raises.  For every filename the pattern
    gives no match or a match whose three groups are all set, so the
    callers read strings; for every document [parse_sections] returns a
    list, its scan of the headers stopping only when a search fails; and
    for every document and filename [add_pronunciation_to_page] returns
    the no-change result or a new text. *)
Theorem core_never_raises : forall doc f,
  match LL_FILENAME_match unicode_isdigit f with
  | None => True
  | Some m => exists s w e, m_group 1 m = Some s /\ m_group 2 m = Some w
                            /\ m_group 3 m = Some e
  end
  /\ scanned header_flags header_pattern false [] doc
             (re_finditer header_flags header_pattern doc)
  /\ (exists secs, parse_sections doc = Ok secs)
  /\ (add_pronunciation_to_page doc f = Ok None
      \/ exists new, add_pronunciation_to_page doc f = Ok (Some new)).
Proof.
  intros doc f. split; [|split; [apply re_finditer_scanned|split]].
  - unfold LL_FILENAME_match, re_match.
    destruct (run no_flags (LL_FILENAME_REGEX unicode_isdigit) (Cursor [] f []) Some)
      as [z'|] eqn:E; [|exact I].
    apply run_inv in E. destruct E as (z1 & w & Hk & _ & _ & _ & Hb).
    inversion Hk; subst z1. cbn [option_map]. unfold m_group. cbn [mk_match m_caps].
    assert (H1 : is_set 1 (caps z')) by (apply Hb; simpl; auto).
    assert (H2 : is_set 2 (caps z')) by (apply Hb; simpl; auto).
    assert (H3 : is_set 3 (caps z')) by (apply Hb; simpl; auto).
    unfold is_set in *.
    destruct (group 1 (caps z')); [|congruence].
    destruct (group 2 (caps z')); [|congruence].
    destruct (group 3 (caps z')); [|congruence].
    do 3 eexists. repeat split.
  - eexists. apply parse_sections_eq.
  - unfold add_pronunciation_to_page.
    destruct (page_has_audio doc); [left; reflexivity|].
    rewrite parse_sections_eq. cbn [bind].
    destruct (find_pronunciation_section _); [right; eauto|].
    destruct (sections_of doc _); cbn [is_empty nonempty negb first_item bind];
      [right; eauto|].
    destruct (nonempty _); right; eauto.
Qed.
End Filename.

Lemma filename_split_first_hyphen_witness :
  exists m,
    LL_FILENAME_match ascii_isdigit
      (LL_FILE_PREFIX ++ str "-" ++ str "Akbar Ali" ++ str "-" ++ str "x-y"
       ++ str "." ++ str "wav") = Some m
    /\ m_group 1 m = Some (str "Akbar Ali") /\ m_group 2 m = Some (str "x-y")
    /\ m_group 3 m = Some (str "wav").
Proof.
  apply (@filename_split_first_hyphen ascii_isdigit (fun c _ => eq_refl)
           65%Z (str "kbar Ali") (str "x-y") (str "wav")).
  - reflexivity.
  - reflexivity.
  - discriminate.
  - reflexivity.
  - simpl; auto.
Defined.

(** C5 as the specification words it does not hold: on the filename of its
    own example the speaker capture is [A] and the word capture is [B-C],
    the split being at the first hyphen and not at the last.  Every
    character of the name is ASCII, where the digit table is
    [ascii_isdigit]. *)
Lemma filename_split_last_hyphen_fails :
  exists m,
    LL_FILENAME_match ascii_isdigit (str "LL-Q36236 (mal)-A-B-C.wav") = Some m
    /\ m_group 1 m = Some (str "A") /\ m_group 2 m = Some (str "B-C")
    /\ m_group 1 m <> Some (str "A-B") /\ m_group 2 m <> Some (str "C").
Proof.
  eexists. split; [vm_compute; reflexivity|].
  repeat split; try reflexivity; vm_compute; discriminate.
Qed.

(** ** The bot *)

Lemma mem_In : forall w l, mem w l = true <-> In w l.
Proof.
  intros w l. unfold mem. rewrite existsb_exists. split.
  - intros (x & Hx & E). apply text_eqb_eq in E. subst. exact Hx.
  - intros H. exists w. split; [exact H|]. apply text_eqb_eq. reflexivity.
Qed.

Lemma mem_false : forall w l, mem w l = false <-> ~ In w l.
Proof.
  intros w l. rewrite <- mem_In. destruct (mem w l); split; congruence.
Qed.

Lemma unique_fold : forall recs seen acc,
  snd (fold_left unique_step recs (seen, acc)) = acc ++ firsts seen recs.
Proof.
  induction recs as [|r recs IH]; intros seen acc; simpl.
  - rewrite app_nil_r. reflexivity.
  - destruct (mem (rec_word r) seen); simpl.
    + apply IH.
    + rewrite IH, <- app_assoc. reflexivity.
Qed.

Lemma unique_recordings_firsts : forall recs,
  unique_recordings_of recs = firsts [] recs.
Proof. intros. unfold unique_recordings_of. apply unique_fold. Qed.

Lemma firsts_in : forall recs seen r,
  In r (firsts seen recs) -> In r recs /\ ~ In (rec_word r) seen.
Proof.
  induction recs as [|x recs IH]; intros seen r H; simpl in H; [destruct H|].
  destruct (mem (rec_word x) seen) eqn:E.
  - apply IH in H. simpl. tauto.
  - destruct H as [<-|H].
    + split; [left; reflexivity|]. apply mem_false. exact E.
    + apply IH in H. simpl in *. tauto.
Qed.

Lemma firsts_nodup : forall recs seen, NoDup (map rec_word (firsts seen recs)).
Proof.
  induction recs as [|x recs IH]; intros seen; simpl; [constructor|].
  destruct (mem (rec_word x) seen); [apply IH|].
  simpl. constructor; [|apply IH].
  intros H. apply in_map_iff in H. destruct H as (r & E & Hr).
  apply firsts_in in Hr. destruct Hr as [_ Hr]. apply Hr. left. congruence.
Qed.

Lemma firsts_cover : forall recs seen r,
  In r recs -> In (rec_word r) seen \/ In (rec_word r) (map rec_word (firsts seen recs)).
Proof.
  induction recs as [|x recs IH]; intros seen r H; [destruct H|].
  simpl. destruct (mem (rec_word x) seen) eqn:E.
  - destruct H as [<-|H]; [left; apply mem_In; exact E|]. apply IH. exact H.
  - destruct H as [<-|H]; [right; left; reflexivity|].
    destruct (@IH (rec_word x :: seen) r H) as [[Hs|Hs]|Hs].
    + right. left. exact Hs.
    + left. exact Hs.
    + right. right. exact Hs.
Qed.

Lemma firsts_first : forall recs seen r,
  In r (firsts seen recs) ->
  exists a b, recs = a ++ r :: b /\ ~ In (rec_word r) (map rec_word a).
Proof.
  induction recs as [|x recs IH]; intros seen r H; simpl in H; [destruct H|].
  destruct (mem (rec_word x) seen) eqn:E.
  - pose proof (@firsts_in _ _ _ H) as [_ Hn].
    destruct (@IH _ _ H) as (a & b & -> & Ha).
    exists (x :: a), b. split; [reflexivity|]. simpl. intros [Hx|Hx]; [|tauto].
    apply Hn. rewrite <- Hx. apply mem_In. exact E.
  - destruct H as [<-|H].
    + exists [], recs. split; [reflexivity|]. simpl. tauto.
    + pose proof (@firsts_in _ _ _ H) as [_ Hn].
      destruct (@IH _ _ H) as (a & b & -> & Ha).
      exists (x :: a), b. split; [reflexivity|]. simpl. intros [Hx|Hx]; [|tauto].
      apply Hn. left. exact Hx.
Qed.

Lemma firsts_subseq : forall recs seen, subseq (firsts seen recs) recs.
Proof.
  induction recs as [|x recs IH]; intros seen; simpl; [constructor|].
  destruct (mem (rec_word x) seen); constructor; apply IH.
Qed.

Lemma subseq_app : forall (A : Type) (a b c d : list A),
  subseq a b -> subseq c d -> subseq (a ++ c) (b ++ d).
Proof.
  intros A a b c d H1 H2. induction H1; simpl; auto using subseq.
Qed.

Lemma subseq_In : forall (A : Type) (l l' : list A) x,
  subseq l l' -> In x l -> In x l'.
Proof.
  intros A l l' x H. induction H; simpl; intros Hx; auto.
  destruct Hx as [Hx|Hx]; auto.
Qed.

Lemma subseq_NoDup : forall (A : Type) (l l' : list A),
  subseq l l' -> NoDup l' -> NoDup l.
Proof.
  intros A l l' H. induction H; intros N; auto.
  - inversion N; subst. auto.
  - inversion N; subst. constructor; auto.
    intros Hx. apply H2. eapply subseq_In; eassumption.
Qed.

Lemma subseq_length : forall (A : Type) (l l' : list A),
  subseq l l' -> length l <= length l'.
Proof. intros A l l' H. induction H; simpl; lia. Qed.

Lemma filter_subseq : forall (A : Type) (p : A -> bool) (l : list A),
  subseq (filter p l) l.
Proof.
  intros A p l. induction l as [|x l IH]; cbn [filter]; [constructor|].
  destruct (p x); constructor; exact IH.
Qed.

Lemma subseq_refl : forall (A : Type) (l : list A), subseq l l.
Proof. intros A l. induction l; [apply subseq_nil|apply subseq_keep; auto]. Qed.

Lemma filter_words_subseq : forall wf recs, subseq (filter_words wf recs) recs.
Proof.
  intros [[|w ws]|] recs; unfold filter_words;
    try apply filter_subseq; apply subseq_refl.
Qed.

Lemma unique_length : forall wf recs,
  length (unique_recordings_of (filter_words wf recs)) <= length recs.
Proof.
  intros wf recs. rewrite unique_recordings_firsts.
  pose proof (subseq_length (@firsts_subseq (filter_words wf recs) [])).
  pose proof (subseq_length (filter_words_subseq wf recs)). lia.
Qed.

Section GatewayFacts.
Variable answer_get : list Call -> text -> io (option PageData).
Variable answer_edit : list Call -> text -> text -> text -> io bool.
Variable answer_sleep : list Call -> Z -> io unit.

Import MalayalamPronunciationBot.

Lemma new_text_has_audio : forall doc f new,
  add_pronunciation_to_page doc f = Ok (Some new) ->
  page_has_audio doc = false /\ page_has_audio new = true.
Proof.
  intros doc f new H. split.
  - destruct (page_has_audio doc) eqn:E; [|reflexivity].
    unfold add_pronunciation_to_page in H. rewrite E in H. discriminate.
  - destruct (add_output_has_line _ _ H) as (a & b & ->).
    apply page_has_audio_iff. apply build_audio_line_construct.
Qed.

Ltac crunch :=
  repeat (cbn [dry_run edit_delay stats bump] in *;
          match goal with
          | H : (_, _) = (_, _) |- _ => inversion H; subst; clear H
          | H : context [match ?x with _ => _ end] |- _ => destruct x eqn:?
          end).

Lemma sent_ok_mono : forall live recs recs' h new,
  (forall r, In r recs -> In r recs') ->
  sent_ok answer_get live recs h new -> sent_ok answer_get live recs' h new.
Proof.
  intros live recs recs' h new Hsub.
  induction new as [|[t|t x s|d] new IH]; cbn [sent_ok]; auto.
  - intros (L & (r & pd & rest & Hr & E) & H).
    split; [exact L|]. split; [|auto]. exists r, pd, rest. split; auto.
  - intros (L & E & H). auto.
Qed.

Lemma sent_ok_app : forall live recs h new1 new2,
  sent_ok answer_get live recs h new1 -> sent_ok answer_get live recs (new1 ++ h) new2 ->
  sent_ok answer_get live recs h (new2 ++ new1).
Proof.
  intros live recs h new1 new2 H1.
  induction new2 as [|[t|t x s|d] new2 IH]; cbn [sent_ok app]; auto.
  - intros (L & (r & pd & rest & Hr & Et & Es & En & Ea & E) & H).
    split; [exact L|]. split; [|auto].
    exists r, pd, (rest ++ new1). rewrite <- app_assoc.
    split; [exact Hr|]. split; [exact Et|]. split; [exact Es|].
    split; [rewrite En; reflexivity|]. split; [exact Ea|exact E].
  - intros (L & (t & x & s & rest & En) & H).
    split; [exact L|]. split; [|auto].
    exists t, x, s, (rest ++ new1). rewrite En. reflexivity.
Qed.

Lemma sent_ok_edited : forall live recs h new,
  sent_ok answer_get live recs h new -> subseq (edited new) (fetched new).
Proof.
  intros live recs h new.
  assert (Hsnoc : forall (a b : list text) t, subseq a b -> subseq a (b ++ [t])).
  { intros a b t H. rewrite <- (app_nil_r a). apply subseq_app; [exact H|].
    apply subseq_skip, subseq_nil. }
  assert (Hboth : forall (a b : list text) t,
            subseq a b -> subseq (a ++ [t]) (b ++ [t])).
  { intros a b t H. apply subseq_app; [exact H|].
    apply subseq_keep, subseq_nil. }
  enough (H : (sent_ok answer_get live recs h new ->
               subseq (edited new) (fetched new))
              /\ (forall t rest, new = GetPage t :: rest ->
                    sent_ok answer_get live recs h rest ->
                    subseq (edited rest) (fetched rest))) by apply H.
  induction new as [|c new [IH1 IH2]].
  - split; [intros _; constructor|discriminate].
  - split.
    + destruct c as [t|t x s|d]; cbn [sent_ok edited fetched].
      * intros H. apply Hsnoc. auto.
      * intros (_ & (r & pd & rest & _ & _ & _ & En & _) & H).
        subst new. cbn [edited fetched sent_ok] in *. apply Hboth.
        apply (IH2 t rest); [reflexivity|exact H].
      * intros (_ & _ & H). auto.
    + intros t rest E H. inversion E; subst. auto.
Qed.

Lemma process_recording_calls : forall rec self h r self' h',
  process_recording answer_get answer_edit answer_sleep rec self h = (r, self', h') ->
  dry_run self' = dry_run self /\ edit_delay self' = edit_delay self
  /\ exists new,
       h' = new ++ h /\ fetched new = [rec_word rec]
       /\ sent_ok answer_get (negb (dry_run self)) [rec] h new
       /\ (dry_run self = true -> new = [GetPage (rec_word rec)]).
Proof.
  intros rec self h r self' h' H.
  unfold process_recording, _get_page, _edit_page, sleep in H.
  assert (Hedit : forall p x s,
            dry_run self = false ->
            answer_get h (rec_word rec) = Returns (Some p) ->
            negb (pd_exists p) = false -> pd_redirect p = false ->
            add_pronunciation_to_page (pd_content p) (rec_filename rec)
            = Ok (Some x) ->
            s = edit_summary_of (rec_filename rec) ->
            sent_ok answer_get (negb (dry_run self)) [rec] h
                 [EditPage (rec_word rec) x s; GetPage (rec_word rec)]).
  { intros p x s D G Ex Rd A S. cbn [sent_ok].
    rewrite D. split; [reflexivity|]. split; [|exact I].
    exists rec, p, []. apply negb_false_iff in Ex.
    repeat split; auto. left. reflexivity. }
  assert (Hfin : forall new,
            fetched new = [rec_word rec] ->
            sent_ok answer_get (negb (dry_run self)) [rec] h new ->
            (dry_run self = true -> new = [GetPage (rec_word rec)]) ->
            exists new0,
              new ++ h = new0 ++ h /\ fetched new0 = [rec_word rec]
              /\ sent_ok answer_get (negb (dry_run self)) [rec] h new0
              /\ (dry_run self = true -> new0 = [GetPage (rec_word rec)])).
  { intros new F S D. exists new. auto. }
  crunch; cbn [dry_run edit_delay stats bump] in *; try discriminate;
    (split; [reflexivity|]); (split; [reflexivity|]).
  all: try (apply (Hfin [GetPage (rec_word rec)]);
            [reflexivity|exact I|reflexivity]).
  all: try (match goal with
            | |- exists new, EditPage ?w ?x ?s :: GetPage ?w :: ?h = _ /\ _ =>
                apply (Hfin [EditPage w x s; GetPage w]);
                [reflexivity|eapply Hedit; eauto|intros; congruence]
            | |- exists new,
                   Sleep ?d :: EditPage ?w ?x ?s :: GetPage ?w :: ?h = _ /\ _ =>
                apply (Hfin [Sleep d; EditPage w x s; GetPage w]);
                [reflexivity
                |cbn [sent_ok];
                 split; [match goal with D : dry_run _ = false |- _ =>
                           rewrite D; reflexivity end|];
                 split; [do 4 eexists; reflexivity|];
                 eapply Hedit; eauto
                |intros; congruence]
            end).
Qed.

Ltac stat_arith :=
  unfold handled, classified, bump_stat, set_stat in *; simpl in *; try lia.

(** One call of [process_recording] and the counters. *)
Lemma process_recording_counts : forall rec self h r self' h',
  process_recording answer_get answer_edit answer_sleep rec self h = (r, self', h') ->
  stats self' pages_checked = S (stats self pages_checked)
  /\ stats self' total_recordings = stats self total_recordings
  /\ stats self' pages_edited + classified (stats self)
     <= stats self pages_edited + classified (stats self')
  /\ (dry_run self = true ->
      stats self' pages_edited + classified (stats self)
      = stats self pages_edited + classified (stats self'))
  /\ match r with
     | Returns _ => handled (stats self') = S (handled (stats self))
     | Throws KeyboardInterrupt =>
         handled (stats self) <= handled (stats self') <= S (handled (stats self))
     | Throws _ =>
         handled (stats self') = handled (stats self)
         \/ (~ sleep_accepts answer_sleep (edit_delay self)
             /\ handled (stats self') = S (handled (stats self)))
     end.
Proof.
  intros rec self h r self' h' H.
  unfold process_recording, _get_page, _edit_page, sleep in H.
  crunch; cbn [dry_run edit_delay stats bump] in *; try discriminate.
  all: repeat split; try (intros; congruence); stat_arith.
  all: try (left; stat_arith; fail).
  all: try (right; split;
            [intros [A _]; match goal with L : (_ <? 0)%Z = true |- _ =>
                             apply Z.ltb_lt in L; lia end
            |stat_arith]; fail).
  all: try (destruct e; try discriminate; stat_arith;
            try (left; stat_arith; fail);
            try (right; split;
                 [intros [_ A];
                  match goal with S : answer_sleep _ _ = Throws _ |- _ =>
                    specialize (A _ _ S); discriminate end
                 |stat_arith]; fail)).
  all: try discriminate.
Qed.

Lemma fetched_app : forall a b, fetched (a ++ b) = fetched b ++ fetched a.
Proof.
  induction a as [|c a IH]; intros b; simpl.
  - rewrite app_nil_r. reflexivity.
  - destruct c; rewrite ?IH, ?app_assoc; reflexivity.
Qed.

(** The loop of [run] and the calls it makes. *)
Lemma run_loop_calls : forall recs self h self' h',
  run_loop answer_get answer_edit answer_sleep recs self h = (self', h') ->
  dry_run self' = dry_run self /\ edit_delay self' = edit_delay self
  /\ exists new done rest,
       h' = new ++ h /\ recs = done ++ rest
       /\ fetched new = map rec_word done
       /\ sent_ok answer_get (negb (dry_run self)) recs h new
       /\ (dry_run self = true ->
           new = map GetPage (rev (map rec_word done))).
Proof.
  induction recs as [|rec recs IH]; intros self h self' h' H; simpl in H.
  - inversion H; subst. split; [reflexivity|]. split; [reflexivity|].
    exists [], [], []. repeat split; auto.
  - destruct (process_recording answer_get answer_edit answer_sleep rec self h)
      as [[r self1] h1] eqn:E.
    destruct (process_recording_calls _ _ _ E) as (D1 & L1 & new1 & -> & F1 & A1 & G1).
    assert (A1' : sent_ok answer_get (negb (dry_run self)) (rec :: recs) h new1).
    { eapply sent_ok_mono; [|exact A1]. intros x [<-|[]]. left. reflexivity. }
    assert (Hrec : forall self2,
              dry_run self2 = dry_run self -> edit_delay self2 = edit_delay self ->
              run_loop answer_get answer_edit answer_sleep recs self2 (new1 ++ h)
              = (self', h') ->
              dry_run self' = dry_run self /\ edit_delay self' = edit_delay self
              /\ exists new done rest,
                   h' = new ++ h /\ rec :: recs = done ++ rest
                   /\ fetched new = map rec_word done
                   /\ sent_ok answer_get (negb (dry_run self)) (rec :: recs) h new
                   /\ (dry_run self = true ->
                       new = map GetPage (rev (map rec_word done)))).
    { intros self2 D2 L2 H2. apply IH in H2.
      destruct H2 as (D3 & L3 & new2 & done & rest & -> & -> & F2 & A2 & G2).
      split; [congruence|]. split; [congruence|].
      exists (new2 ++ new1), (rec :: done), rest.
      split; [rewrite app_assoc; reflexivity|]. split; [reflexivity|].
      split; [rewrite fetched_app, F1, F2; reflexivity|]. split.
      - apply sent_ok_app; [exact A1'|].
        rewrite D2 in A2. eapply sent_ok_mono; [|exact A2].
        intros x Hx. right. exact Hx.
      - intros D. rewrite G1 by exact D. rewrite G2 by congruence.
        simpl. rewrite map_app. reflexivity. }
    destruct r as [b|[| |]].
    + apply (Hrec self1); auto.
    + inversion H; subst. split; [exact D1|]. split; [exact L1|].
      exists new1, [rec], recs. repeat split; auto;
        intros D; rewrite G1 by exact D; reflexivity.
    + apply (Hrec (bump pages_skipped_error self1)); auto.
    + apply (Hrec (bump pages_skipped_error self1)); auto.
Qed.

(** The loop of [run] and the counters. *)
Lemma run_loop_counts : forall recs self h self' h',
  run_loop answer_get answer_edit answer_sleep recs self h = (self', h') ->
  stats self' total_recordings = stats self total_recordings
  /\ stats self pages_checked <= stats self' pages_checked
     <= stats self pages_checked + length recs
  /\ stats self' pages_edited + classified (stats self)
     <= stats self pages_edited + classified (stats self')
  /\ (dry_run self = true ->
      stats self' pages_edited + classified (stats self)
      = stats self pages_edited + classified (stats self'))
  /\ (sleep_accepts answer_sleep (edit_delay self) ->
      handled (stats self') + stats self pages_checked
      <= handled (stats self) + stats self' pages_checked
      <= handled (stats self') + stats self pages_checked + 1).
Proof.
  induction recs as [|rec recs IH]; intros self h self' h' H; simpl in H.
  - inversion H; subst. repeat split; auto; lia.
  - destruct (process_recording answer_get answer_edit answer_sleep rec self h)
      as [[r self1] h1] eqn:E.
    destruct (process_recording_calls _ _ _ E) as (D1 & L1 & _).
    destruct (process_recording_counts _ _ _ E) as (C1 & T1 & K1 & K1' & R1).
    assert (Hrec : forall self2,
              dry_run self2 = dry_run self -> edit_delay self2 = edit_delay self ->
              stats self2 pages_checked = S (stats self pages_checked) ->
              stats self2 total_recordings = stats self total_recordings ->
              stats self2 pages_edited = stats self1 pages_edited ->
              classified (stats self2) = classified (stats self1) ->
              (sleep_accepts answer_sleep (edit_delay self) ->
               handled (stats self2) = S (handled (stats self))) ->
              run_loop answer_get answer_edit answer_sleep recs self2 h1 = (self', h') ->
              stats self' total_recordings = stats self total_recordings
              /\ stats self pages_checked <= stats self' pages_checked
                 <= stats self pages_checked + length (rec :: recs)
              /\ stats self' pages_edited + classified (stats self)
                 <= stats self pages_edited + classified (stats self')
              /\ (dry_run self = true ->
                  stats self' pages_edited + classified (stats self)
                  = stats self pages_edited + classified (stats self'))
              /\ (sleep_accepts answer_sleep (edit_delay self) ->
                  handled (stats self') + stats self pages_checked
                  <= handled (stats self) + stats self' pages_checked
                  <= handled (stats self') + stats self pages_checked + 1)).
    { intros self2 D2 L2 C2 T2 E2 Q2 B2 H2. apply IH in H2.
      destruct H2 as (T3 & C3 & K3 & K3' & B3).
      rewrite D2, L2 in *. simpl length.
      split; [congruence|]. split; [lia|]. split; [lia|].
      split; [intros D; specialize (K1' D); specialize (K3' D); lia|].
      intros L. specialize (B2 L). specialize (B3 L). lia. }
    destruct r as [b|[| |]].
    + apply (Hrec self1); auto.
    + inversion H; subst. simpl length.
      split; [exact T1|]. split; [lia|]. split; [exact K1|].
      split; [exact K1'|]. intros _. lia.
    + apply (Hrec (bump pages_skipped_error self1)); auto;
        cbn [dry_run edit_delay stats bump]; try reflexivity; try exact C1;
        try exact T1.
      intros L. destruct R1 as [R1|[R1 _]]; [|contradiction].
      stat_arith.
    + apply (Hrec (bump pages_skipped_error self1)); auto;
        cbn [dry_run edit_delay stats bump]; try reflexivity; try exact C1;
        try exact T1.
      intros L. destruct R1 as [R1|[R1 _]]; [|contradiction].
      stat_arith.
Qed.

Lemma process_not_interrupted : forall rec self h r self' h',
  never_interrupted answer_get answer_edit answer_sleep ->
  process_recording answer_get answer_edit answer_sleep rec self h = (r, self', h') -> r <> Throws KeyboardInterrupt.
Proof.
  intros rec self h r self' h' (N1 & N2 & N3) H.
  unfold process_recording, _get_page, _edit_page, sleep in H.
  crunch; cbn [dry_run edit_delay stats bump] in *; try discriminate.
  all: try (intros He; inversion He; subst; eapply N1; eassumption).
  all: try (intros He; inversion He; subst; eapply N2; eassumption).
  all: try (intros He; inversion He; subst; eapply N3; eassumption).
Qed.

Lemma run_loop_complete : forall recs self h self' h',
  never_interrupted answer_get answer_edit answer_sleep ->
  run_loop answer_get answer_edit answer_sleep recs self h = (self', h') ->
  (exists new, h' = new ++ h /\ fetched new = map rec_word recs)
  /\ stats self' pages_checked = stats self pages_checked + length recs
  /\ (sleep_accepts answer_sleep (edit_delay self) ->
      handled (stats self') = handled (stats self) + length recs).
Proof.
  intros recs self h self' h' NI.
  revert self h. induction recs as [|rec recs IH]; intros self h H; simpl in H.
  - inversion H; subst. split; [exists []; auto|]. simpl. split; lia.
  - destruct (process_recording answer_get answer_edit answer_sleep rec self h)
      as [[r self1] h1] eqn:E.
    pose proof (process_not_interrupted _ _ _ NI E) as Hni.
    destruct (process_recording_calls _ _ _ E) as (D1 & L1 & new1 & -> & F1 & _).
    destruct (process_recording_counts _ _ _ E) as (C1 & _ & _ & _ & R1).
    assert (Hrec : forall self2,
              edit_delay self2 = edit_delay self ->
              stats self2 pages_checked = S (stats self pages_checked) ->
              (sleep_accepts answer_sleep (edit_delay self) ->
               handled (stats self2) = S (handled (stats self))) ->
              run_loop answer_get answer_edit answer_sleep recs self2 (new1 ++ h)
              = (self', h') ->
              (exists new, h' = new ++ h
                           /\ fetched new = map rec_word (rec :: recs))
              /\ stats self' pages_checked
                 = stats self pages_checked + length (rec :: recs)
              /\ (sleep_accepts answer_sleep (edit_delay self) ->
                  handled (stats self')
                  = handled (stats self) + length (rec :: recs))).
    { intros self2 L2 C2 B2 H2. apply IH in H2.
      destruct H2 as ((new2 & -> & F2) & C3 & B3). rewrite L2 in B3.
      split; [|simpl length; split;
               [lia|intros L; specialize (B2 L); specialize (B3 L); lia]].
      exists (new2 ++ new1). split; [rewrite app_assoc; reflexivity|].
      rewrite fetched_app, F1, F2. reflexivity. }
    destruct r as [b|[| |]]; try congruence.
    + apply (Hrec self1); auto.
    + apply (Hrec (bump pages_skipped_error self1)); auto;
        cbn [dry_run edit_delay stats bump]; try exact C1.
      intros L. destruct R1 as [R1|[R1 _]]; [|contradiction]. stat_arith.
    + apply (Hrec (bump pages_skipped_error self1)); auto;
        cbn [dry_run edit_delay stats bump]; try exact C1.
      intros L. destruct R1 as [R1|[R1 _]]; [|contradiction]. stat_arith.
Qed.

Lemma add_changes : forall doc f,
  page_has_audio doc = false ->
  exists new, add_pronunciation_to_page doc f = Ok (Some new).
Proof.
  intros doc f H. unfold add_pronunciation_to_page.
  rewrite H, parse_sections_eq. cbn [bind].
  destruct (find_pronunciation_section _); [eauto|].
  destruct (sections_of doc _); cbn [is_empty nonempty negb first_item bind];
    [eauto|].
  destruct (nonempty _); eauto.
Qed.

Lemma run_loop_run : forall recordings words_filter self h,
  run answer_get answer_edit answer_sleep recordings words_filter self h
  = run_loop answer_get answer_edit answer_sleep
             (unique_recordings_of (filter_words words_filter recordings))
             (MkBot (dry_run self) (edit_delay self)
                    (set_stat total_recordings (length recordings) (stats self)))
             h.
Proof. reflexivity. Qed.

Lemma sent_ok_audio : forall live recs h new,
  sent_ok answer_get live recs h new -> Forall sends_audio new.
Proof.
  intros live recs h. induction new as [|[t|t x s|d] new IH]; cbn [sent_ok].
  - constructor.
  - intros H. constructor; [exact I|auto].
  - intros (_ & (r & pd & rest & _ & _ & _ & _ & _ & _ & _ & A) & H).
    constructor; [|auto]. exact (proj2 (new_text_has_audio _ _ A)).
  - intros (_ & _ & H). constructor; [exact I|auto].
Qed.

(** X1. Whatever the wiki answers, the requests of a run are in order:
    an edit request is sent in live mode only; it follows at once the
    reading of the same page; that page exists and is no redirect; its
    title is the word of a recording that the filter and the de-duplication
    kept; the text sent is what the editor made of the text just read,
    with the file of that recording, and it has audio; and the summary is
    that filename followed by the fixed words.  A sleep follows an edit
    request. *)
Theorem run_edits_follow_reads : forall recordings words_filter self h,
  exists new,
    snd (run answer_get answer_edit answer_sleep recordings words_filter self h)
    = new ++ h
    /\ sent_ok answer_get (negb (dry_run self))
               (unique_recordings_of (filter_words words_filter recordings))
               h new
    /\ Forall sends_audio new.
Proof.
  intros recordings words_filter self h. rewrite run_loop_run.
  destruct (run_loop _ _ _ _ _ _) as [self' h'] eqn:E.
  apply run_loop_calls in E.
  destruct E as (_ & _ & new & done & rest & -> & _ & _ & S & _).
  exists new. split; [reflexivity|]. split; [exact S|].
  eapply sent_ok_audio. exact S.
Qed.

(** X2. A dry run sends nothing but page readings: its calls are the
    readings of the words of the first recordings kept, in their order,
    and no edit request or sleep; and it counts as would-be edits exactly
    the pages it classifies. *)
Theorem dry_run_only_reads : forall recordings words_filter self h,
  dry_run self = true ->
  let after :=
    run answer_get answer_edit answer_sleep recordings words_filter self h in
  exists done rest,
    unique_recordings_of (filter_words words_filter recordings) = done ++ rest
    /\ snd after = map GetPage (rev (map rec_word done)) ++ h
    /\ stats (fst after) pages_edited + classified (stats self)
       = stats self pages_edited + classified (stats (fst after)).
Proof.
  intros recordings words_filter self h D after. subst after.
  rewrite run_loop_run.
  destruct (run_loop _ _ _ _ _ _) as [self' h'] eqn:E.
  pose proof (run_loop_calls _ _ _ E)
    as (_ & _ & new & done & rest & -> & U & _ & _ & G).
  pose proof (run_loop_counts _ _ _ E) as (_ & _ & _ & K & _).
  exists done, rest. split; [exact U|]. cbn [fst snd dry_run] in *.
  split; [rewrite (G D); reflexivity|].
  specialize (K D). revert K. stat_arith.
Qed.

(** X3. A run reads no page twice and edits no page twice: the titles it
    fetches are the words of the first recordings kept, in their order,
    without repeats, and the titles it edits are some of them, in the same
    order. *)
Theorem run_reads_each_word_once : forall recordings words_filter self h,
  exists new done rest,
    snd (run answer_get answer_edit answer_sleep recordings words_filter self h)
    = new ++ h
    /\ unique_recordings_of (filter_words words_filter recordings) = done ++ rest
    /\ fetched new = map rec_word done
    /\ NoDup (fetched new)
    /\ subseq (edited new) (fetched new)
    /\ NoDup (edited new).
Proof.
  intros recordings words_filter self h. rewrite run_loop_run.
  destruct (run_loop _ _ _ _ _ _) as [self' h'] eqn:E.
  apply run_loop_calls in E.
  destruct E as (_ & _ & new & done & rest & -> & U & F & S & _).
  assert (N : NoDup (fetched new)).
  { rewrite F.
    pose proof (firsts_nodup (filter_words words_filter recordings) []) as N.
    rewrite <- unique_recordings_firsts, U, map_app in N.
    eapply NoDup_app_remove_r. exact N. }
  pose proof (sent_ok_edited _ _ _ _ S) as Q.
  exists new, done, rest. repeat split; auto.
  eapply subseq_NoDup; eassumption.
Qed.

(** X4. The counters of a run: [total_recordings] is the number of
    recordings given, before the filter; [pages_checked] grows, by no more
    than that number; every page counted as edited is also classified as a
    new section or an addition to a section; and the mode and the delay are
    not touched. *)
Theorem run_counters : forall recordings words_filter self h,
  let self' :=
    fst (run answer_get answer_edit answer_sleep recordings words_filter self h) in
  dry_run self' = dry_run self /\ edit_delay self' = edit_delay self
  /\ stats self' total_recordings = length recordings
  /\ stats self pages_checked <= stats self' pages_checked
     <= stats self pages_checked + length recordings
  /\ stats self' pages_edited + classified (stats self)
     <= stats self pages_edited + classified (stats self').
Proof.
  intros recordings words_filter self h self'. subst self'.
  rewrite run_loop_run.
  destruct (run_loop _ _ _ _ _ _) as [self' h'] eqn:E.
  pose proof (run_loop_calls _ _ _ E) as (D & L & _).
  pose proof (run_loop_counts _ _ _ E) as (T & C & K & _).
  pose proof (unique_length words_filter recordings) as U.
  cbn [fst snd dry_run edit_delay stats] in *.
  split; [exact D|]. split; [exact L|].
  split; [rewrite T; reflexivity|].
  revert C K. stat_arith.
Qed.

(** X5. With a delay that [time.sleep] takes (the delay is not negative
    and the call raises no [Exception] for it, as it would for a delay
    beyond the range of the clock), every page checked is counted under
    exactly one outcome (edited, has audio, not found, redirect, error),
    but for the page during which the run is interrupted, if any: the
    outcomes grow by as much as [pages_checked], or by one less. *)
Theorem run_counts_each_page_once : forall recordings words_filter self h,
  sleep_accepts answer_sleep (edit_delay self) ->
  let self' :=
    fst (run answer_get answer_edit answer_sleep recordings words_filter self h) in
  handled (stats self') + stats self pages_checked
  <= handled (stats self) + stats self' pages_checked
  <= handled (stats self') + stats self pages_checked + 1.
Proof.
  intros recordings words_filter self h L self'. subst self'.
  rewrite run_loop_run.
  destruct (run_loop _ _ _ _ _ _) as [self' h'] eqn:E.
  pose proof (run_loop_counts _ _ _ E) as (_ & _ & _ & _ & B).
  cbn [fst snd dry_run edit_delay stats] in *.
  specialize (B L). revert B. stat_arith.
Qed.

(** X6. When nobody interrupts and [time.sleep] takes the delay (it is
    not negative and the call raises no [Exception] for it, as it would
    for a delay beyond the range of the clock), a run goes through all the
    recordings kept: it reads the page of each of them once, in their
    order, and [pages_checked] and the outcomes both grow by their
    number. *)
Theorem run_completes : forall recordings words_filter self h,
  never_interrupted answer_get answer_edit answer_sleep ->
  sleep_accepts answer_sleep (edit_delay self) ->
  let unique := unique_recordings_of (filter_words words_filter recordings) in
  let after :=
    run answer_get answer_edit answer_sleep recordings words_filter self h in
  (exists new, snd after = new ++ h /\ fetched new = map rec_word unique)
  /\ stats (fst after) pages_checked = stats self pages_checked + length unique
  /\ handled (stats (fst after)) = handled (stats self) + length unique.
Proof.
  intros recordings words_filter self h NI L unique after.
  subst unique after. rewrite run_loop_run.
  destruct (run_loop _ _ _ _ _ _) as [self' h'] eqn:E.
  pose proof (run_loop_complete _ _ _ NI E) as (F & C & B).
  cbn [fst snd dry_run edit_delay stats] in *.
  split; [exact F|]. specialize (B L). revert C B. stat_arith.
Qed.

(** X7. With a negative delay a live run counts a saved page twice.  For
    one recording whose page exists, is no redirect and has no audio, and
    an edit that the wiki accepts: the edit is sent, no sleep is made, and
    the page is counted under [pages_edited] and under
    [pages_skipped_error], so that the outcomes grow by two for one page
    checked. *)
Theorem negative_delay_counts_twice : forall rec pd self h,
  dry_run self = false -> (edit_delay self < 0)%Z ->
  answer_get h (rec_word rec) = Returns (Some pd) ->
  pd_exists pd = true -> pd_redirect pd = false ->
  page_has_audio (pd_content pd) = false ->
  (forall x s,
     answer_edit (GetPage (rec_word rec) :: h) (rec_word rec) x s
     = Returns true) ->
  let after := run answer_get answer_edit answer_sleep [rec] None self h in
  stats (fst after) pages_checked = S (stats self pages_checked)
  /\ stats (fst after) pages_edited = S (stats self pages_edited)
  /\ stats (fst after) pages_skipped_error = S (stats self pages_skipped_error)
  /\ handled (stats (fst after)) = handled (stats self) + 2
  /\ exists x,
       snd after
       = EditPage (rec_word rec) x (edit_summary_of (rec_filename rec))
         :: GetPage (rec_word rec) :: h.
Proof.
  intros rec pd self h D L G Ex Rd A Ed after. subst after.
  destruct (@add_changes (pd_content pd) (rec_filename rec) A) as (x & Hx).
  rewrite run_loop_run.
  cbn [filter_words unique_recordings_of fold_left unique_step mem existsb
       negb snd app run_loop].
  unfold process_recording, _get_page, _edit_page, sleep.
  cbn [dry_run edit_delay stats bump]. rewrite G, Ex, Rd. cbn [negb].
  rewrite Hx, parse_sections_eq.
  destruct (is_some _); cbn [dry_run edit_delay stats bump];
    rewrite D, Ed; cbn [dry_run edit_delay stats bump];
    apply Z.ltb_lt in L; rewrite L; cbn [fst snd stats bump];
    (repeat split; [stat_arith..|exists x; reflexivity]).
Qed.
(** X19. What [process_recording] returns: [True] exactly when it counts
    the page as edited.  When it returns [True], [pages_edited] has grown
    by one and no skip counter has moved; when it returns [False],
    [pages_edited] is as before and the outcomes have grown by one, in a
    skip counter.  Either way [pages_checked] has grown by one. *)
Theorem process_recording_result : forall rec self h,
  let out := process_recording answer_get answer_edit answer_sleep rec self h in
  let self' := snd (fst out) in
  match fst (fst out) with
  | Returns b =>
      stats self' pages_checked = S (stats self pages_checked)
      /\ handled (stats self') = S (handled (stats self))
      /\ stats self' pages_edited
         = (if b then S (stats self pages_edited) else stats self pages_edited)
  | Throws _ => stats self' pages_checked = S (stats self pages_checked)
  end.
Proof.
  intros rec self h out self'. subst self' out.
  destruct (process_recording answer_get answer_edit answer_sleep rec self h)
    as [[r self1] h1] eqn:H.
  cbn [fst snd].
  unfold process_recording, _get_page, _edit_page, sleep in H.
  crunch; cbn [dry_run edit_delay stats bump] in *; try discriminate;
    repeat split; stat_arith.
Qed.
End GatewayFacts.

Lemma dry_run_only_reads_witness :
  let get := fun (_ : list Call) (_ : text) =>
               Returns (Some (MkPageData true false (str "text"))) in
  let edit := fun (_ : list Call) (_ _ _ : text) => Returns true in
  let slp := fun (_ : list Call) (_ : Z) => Returns tt in
  let recs := [MkRecording (str "word") (str "a.wav") (str "S") []] in
  let self := MkBot true 10 initial_stats in
  let after := MalayalamPronunciationBot.run get edit slp recs None self [] in
  exists done rest,
    unique_recordings_of (filter_words None recs) = done ++ rest
    /\ snd after = map GetPage (rev (map rec_word done)) ++ []
    /\ stats (fst after) pages_edited + classified (stats self)
       = stats self pages_edited + classified (stats (fst after)).
Proof.
  intros get edit slp recs self.
  apply (@dry_run_only_reads get edit slp recs None self []). reflexivity.
Defined.

Lemma run_counts_each_page_once_witness :
  let get := fun (_ : list Call) (_ : text) =>
               Returns (Some (MkPageData true false (str "text"))) in
  let edit := fun (_ : list Call) (_ _ _ : text) => Returns true in
  let slp := fun (_ : list Call) (_ : Z) => Returns tt in
  let recs := [MkRecording (str "word") (str "a.wav") (str "S") []] in
  let self := MkBot false 10 initial_stats in
  let self' := fst (MalayalamPronunciationBot.run get edit slp recs None self []) in
  handled (stats self') + stats self pages_checked
  <= handled (stats self) + stats self' pages_checked
  <= handled (stats self') + stats self pages_checked + 1.
Proof.
  intros get edit slp recs self.
  apply (@run_counts_each_page_once get edit slp recs None self []).
  split; [vm_compute; discriminate|intros h e H; discriminate H].
Defined.

Lemma run_completes_witness :
  let get := fun (_ : list Call) (_ : text) =>
               Returns (Some (MkPageData true false (str "text"))) in
  let edit := fun (_ : list Call) (_ _ _ : text) => Returns true in
  let slp := fun (_ : list Call) (_ : Z) => Returns tt in
  let recs := [MkRecording (str "word") (str "a.wav") (str "S") [];
               MkRecording (str "word") (str "b.wav") (str "T") []] in
  let self := MkBot false 10 initial_stats in
  let unique := unique_recordings_of (filter_words None recs) in
  let after := MalayalamPronunciationBot.run get edit slp recs None self [] in
  (exists new, snd after = new ++ [] /\ fetched new = map rec_word unique)
  /\ stats (fst after) pages_checked = stats self pages_checked + length unique
  /\ handled (stats (fst after)) = handled (stats self) + length unique.
Proof.
  intros get edit slp recs self.
  apply (@run_completes get edit slp recs None self []).
  - repeat split; intros; discriminate.
  - split; [vm_compute; discriminate|intros h e H; discriminate H].
Defined.

Lemma negative_delay_counts_twice_witness :
  let get := fun (_ : list Call) (_ : text) =>
               Returns (Some (MkPageData true false (str "text"))) in
  let edit := fun (_ : list Call) (_ _ _ : text) => Returns true in
  let slp := fun (_ : list Call) (_ : Z) => Returns tt in
  let rec := MkRecording (str "word") (str "a.wav") (str "S") [] in
  let self := MkBot false (-1) initial_stats in
  let after := MalayalamPronunciationBot.run get edit slp [rec] None self [] in
  stats (fst after) pages_checked = S (stats self pages_checked)
  /\ stats (fst after) pages_edited = S (stats self pages_edited)
  /\ stats (fst after) pages_skipped_error = S (stats self pages_skipped_error)
  /\ handled (stats (fst after)) = handled (stats self) + 2
  /\ exists x,
       snd after
       = EditPage (rec_word rec) x (edit_summary_of (rec_filename rec))
         :: GetPage (rec_word rec) :: [].
Proof.
  intros get edit slp rec self.
  apply (@negative_delay_counts_twice get edit slp rec
           (MkPageData true false (str "text")) self []);
    reflexivity.
Defined.

(** X8. The de-duplication of [run]: no word twice, the recordings kept
    stand in the order of the input, every word of the input is kept, and
    the recording kept for a word is the first one that bears it. *)
Theorem unique_recordings_first_per_word : forall recs,
  let unique := unique_recordings_of recs in
  NoDup (map rec_word unique)
  /\ subseq unique recs
  /\ (forall r, In r recs -> In (rec_word r) (map rec_word unique))
  /\ (forall r, In r unique ->
        exists a b, recs = a ++ r :: b /\ ~ In (rec_word r) (map rec_word a)).
Proof.
  intros recs unique. subst unique. rewrite unique_recordings_firsts.
  split; [apply firsts_nodup|]. split; [apply firsts_subseq|]. split.
  - intros r H. destruct (@firsts_cover recs [] r H) as [[]|Hx]. exact Hx.
  - intros r H. eapply firsts_first. exact H.
Qed.

(** X9. The word filter of [run]: a list that is not empty keeps exactly the
    recordings whose word is in it, in their order; no list and the empty
    list keep every recording. *)
Theorem filter_words_keeps : forall recs,
  filter_words None recs = recs
  /\ filter_words (Some []) recs = recs
  /\ forall w ws,
       subseq (filter_words (Some (w :: ws)) recs) recs
       /\ forall r, In r (filter_words (Some (w :: ws)) recs)
                    <-> In r recs /\ In (rec_word r) (w :: ws).
Proof.
  intros recs. split; [reflexivity|]. split; [reflexivity|].
  intros w ws. split.
  - unfold filter_words. generalize (w :: ws). intros l.
    induction recs as [|x recs IH]; cbn [filter]; [constructor|].
    destruct (mem (rec_word x) l); constructor; exact IH.
  - intros r. unfold filter_words. rewrite filter_In, mem_In. tauto.
Qed.

(** ** The shape of a header *)

Section LoopBounds.
Variable R : Type.
Variable ok : char -> bool.

Lemma rep_greedy_inv_hi :
  forall rs lo hi sn (k : text -> text -> option R) r,
    rep_greedy ok lo hi sn rs k = Some r ->
    exists w rs', rs = w ++ rs' /\ forallb ok w = true /\ lo <= length w
                  /\ within hi (length w) /\ k (rev w ++ sn) rs' = Some r.
Proof.
  induction rs as [|c rs IH]; intros lo hi sn k r H; simpl in H.
  - destruct lo; [|discriminate].
    exists [], []. repeat split; auto. destruct hi; simpl; lia.
  - assert (Hstop : match lo with 0 => k sn (c :: rs) | S _ => None end = Some r ->
                    exists w rs', c :: rs = w ++ rs' /\ forallb ok w = true
                                  /\ lo <= length w /\ within hi (length w)
                                  /\ k (rev w ++ sn) rs' = Some r).
    { intros Hs. destruct lo; [|discriminate].
      exists [], (c :: rs). repeat split; auto. destruct hi; simpl; lia. }
    destruct (ok c && may_more hi) eqn:E; [|auto].
    destruct (rep_greedy ok (Nat.pred lo) (less hi) (c :: sn) rs k) eqn:E1; [|auto].
    inversion H; subst r0. apply IH in E1.
    destruct E1 as (w & rs' & -> & Hw & Hlo & Hhi & Hk).
    apply andb_prop in E as [Hc Hm].
    exists (c :: w), rs'. simpl. rewrite Hc, Hw.
    split; [reflexivity|]. split; [reflexivity|]. split; [lia|]. split.
    + destruct hi as [[|h]|]; simpl in *; try discriminate; lia.
    + rewrite <- app_assoc. exact Hk.
Qed.

(** A lazy repetition returns at the first count that the rest of the
    pattern accepts. *)
Lemma rep_lazy_least :
  forall rs lo hi sn (k : text -> text -> option R) r,
    rep_lazy ok lo hi sn rs k = Some r ->
    exists w rs', rs = w ++ rs' /\ forallb ok w = true /\ lo <= length w
                  /\ k (rev w ++ sn) rs' = Some r
                  /\ forall u v, w = u ++ v -> v <> [] -> lo <= length u ->
                                 k (rev u ++ sn) (v ++ rs') = None.
Proof.
  induction rs as [|c rs IH]; intros lo hi sn k r H; simpl in H.
  - destruct lo; [|discriminate].
    destruct (k sn []) eqn:E; [|discriminate].
    inversion H; subst. exists [], []. repeat split; auto.
    intros u v E' Hv. destruct u; destruct v; try discriminate. congruence.
  - assert (Hmore : (lo = 0 -> k sn (c :: rs) = None) ->
                    (if ok c && may_more hi
                     then rep_lazy ok (Nat.pred lo) (less hi) (c :: sn) rs k
                     else None) = Some r ->
                    exists w rs', c :: rs = w ++ rs' /\ forallb ok w = true
                                  /\ lo <= length w /\ k (rev w ++ sn) rs' = Some r
                                  /\ forall u v, w = u ++ v -> v <> [] ->
                                       lo <= length u ->
                                       k (rev u ++ sn) (v ++ rs') = None).
    { intros H0 Hm. destruct (ok c && may_more hi) eqn:E; [|discriminate].
      apply IH in Hm. destruct Hm as (w & rs' & -> & Hw & Hlo & Hk & Hmin).
      apply andb_prop in E as [Hc _].
      exists (c :: w), rs'. simpl. rewrite Hc, Hw.
      split; [reflexivity|]. split; [reflexivity|]. split; [lia|].
      split; [rewrite <- app_assoc; exact Hk|].
      intros u v E Hv Hu. destruct u as [|x u].
      - simpl in E. subst v. simpl. apply H0. simpl in Hu. lia.
      - simpl in E. inversion E; subst. simpl. rewrite <- app_assoc.
        apply Hmin; auto. simpl in Hu. lia. }
    destruct lo; [|apply Hmore; [discriminate|exact H]].
    destruct (k sn (c :: rs)) eqn:E; [|apply Hmore; auto].
    inversion H; subst. exists [], (c :: rs). repeat split; auto.
    intros u v E' Hv. destruct u; destruct v; try discriminate. congruence.
Qed.
End LoopBounds.

Lemma between_from : forall z w rs c,
  between z (Cursor (rev w ++ seen z) rs c) = w.
Proof. intros [sn rs0 c0] w rs c. apply between_cursor. Qed.

Lemma header_run_inv : forall z k res,
  run header_flags header_pattern z k = Some res ->
  exists marks ws1 t ws2 ws3 rs,
    rest z = (marks ++ ws1 ++ t ++ ws2 ++ marks ++ ws3) ++ rs
    /\ forallb is_eq_sign marks = true /\ 2 <= length marks <= 6
    /\ t <> [] /\ forallb dot t = true
    /\ forallb unicode_isspace ws1 = true
    /\ forallb unicode_isspace ws2 = true
    /\ forallb unicode_isspace ws3 = true
    /\ k (Cursor (rev (marks ++ ws1 ++ t ++ ws2 ++ marks ++ ws3) ++ seen z) rs
                 ((2, t) :: (1, marks) :: caps z)) = Some res.
Proof.
  intros z k res H. unfold header_pattern, ws_star in H. cbn [run] in H.
  destruct (at_bol header_flags z); [|discriminate].
  apply rep_greedy_inv_hi in H. destruct H as (g1 & r1 & E1 & O1 & L1 & U1 & H).
  cbn beta in H. rewrite between_from in H. cbn [seen rest caps] in H.
  apply rep_greedy_inv in H. destruct H as (ws1 & r2 & E2 & O2 & _ & H).
  cbn beta in H.
  apply rep_lazy_inv in H. destruct H as (t & r3 & E3 & O3 & L3 & H).
  cbn beta in H. rewrite between_cursor in H. cbn [seen rest caps] in H.
  apply rep_greedy_inv in H. destruct H as (ws2 & r4 & E4 & O4 & _ & H).
  cbn beta in H. cbn [group Nat.eqb] in H.
  destruct (strip_prefix g1 r4) as [r5|] eqn:E5; [|discriminate].
  apply strip_prefix_app in E5. cbn [seen rest caps] in H.
  apply rep_greedy_inv in H. destruct H as (ws3 & r6 & E6 & O6 & _ & H).
  cbn beta in H.
  destruct (at_eol header_flags _); [|discriminate].
  exists g1, ws1, t, ws2, ws3, r6.
  split; [subst; rewrite E1, <- !app_assoc; reflexivity|].
  split; [exact O1|]. split; [simpl in U1; lia|].
  split; [destruct t; [simpl in L3; lia|discriminate]|].
  split; [exact O3|]. split; [exact O2|]. split; [exact O4|]. split; [exact O6|].
  rewrite !rev_app_distr, <- !app_assoc. exact H.
Qed.

Lemma forallb_app_true : forall (p : char -> bool) a b,
  forallb p a = true -> forallb p b = true -> forallb p (a ++ b) = true.
Proof. intros p a b Ha Hb. rewrite forallb_app, Ha, Hb. reflexivity. Qed.

(** [strip] cuts whitespace off both ends and stops at the first
    character that is none. *)
Lemma strip_split : forall t,
  exists b1 b2,
    t = b1 ++ strip t ++ b2 /\ forallb unicode_isspace b1 = true
    /\ forallb unicode_isspace b2 = true /\ bare (strip t).
Proof.
  intros t. unfold strip.
  destruct (lstrip_by_split unicode_isspace t) as (b1 & E1 & O1 & S1).
  destruct (rstrip_by_split unicode_isspace (lstrip_by unicode_isspace t))
    as (b2 & E2 & O2 & S2).
  exists b1, b2. split; [rewrite <- E2; exact E1|].
  split; [exact O1|]. split; [exact O2|]. split; [|exact S2].
  destruct (rstrip_by unicode_isspace (lstrip_by unicode_isspace t)) as [|c u];
    [exact I|].
  rewrite E2 in S1. exact S1.
Qed.

Lemma section_upto_shape : forall doc m stop c,
  is_match header_flags header_pattern doc m ->
  section_shape (section_upto doc m stop c).
Proof.
  intros doc m stop c (must & z & z' & -> & Hc & Hrun & _).
  apply header_run_inv in Hrun.
  destruct Hrun as (marks & ws1 & t & ws2 & ws3 & rs & Er & Om & Lm & Ht & Ot
                    & O1 & O2 & O3 & Hk).
  unfold accept in Hk. destruct (must && _); [discriminate|].
  inversion Hk; subst z'. clear Hk.
  destruct (strip_split t) as (b1 & b2 & Et & Ob1 & Ob2 & Hbare).
  unfold section_upto, section_shape, m_group, mk_match.
  cbn [level title header_text m_caps m_whole caps group Nat.eqb opt_text].
  rewrite between_from.
  exists marks, (ws1 ++ b1), (b2 ++ ws2), ws3.
  split; [rewrite Et at 1; rewrite <- !app_assoc; reflexivity|].
  split; [exact Om|]. split; [reflexivity|]. split; [exact Lm|].
  split; [apply forallb_app_true; assumption|].
  split; [apply forallb_app_true; assumption|].
  split; [exact O3|]. split.
  - rewrite Et, !forallb_app in Ot.
    apply andb_prop in Ot as [_ Ot]. apply andb_prop in Ot as [Ot _]. exact Ot.
  - split; [exact Hbare|].
    intros E. apply (f_equal (@length char)) in E.
    assert (Hl : 0 < length t) by (destruct t; [congruence|simpl; lia]).
    rewrite Et in Hl. rewrite !length_app in Hl. repeat rewrite length_app in E. simpl in E. lia.
Qed.

Lemma sections_of_shape : forall doc ms,
  Forall (is_match header_flags header_pattern doc) ms ->
  Forall section_shape (sections_of doc ms).
Proof.
  intros doc ms H. induction H as [|m ms Hm _ IH]; simpl; constructor; auto.
  apply section_upto_shape. exact Hm.
Qed.

(** X10. [parse_sections] raises nothing, and the header text of every
    section it returns is: two to six equals signs, whitespace, the title,
    whitespace, the same equals signs, whitespace.  The level is the number
    of the equals signs; the title holds no line feed and has no whitespace
    at either end; it may be empty, but then whitespace stands between the
    equals signs. *)
Theorem parse_sections_header_shape : forall doc,
  match parse_sections doc with
  | Ok secs => Forall section_shape secs
  | Raise _ => False
  end.
Proof.
  intros doc. rewrite parse_sections_eq. apply sections_of_shape.
  apply re_finditer_chained.
Qed.

Lemma eq_signs_begin : forall marks,
  forallb is_eq_sign marks = true -> 2 <= length marks ->
  exists marks', marks = str "==" ++ marks'.
Proof.
  intros [|a [|b marks]] H L; simpl in L; try lia.
  simpl in H. apply andb_prop in H as [Ha H]. apply andb_prop in H as [Hb _].
  apply Z.eqb_eq in Ha, Hb. subst. exists marks. reflexivity.
Qed.

(** X11. A text that nowhere holds two equals signs in a row has no
    sections; so a section found shows two equals signs in the text. *)
Theorem sections_need_marks : forall doc,
  match parse_sections doc with
  | Ok [] => True
  | Ok (_ :: _) => has_marks doc
  | Raise _ => False
  end.
Proof.
  intros doc. rewrite parse_sections_eq.
  destruct (re_finditer_chained header_flags header_pattern doc) as (Hc & _ & Hm).
  destruct (re_finditer header_flags header_pattern doc) as [|m ms]; [exact I|].
  cbn [sections_of]. inversion Hm as [|? ? H1 _]; subst.
  inversion Hc as [|? ? ? _ L1 L2 Hw _]; subst.
  pose proof (@section_upto_shape doc m 0 [] H1)
    as (marks & ws1 & ws2 & ws3 & Eh & Om & Lv & Lm & _).
  cbn [section_upto header_text level] in Eh, Lv, Lm.
  rewrite Lv in Lm. destruct (eq_signs_begin _ Om (proj1 Lm)) as (marks' & ->).
  assert (Hd : doc = firstn (m_start m) doc ++ m_whole m ++ skipn (m_end m) doc).
  { rewrite Hw, <- slice_split by exact L1. symmetry. apply firstn_skipn. }
  rewrite Eh in Hd. rewrite <- !app_assoc in Hd.
  eexists. eexists. exact Hd.
Qed.

(** ** The filenames that the pattern accepts *)

Lemma lits_exact : forall t u,
  Forall2 (fun x c => atom_ok no_flags (Lit x) c = true) t u -> u = t.
Proof.
  intros t u H. induction H as [|x c t u Hc _ IH]; [reflexivity|].
  cbn [atom_ok IGNORECASE no_flags] in Hc. apply Z.eqb_eq in Hc. congruence.
Qed.

Lemma run_word_inv : forall t z k res,
  run no_flags (lits t) z k = Some res ->
  exists rs, rest z = t ++ rs /\ k (Cursor (rev t ++ seen z) rs (caps z)) = Some res.
Proof.
  intros t z k res H. apply run_lits_inv in H.
  destruct H as (u & rs & E & F & H). apply lits_exact in F. subst u. eauto.
Qed.

Lemma extension_alt_inv : forall z k res,
  run no_flags extension_alt z k = Some res ->
  exists ext rs,
    In ext LL_EXTENSIONS /\ rest z = ext ++ rs
    /\ k (Cursor (rev ext ++ seen z) rs (caps z)) = Some res.
Proof.
  intros z k res H. unfold extension_alt in H. cbn [run] in H.
  destruct (run no_flags (lits (str "wav")) z k) eqn:E1.
  { inversion H; subst. apply run_word_inv in E1. destruct E1 as (rs & ? & ?).
    exists (str "wav"), rs. simpl; auto. }
  destruct (run no_flags (lits (str "ogg")) z k) eqn:E2.
  { inversion H; subst. apply run_word_inv in E2. destruct E2 as (rs & ? & ?).
    exists (str "ogg"), rs. simpl; auto. }
  destruct (run no_flags (lits (str "mp3")) z k) eqn:E3.
  { inversion H; subst. apply run_word_inv in E3. destruct E3 as (rs & ? & ?).
    exists (str "mp3"), rs. simpl; auto. }
  apply run_word_inv in H. destruct H as (rs & ? & ?).
  exists (str "flac"), rs. simpl; auto 6.
Qed.

Lemma nonempty_length : forall (w : text), 1 <= length w -> w <> [].
Proof. intros [|c w] H; [simpl in H; lia|discriminate]. Qed.

(** The pattern behind the speaker, read backwards from a success. *)
Lemma word_and_extension_inv : forall z k res,
  run no_flags word_and_extension z k = Some res ->
  exists word ext tail,
    rest z = str "-" ++ word ++ str "." ++ ext ++ tail
    /\ word <> [] /\ forallb dot word = true /\ In ext LL_EXTENSIONS
    /\ (tail = [] \/ tail = [NL])
    /\ k (Cursor (rev (str "-" ++ word ++ str "." ++ ext) ++ seen z) tail
                 ((3, ext) :: (2, word) :: caps z)) = Some res.
Proof.
  intros z k res H. unfold word_and_extension in H.
  change (run no_flags (lits (str "-"))  z
            (fun z1 => run no_flags (Rep (Cls dot) 1 None true) z1
               (fun z2 => run no_flags (lits (str "."))
                  (Cursor (seen z2) (rest z2) ((2, between z1 z2) :: caps z2))
                  (fun z3 => run no_flags extension_alt z3
                     (fun z4 => run no_flags Eol
                        (Cursor (seen z4) (rest z4) ((3, between z3 z4) :: caps z4))
                        k)))) = Some res) in H.
  apply run_word_inv in H. destruct H as (r1 & E1 & H).
  apply run_rep_inv in H. destruct H as (word & r2 & E2 & Ow & Lw & H).
  cbn [seen rest caps] in *. rewrite between_cursor in H.
  apply run_word_inv in H. destruct H as (r3 & E3 & H).
  cbn [seen rest caps] in *.
  apply extension_alt_inv in H. destruct H as (ext & r4 & He & E4 & H).
  cbn [seen rest caps] in *. rewrite between_cursor in H.
  cbn [run] in H.
  destruct (at_eol no_flags _) eqn:Eeol; [|discriminate].
  unfold at_eol in Eeol. cbn [rest MULTILINE no_flags orb] in Eeol.
  exists word, ext, r4. subst r1 r2 r3.
  split; [exact E1|]. split; [apply nonempty_length; exact Lw|].
  split; [exact Ow|]. split; [exact He|]. split.
  - destruct r4 as [|c [|d r4]]; auto; try (rewrite andb_false_r in Eeol; discriminate).
    apply andb_prop in Eeol as [Ec _]. apply Z.eqb_eq in Ec. subst c. auto.
  - match goal with
    | H : k (Cursor ?a _ _) = _ |- k (Cursor ?b _ _) = _ =>
        replace b with a; [exact H|]
    end.
    rewrite !rev_app_distr, <- !app_assoc. reflexivity.
Qed.

(** The dot, the extension and the end of the name, with or without a
    last line feed. *)
Lemma extension_run : forall ext tail sn cs,
  In ext LL_EXTENSIONS -> tail = [] \/ tail = [NL] ->
  run no_flags (lits (str ".") >> Grp 3 extension_alt >> Eol)
      (Cursor sn (str "." ++ ext ++ tail) cs) Some
  = Some (Cursor (rev ext ++ 46%Z :: sn) tail ((3, ext) :: cs)).
Proof.
  intros ext tail sn cs H Ht.
  assert (Hb : forall w, between (Cursor (46%Z :: sn) (w ++ tail) cs)
                                 (Cursor (rev w ++ 46%Z :: sn) tail cs) = w)
    by (intros; apply between_cursor).
  destruct Ht as [-> | ->];
    destruct H as [<-|[<-|[<-|[<-|[]]]]].
  - specialize (Hb (str "wav")). simpl. do 4 f_equal. exact Hb.
  - specialize (Hb (str "ogg")). simpl. do 4 f_equal. exact Hb.
  - specialize (Hb (str "mp3")). simpl. do 4 f_equal. exact Hb.
  - specialize (Hb (str "flac")). simpl. do 4 f_equal. exact Hb.
  - specialize (Hb (str "wav")). simpl. do 4 f_equal. exact Hb.
  - specialize (Hb (str "ogg")). simpl. do 4 f_equal. exact Hb.
  - specialize (Hb (str "mp3")). simpl. do 4 f_equal. exact Hb.
  - specialize (Hb (str "flac")). simpl. do 4 f_equal. exact Hb.
Qed.

Lemma extension_no_dot : forall ext tail u v,
  In ext LL_EXTENSIONS -> tail = [] \/ tail = [NL] ->
  str "." ++ ext ++ tail = u ++ v -> u <> [] ->
  match v with [] => True | c :: _ => c <> 46%Z end.
Proof.
  intros ext tail u v H Ht E Hu.
  assert (Hf : Forall (fun c => c <> 46%Z) (ext ++ tail)).
  { apply Forall_app. split.
    - destruct H as [<-|[<-|[<-|[<-|[]]]]]; repeat constructor; discriminate.
    - destruct Ht as [-> | ->]; repeat constructor; discriminate. }
  destruct u as [|c u]; [congruence|].
  simpl in E. inversion E as [[Hc He]]. rewrite He in Hf.
  apply Forall_app in Hf as [_ Hv].
  destruct v; [exact I|]. inversion Hv; auto.
Qed.

(** The pattern behind the speaker succeeds on a hyphen, a word, a dot
    and an extension. *)
Lemma word_and_extension_run : forall sn cs W ext tail,
  W <> [] -> forallb dot W = true -> In ext LL_EXTENSIONS ->
  tail = [] \/ tail = [NL] ->
  run no_flags word_and_extension
      (Cursor sn (str "-" ++ W ++ str "." ++ ext ++ tail) cs) Some
  <> None.
Proof.
  intros sn cs W ext tail HW HWok Hext Ht. unfold word_and_extension.
  change (str "-") with [45%Z].
  cbn [lits run rest app atom_ok IGNORECASE no_flags seen caps].
  rewrite Z.eqb_refl.
  erewrite rep_greedy_first; [discriminate|exact HWok| | |].
  - destruct W; [congruence|simpl; lia].
  - cbn beta. rewrite between_cursor.
    apply (@extension_run ext tail _ _ Hext Ht).
  - intros u v E Hu Hok. cbn beta. apply dot_fail. cbn [rest].
    exact (@extension_no_dot ext tail u v Hext Ht E Hu).
Qed.

(** The first character that is no speaker character. *)
Lemma first_hyphen : forall S,
  forallb dot S = true -> forallb speaker_char S = false ->
  exists S1 S2, S = S1 ++ 45%Z :: S2.
Proof.
  induction S as [|x S IH]; intros Hd Hs; simpl in *; [discriminate|].
  apply andb_prop in Hd as [Hx Hd].
  destruct (speaker_char x) eqn:Ex; simpl in Hs.
  - destruct (IH Hd Hs) as (S1 & S2 & ->). exists (x :: S1), S2. reflexivity.
  - unfold speaker_char in Ex. rewrite Hx in Ex. simpl in Ex.
    apply negb_false_iff, Z.eqb_eq in Ex. subst x. exists [], S. reflexivity.
Qed.

(** The speaker, the word and the extension, read backwards from a
    success: the speaker ends at the first hyphen behind its first
    character. *)
Lemma speaker_inv : forall sp rs res,
  run no_flags (Grp 1 (Rep (Cls dot) 1 None false) >> word_and_extension)
      (Cursor sp rs []) Some = Some res ->
  exists c S word ext tail,
    rs = (c :: S) ++ str "-" ++ word ++ str "." ++ ext ++ tail
    /\ dot c = true /\ forallb speaker_char S = true
    /\ word <> [] /\ forallb dot word = true /\ In ext LL_EXTENSIONS
    /\ (tail = [] \/ tail = [NL])
    /\ caps res = [(3, ext); (2, word); (1, c :: S)].
Proof.
  intros sp rs res H.
  change (rep_lazy dot 1 None sp rs
            (fun sn' rs' =>
               run no_flags word_and_extension
                   (Cursor sn' rs'
                      [(1, between (Cursor sp rs []) (Cursor sn' rs' []))])
                   Some) = Some res) in H.
  apply rep_lazy_least in H.
  destruct H as (w & rs' & -> & Ow & Lw & H & Hmin).
  cbn beta in H. rewrite between_cursor in H.
  apply word_and_extension_inv in H.
  destruct H as (word & ext & tail & Er & Hw & Owd & He & Ht & Hk).
  cbn [seen rest caps] in *. inversion Hk; subst res. clear Hk.
  destruct w as [|c S]; [simpl in Lw; lia|].
  simpl in Ow. apply andb_prop in Ow as [Oc OS].
  exists c, S, word, ext, tail. subst rs'.
  split; [reflexivity|]. split; [exact Oc|]. split; [|auto 8].
  destruct (forallb speaker_char S) eqn:ES; [reflexivity|exfalso].
  destruct (first_hyphen _ OS ES) as (S1 & S2 & ->).
  rewrite forallb_app in OS. apply andb_prop in OS as [_ O2].
  change (forallb dot S2 = true) in O2.
  specialize (Hmin (c :: S1) (45%Z :: S2) eq_refl).
  cbn beta in Hmin.
  refine (@word_and_extension_run _ _ (S2 ++ str "-" ++ word) ext tail
            _ _ He Ht _).
  - destruct S2; discriminate.
  - rewrite forallb_app. apply andb_true_intro. split; [exact O2|exact Owd].
  - rewrite <- Hmin; [|discriminate|simpl; lia].
    simpl. rewrite <- !app_assoc. reflexivity.
Qed.

Section FilenameShape.
Variable unicode_isdigit : char -> bool.

(** The pattern up to the speaker, read backwards from a success. *)
Lemma filename_prefix_inv : forall r f k res,
  run no_flags
      (Bol >> lits (str "LL-Q") >> Rep (Cls unicode_isdigit) 1 None true
       >> ws_star >> lits (str "(")
       >> Rep (Cls (in_range 97%Z 122%Z)) 3 (Some 3) true
       >> lits (str ")-") >> r)
      (Cursor [] f []) k = Some res ->
  exists digits ws lang rs sp,
    f = str "LL-Q" ++ digits ++ ws ++ str "(" ++ lang ++ str ")-" ++ rs
    /\ digits <> [] /\ forallb unicode_isdigit digits = true
    /\ forallb unicode_isspace ws = true
    /\ length lang = 3 /\ forallb (in_range 97%Z 122%Z) lang = true
    /\ run no_flags r (Cursor sp rs []) k = Some res.
Proof.
  intros r f k res H. unfold ws_star in H. cbn [run at_bol seen] in H.
  apply run_word_inv in H. destruct H as (r1 & E1 & H).
  cbn [seen rest caps] in *.
  apply rep_greedy_inv in H. destruct H as (digits & r2 & E2 & Od & Ld & H).
  cbn beta in H.
  apply rep_greedy_inv in H. destruct H as (ws & r3 & E3 & Ows & _ & H).
  cbn beta in H.
  apply run_word_inv in H. destruct H as (r4 & E4 & H).
  cbn [seen rest caps] in *.
  apply rep_greedy_inv_hi in H. destruct H as (lang & r5 & E5 & Ol & Ll & Ul & H).
  cbn beta in H.
  apply run_word_inv in H. destruct H as (r6 & E6 & H).
  cbn [seen rest caps] in *.
  exists digits, ws, lang, r6. eexists.
  split; [subst; reflexivity|].
  split; [apply nonempty_length; exact Ld|]. split; [exact Od|].
  split; [exact Ows|]. split; [simpl in Ul; lia|]. split; [exact Ol|exact H].
Qed.

Lemma filename_match_inv : forall f m,
  LL_FILENAME_match unicode_isdigit f = Some m ->
  exists speaker word ext,
    m_group 1 m = Some speaker /\ m_group 2 m = Some word
    /\ m_group 3 m = Some ext
    /\ filename_shape unicode_isdigit f speaker word ext.
Proof.
  intros f m H. unfold LL_FILENAME_match, re_match in H.
  destruct (run no_flags (LL_FILENAME_REGEX unicode_isdigit) (Cursor [] f []) Some)
    as [res|] eqn:E; [|discriminate].
  cbn [option_map] in H. inversion H; subst m. clear H.
  unfold LL_FILENAME_REGEX in E.
  apply filename_prefix_inv in E.
  destruct E as (digits & ws & lang & rs & sp & Ef & Hd & Od & Ows & Ll & Ol & E).
  apply speaker_inv in E.
  destruct E as (c & S & word & ext & tail & Er & Oc & OS & Hw & Ow & He & Ht & Hc).
  exists (c :: S), word, ext.
  unfold m_group. cbn [mk_match m_caps]. rewrite Hc.
  split; [reflexivity|]. split; [reflexivity|]. split; [reflexivity|].
  exists digits, ws, lang, c, S, tail. subst rs.
  split; [exact Ef|]. auto 12.
Qed.

(** X13. What the filename pattern accepts.  Every filename that
    [LL_FILENAME_REGEX] matches is: LL-Q, decimal digits, whitespace, a
    parenthesis with three small letters, a hyphen, the speaker, a hyphen,
    the word, a dot and one of the four extensions, with at most one line
    feed behind it.  The three groups are set; the speaker capture is one
    character followed by characters that are no hyphens, the word capture
    is not empty, and neither holds a line feed. *)
Theorem filename_match_shape : forall f,
  match LL_FILENAME_match unicode_isdigit f with
  | Some m =>
      exists speaker word ext,
        filename_groups m = Some (speaker, word, ext)
        /\ filename_shape unicode_isdigit f speaker word ext
  | None => True
  end.
Proof.
  intros f. destruct (LL_FILENAME_match unicode_isdigit f) as [m|] eqn:E;
    [|exact I].
  destruct (@filename_match_inv f m E) as (speaker & word & ext & G1 & G2 & G3 & S).
  exists speaker, word, ext. unfold filename_groups. rewrite G1, G2, G3. auto.
Qed.
End FilenameShape.

(** ** What the editor leaves alone *)

(** X12. The editor only inserts.  When it returns a new text, the page
    is [a], some line feeds and [b], and the new text is [a], the inserted
    lines and [b]: no character of the page other than line feeds at the
    place of the insertion is dropped or changed.  It returns the
    no-change result only for a page that has audio, and raises nothing. *)
Theorem editor_only_inserts : forall doc f,
  match add_pronunciation_to_page doc f with
  | Ok (Some new) =>
      exists a nls ins b,
        doc = a ++ nls ++ b /\ forallb is_nl nls = true
        /\ new = a ++ ins ++ b /\ inserted f ins
  | Ok None => page_has_audio doc = true
  | Raise _ => False
  end.
Proof.
  intros doc f. unfold add_pronunciation_to_page.
  destruct (page_has_audio doc); [reflexivity|].
  rewrite parse_sections_eq. cbn [bind].
  destruct (find_pronunciation_section _) as [sec|].
  - match goal with
    | |- context [slice_to doc ?p] =>
        exists (slice_to doc p), [], (build_audio_line f ++ [NL]), (slice_from doc p);
        split; [symmetry; apply firstn_skipn|]
    end.
    split; [reflexivity|]. split; [rewrite <- !app_assoc; reflexivity|].
    left. reflexivity.
  - destruct (sections_of doc _) as [|first secs];
      cbn [is_empty nonempty negb first_item bind].
    + destruct (rstrip_by_split is_nl doc) as (nls & E & O & _).
      exists (rstrip_nl doc), nls, ([NL; NL] ++ new_section_lines f ++ [NL]), [].
      split; [rewrite app_nil_r; exact E|]. split; [exact O|]. split.
      * unfold new_section_lines, pron_header_line.
        rewrite <- !app_assoc. reflexivity.
      * right. exists [NL; NL]. auto.
    + destruct (rstrip_by_split is_nl (slice_to doc (start_pos first)))
        as (nls & E & O & _).
      assert (Hd : doc = rstrip_nl (slice_to doc (start_pos first)) ++ nls
                         ++ slice_from doc (start_pos first)).
      { unfold rstrip_nl. rewrite app_assoc, <- E. symmetry. apply firstn_skipn. }
      destruct (rstrip_nl (slice_to doc (start_pos first))) as [|c pre] eqn:Ep;
        cbn [is_empty nonempty negb].
      * exists [], nls, ([NL] ++ new_section_lines f ++ [NL]),
               (slice_from doc (start_pos first)).
        split; [exact Hd|]. split; [exact O|]. split.
        -- unfold new_section_lines, pron_header_line.
           rewrite <- !app_assoc. reflexivity.
        -- right. exists [NL]. auto.
      * exists (c :: pre), nls, ([NL; NL] ++ new_section_lines f ++ [NL]),
               (slice_from doc (start_pos first)).
        split; [exact Hd|]. split; [exact O|]. split.
        -- unfold new_section_lines, pron_header_line.
           rewrite <- !app_assoc. reflexivity.
        -- right. exists [NL; NL]. auto.
Qed.

(** ** The sources of recordings *)

Lemma strip_prefix_some : forall t s r, strip_prefix t s = Some r -> s = t ++ r.
Proof.
  induction t as [|x t IH]; intros [|y s] r H; simpl in H;
    try discriminate; try (inversion H; reflexivity).
  destruct (Z.eqb_spec x y); [|discriminate].
  subst. simpl. f_equal. apply IH. exact H.
Qed.

(** The prefix [File:] goes, and nothing else. *)
Lemma bare_filename_title : forall title,
  title = str "File:" ++ bare_filename title \/ title = bare_filename title.
Proof.
  intros title. unfold bare_filename, startswith.
  destruct (strip_prefix (str "File:") title) as [r|] eqn:E;
    cbn [is_some]; [left|right; reflexivity].
  destruct title as [|c title]; [discriminate|].
  cbn [replace_first]. rewrite E. apply strip_prefix_some in E. exact E.
Qed.

Section SourcesFacts.
Variable unicode_isdigit : char -> bool.

Lemma match_recording : forall title m,
  LL_FILENAME_match unicode_isdigit (bare_filename title) = Some m ->
  exists speaker word ext,
    m_group 1 m = Some speaker /\ m_group 2 m = Some word
    /\ filename_shape unicode_isdigit (bare_filename title) speaker word ext.
Proof.
  intros title m H.
  destruct (@filename_match_inv unicode_isdigit _ _ H)
    as (speaker & word & ext & G1 & G2 & _ & S).
  eauto 6.
Qed.

Lemma member_step_inv : forall results count member results' count',
  member_step unicode_isdigit (results, count) member = (results', count') ->
  (results' = results /\ count' = count)
  \/ (exists r, results' = results ++ [r] /\ count' = (count + 1)%Z
                /\ from_member unicode_isdigit member r).
Proof.
  intros results count member results' count' H. unfold member_step in H.
  destruct (LL_FILENAME_match _ _) as [m|] eqn:E.
  - right. inversion H; subst. eexists. split; [reflexivity|].
    split; [reflexivity|].
    destruct (match_recording _ E) as (speaker & word & ext & G1 & G2 & S).
    rewrite G1, G2. cbn [opt_text].
    split; [|reflexivity]. split; [apply bare_filename_title|].
    exists ext. exact S.
  - left. inversion H; auto.
Qed.

(** The loop over the members of a batch. *)
Lemma members_loop : forall members results count results' count',
  fold_left (member_step unicode_isdigit) members (results, count)
  = (results', count') ->
  exists new,
    results' = results ++ new
    /\ count' = (count + Z.of_nat (length new))%Z
    /\ length new <= length members
    /\ Forall (fun r => exists member,
                 In member members /\ from_member unicode_isdigit member r) new.
Proof.
  induction members as [|member members IH]; intros results count results' count' H;
    cbn [fold_left] in H.
  - inversion H; subst. exists []. rewrite app_nil_r. simpl.
    repeat split; auto; lia.
  - destruct (member_step unicode_isdigit (results, count) member)
      as [results1 count1] eqn:E.
    apply member_step_inv in E. apply IH in H.
    destruct H as (new & -> & -> & L & F).
    assert (F' : Forall (fun r => exists member0,
                   In member0 (member :: members)
                   /\ from_member unicode_isdigit member0 r) new).
    { eapply Forall_impl; [|exact F]. intros r (m0 & Hin & Hm).
      exists m0. split; [right; exact Hin|exact Hm]. }
    destruct E as [[-> ->]|(r & -> & -> & Hr)].
    + exists new. simpl. repeat split; auto.
    + exists (r :: new). rewrite <- app_assoc. simpl length.
      split; [reflexivity|]. split; [lia|]. split; [lia|].
      constructor; [|exact F']. exists member. split; [left; reflexivity|exact Hr].
Qed.

(** The loop over the batches. *)
Lemma commons_batches_inv : forall limit answers results count asked,
  let out := commons_batches unicode_isdigit limit answers results count asked in
  exists new asked',
    fst (fst out) = results ++ new
    /\ snd (fst out) = (count + Z.of_nat (length new))%Z
    /\ snd out = asked ++ asked'
    /\ Forall (fun r => exists member,
                 In member (flat_map members_of answers)
                 /\ from_member unicode_isdigit member r) new
    /\ (forall l, limit = Some l -> (0 < l)%Z -> (count <= l)%Z ->
        honoured asked' ->
        (count + Z.of_nat (length new) <= l)%Z
        /\ (count < l -> Forall (fun p => 1 <= fst p <= 500)%Z asked')%Z).
Proof.
  intros limit. induction answers as [|a answers IH]; intros results count asked out.
  - exists [], []. subst out. simpl. rewrite !app_nil_r.
    repeat split; auto; try lia.
  - destruct a as [|members continue_].
    + exists [], []. subst out. simpl. rewrite !app_nil_r.
      repeat split; auto; try lia.
    + subst out. cbn [commons_batches].
      destruct (fold_left (member_step unicode_isdigit) members (results, count))
        as [results1 count1] eqn:E.
      apply members_loop in E. destruct E as (new1 & -> & -> & L1 & F1).
      assert (F1' : Forall (fun r => exists member,
                      In member (flat_map members_of (Data members continue_ :: answers))
                      /\ from_member unicode_isdigit member r) new1).
      { eapply Forall_impl; [|exact F1]. intros r (m0 & Hin & Hm).
        exists m0. split; [|exact Hm]. cbn [flat_map members_of].
        apply in_or_app. left. exact Hin. }
      assert (Hstop : exists new asked',
                results ++ new1 = results ++ new
                /\ (count + Z.of_nat (length new1))%Z
                   = (count + Z.of_nat (length new))%Z
                /\ asked ++ [(cmlimit_of limit count, length members)]
                   = asked ++ asked'
                /\ Forall (fun r => exists member,
                     In member (flat_map members_of (Data members continue_ :: answers))
                     /\ from_member unicode_isdigit member r) new
                /\ (forall l, limit = Some l -> (0 < l)%Z -> (count <= l)%Z ->
                    honoured asked' ->
                    (count + Z.of_nat (length new) <= l)%Z
                    /\ (count < l -> Forall (fun p => 1 <= fst p <= 500)%Z asked')%Z)).
      { exists new1, [(cmlimit_of limit count, length members)].
        split; [reflexivity|]. split; [reflexivity|]. split; [reflexivity|].
        split; [exact F1'|].
        intros l -> Hl Hc Hh. inversion Hh as [|? ? Hm _]; subst.
        cbn [fst snd] in Hm. unfold cmlimit_of, has_limit in *.
        destruct (Z.eqb_spec l 0); [lia|]. cbn [negb] in *.
        split; [lia|]. intros Hlt. repeat constructor; cbn [fst]; lia. }
      destruct (is_some continue_ && room_left limit _) eqn:Ego; [|exact Hstop].
      destruct (limit_reached limit _) eqn:Elim; [exact Hstop|].
      cbn [fst snd].
      specialize (IH (results ++ new1) (count + Z.of_nat (length new1))%Z
                     (asked ++ [(cmlimit_of limit count, length members)])).
      cbn zeta in IH.
      destruct IH as (new2 & asked2 & E1 & E2 & E3 & F2 & B2).
      exists (new1 ++ new2), ((cmlimit_of limit count, length members) :: asked2).
      rewrite E1, E2, E3, <- !app_assoc, length_app.
      split; [reflexivity|]. split; [lia|]. split; [reflexivity|]. split.
      * apply Forall_app. split; [exact F1'|].
        eapply Forall_impl; [|exact F2]. intros r (m0 & Hin & Hm).
        exists m0. split; [|exact Hm]. cbn [flat_map members_of].
        apply in_or_app. right. exact Hin.
      * intros l -> Hl Hc Hh. inversion Hh as [|? ? Hm Hh2]; subst.
        cbn [fst snd] in Hm.
        apply andb_prop in Ego as [_ Eroom]. cbn [room_left] in Eroom.
        apply Z.ltb_lt in Eroom.
        assert (Hcm : (cmlimit_of (Some l) count <= l - count)%Z).
        { unfold cmlimit_of, has_limit.
          destruct (Z.eqb_spec l 0); [lia|]. cbn [negb]. lia. }
        destruct (B2 l eq_refl Hl) as [B2a B2b]; [lia|exact Hh2|].
        split; [lia|]. intros Hlt. constructor; [|apply B2b; exact Eroom].
        cbn [fst]. unfold cmlimit_of, has_limit.
        destruct (Z.eqb_spec l 0); [lia|]. cbn [negb]. lia.
Qed.

(** X14. Whatever Commons answers, every recording that
    [query_commons_for_files] returns is made of a member of the category
    that was listed: its filename is the title of the member, without the
    prefix [File:] when the title has it; the filename is one that the
    pattern accepts, and the speaker and the word of the recording are the
    parts of the filename that the pattern captures; the date is the
    timestamp of the member. *)
Theorem commons_recordings_from_members : forall limit answers,
  Forall (fun r => exists member,
            In member (flat_map members_of answers)
            /\ from_member unicode_isdigit member r)
         (query_commons_for_files unicode_isdigit limit answers).
Proof.
  intros limit answers. unfold query_commons_for_files.
  destruct (commons_batches_inv limit answers [] 0%Z [])
    as (new & asked' & E & _ & _ & F & _).
  rewrite E. exact F.
Qed.

(** X15. With a positive limit and a server that gives no more members
    than the [cmlimit] asked, [query_commons_for_files] returns no more
    recordings than the limit, and every request asks for at least one
    member and at most 500. *)
Theorem commons_limit_kept : forall l answers,
  (0 < l)%Z ->
  let out := commons_batches unicode_isdigit (Some l) answers [] 0%Z [] in
  honoured (snd out) ->
  (Z.of_nat (length (query_commons_for_files unicode_isdigit (Some l) answers))
   <= l)%Z
  /\ Forall (fun p => 1 <= fst p <= 500)%Z (snd out).
Proof.
  intros l answers Hl out Hh. unfold query_commons_for_files. fold out.
  destruct (commons_batches_inv (Some l) answers [] 0%Z [])
    as (new & asked' & E & _ & Ea & _ & B).
  fold out in E, Ea. cbn [app] in E, Ea. rewrite Ea in Hh |- *. rewrite E.
  destruct (B l eq_refl Hl) as [B1 B2]; [lia|exact Hh|].
  split; [lia|]. apply B2. exact Hl.
Qed.

Lemma first_hit_inv : forall word titles r,
  first_hit unicode_isdigit word titles = Some r ->
  rec_word r = word /\ rec_date r = []
  /\ exists sr, In sr titles /\ from_title unicode_isdigit (opt_text sr) r.
Proof.
  intros word. induction titles as [|sr titles IH]; intros r H; simpl in H;
    [discriminate|].
  assert (Hrec : first_hit unicode_isdigit word titles = Some r ->
                 rec_word r = word /\ rec_date r = []
                 /\ exists sr0, In sr0 (sr :: titles)
                                /\ from_title unicode_isdigit (opt_text sr0) r).
  { intros H'. apply IH in H'. destruct H' as (? & ? & sr0 & ? & ?).
    split; [assumption|]. split; [assumption|].
    exists sr0. split; [right; assumption|assumption]. }
  destruct (LL_FILENAME_match _ _) as [m|] eqn:E; [|auto].
  destruct (match_recording _ E) as (speaker & w & ext & G1 & G2 & S).
  rewrite G2 in H. destruct (text_eqb w word) eqn:Ew; [|auto].
  apply text_eqb_eq in Ew. subst w. inversion H; subst. cbn [rec_word rec_date].
  split; [reflexivity|]. split; [reflexivity|].
  exists sr. split; [left; reflexivity|].
  split; [apply bare_filename_title|].
  exists ext. rewrite G1. exact S.
Qed.

Lemma search_loop_inv : forall answer words searched results,
  exists new,
    search_loop unicode_isdigit answer words searched results = results ++ new
    /\ subseq (map rec_word new) words
    /\ Forall (fun r => rec_date r = []
                 /\ exists before after titles sr,
                      words = before ++ rec_word r :: after
                      /\ answer (searched ++ before) (rec_word r)
                         = SearchData titles
                      /\ In sr titles
                      /\ from_title unicode_isdigit (opt_text sr) r) new.
Proof.
  intros answer. induction words as [|word words IH]; intros searched results.
  - exists []. simpl. rewrite app_nil_r. repeat constructor.
  - cbn [search_loop].
    assert (Hlater : forall results',
              exists new,
                search_loop unicode_isdigit answer words (searched ++ [word])
                            results'
                = results' ++ new
                /\ subseq (map rec_word new) words
                /\ Forall (fun r => rec_date r = []
                     /\ exists before after titles sr,
                          word :: words = before ++ rec_word r :: after
                          /\ answer (searched ++ before) (rec_word r)
                             = SearchData titles
                          /\ In sr titles
                          /\ from_title unicode_isdigit (opt_text sr) r) new).
    { intros results'.
      destruct (IH (searched ++ [word]) results') as (new & E & Q & F).
      exists new. split; [exact E|]. split; [exact Q|].
      eapply Forall_impl; [|exact F].
      intros r (Hd & before & after & titles & sr & Ew & Ea & Hin & Hr).
      split; [exact Hd|]. exists (word :: before), after, titles, sr.
      split; [simpl; rewrite Ew; reflexivity|].
      split; [rewrite <- app_assoc in Ea; exact Ea|]. auto. }
    assert (Hskip : exists new,
              search_loop unicode_isdigit answer words (searched ++ [word]) results
              = results ++ new
              /\ subseq (map rec_word new) (word :: words)
              /\ Forall (fun r => rec_date r = []
                   /\ exists before after titles sr,
                        word :: words = before ++ rec_word r :: after
                        /\ answer (searched ++ before) (rec_word r)
                           = SearchData titles
                        /\ In sr titles
                        /\ from_title unicode_isdigit (opt_text sr) r) new).
    { destruct (Hlater results) as (new & E & Q & F).
      exists new. split; [exact E|]. split; [constructor; exact Q|exact F]. }
    destruct (answer searched word) as [|titles] eqn:Ea; [exact Hskip|].
    destruct (first_hit unicode_isdigit word titles) as [r|] eqn:E; [|exact Hskip].
    apply first_hit_inv in E. destruct E as (Ew & Ed & sr & Hin & Hr).
    destruct (Hlater (results ++ [r])) as (new & E & Q & F).
    exists (r :: new). rewrite E, <- app_assoc. split; [reflexivity|].
    split; [simpl; rewrite Ew; constructor; exact Q|].
    constructor; [|exact F]. split; [exact Ed|].
    exists [], words, titles, sr. rewrite Ew, app_nil_r. auto.
Qed.

(** X16. Whatever Commons answers, [search_commons_for_words] returns at
    most one recording for each word asked, in the order of the words: the
    words of the recordings are the words asked with some left out.  Every
    recording has an empty date, and it is made of a title that the search
    for its word found: the word stands in the list asked, the search made
    for it there (after the words before it) was answered with titles, and
    one of these titles is the filename of the recording, with or without
    [File:] before it; the pattern accepts that filename, and the word and
    the speaker of the recording are the parts of it that the pattern
    captures. *)
Theorem search_one_recording_per_word : forall answer words,
  let results := search_commons_for_words unicode_isdigit answer words in
  subseq (map rec_word results) words
  /\ Forall (fun r => rec_date r = []
               /\ exists before after titles sr,
                    words = before ++ rec_word r :: after
                    /\ answer before (rec_word r) = SearchData titles
                    /\ In sr titles
                    /\ from_title unicode_isdigit (opt_text sr) r) results.
Proof.
  intros answer words results. subst results. unfold search_commons_for_words.
  destruct (search_loop_inv answer words [] []) as (new & E & Q & F).
  rewrite E. simpl. auto.
Qed.

(** X17. The word filter of [run] drops nothing of what the search for
    those words returned: [main] hands both the recordings of
    [search_commons_for_words] and the words to [run]. *)
Theorem search_results_pass_filter : forall answer words,
  let results := search_commons_for_words unicode_isdigit answer words in
  filter_words (Some words) results = results.
Proof.
  intros answer words results. subst results. unfold search_commons_for_words.
  destruct (search_loop_inv answer words [] []) as (new & E & Q & _).
  rewrite E. cbn [app]. destruct words as [|w ws]; [reflexivity|].
  unfold filter_words.
  assert (H : forall r, In r new -> mem (rec_word r) (w :: ws) = true).
  { intros r Hr. apply mem_In. eapply subseq_In; [exact Q|].
    apply in_map. exact Hr. }
  clear E Q. induction new as [|r new IH]; [reflexivity|].
  cbn [filter]. rewrite (H r) by (left; reflexivity).
  f_equal. apply IH. intros x Hx. apply H. right. exact Hx.
Qed.
End SourcesFacts.

Lemma commons_limit_kept_witness :
  let answers :=
    [Data [MkMember (Some (str "File:LL-Q36236 (mal)-A-b.wav")) None;
           MkMember (Some (str "File:other.wav")) None] (Some None);
     Data [MkMember (Some (str "LL-Q36236 (mal)-A-c.wav")) None] (Some None)] in
  let out := commons_batches ascii_isdigit (Some 2%Z) answers [] 0%Z [] in
  (Z.of_nat (length (query_commons_for_files ascii_isdigit (Some 2%Z) answers))
   <= 2)%Z
  /\ Forall (fun p => 1 <= fst p <= 500)%Z (snd out).
Proof.
  intros answers.
  apply (@commons_limit_kept ascii_isdigit 2%Z answers); [reflexivity|].
  vm_compute. repeat constructor; discriminate.
Defined.

(** ** The SPARQL bindings *)

Lemma contains_inv : forall needle hay,
  contains needle hay = true -> exists a b, hay = a ++ needle ++ b.
Proof.
  intros needle. induction hay as [|c hay IH]; intros H.
  - simpl in H. destruct (strip_prefix needle []) as [r|] eqn:E; [|discriminate].
    apply strip_prefix_some in E. exists [], r. exact E.
  - cbn [contains] in H.
    destruct (strip_prefix needle (c :: hay)) as [r|] eqn:E.
    + apply strip_prefix_some in E. exists [], r. exact E.
    + destruct (IH H) as (a & b & ->). exists (c :: a), b. reflexivity.
Qed.

Lemma strip_bare : forall t, bare (strip t).
Proof. intros t. destruct (strip_split t) as (_ & _ & _ & _ & _ & H). exact H. Qed.

Section BindingsFacts.
Variable unicode_lower : text -> text.

Lemma binding_recording_inv : forall speaker binding r,
  binding_recording unicode_lower speaker binding = Some r ->
  complete_recording r /\ speaker_holds unicode_lower speaker r
  /\ rec_word r = strip (opt_text (b_word binding))
  /\ rec_filename r = strip (opt_text (b_filename binding)).
Proof.
  intros speaker binding r H. unfold binding_recording in H.
  destruct (negb (nonempty (strip (opt_text (b_word binding))))
            || negb (nonempty (strip (opt_text (b_filename binding))))) eqn:E;
    [discriminate|].
  apply orb_false_elim in E as [Ew Ef].
  apply negb_false_iff in Ew, Ef.
  destruct (nonempty (opt_text speaker) && _) eqn:Es; [discriminate|].
  inversion H; subst r. clear H.
  unfold complete_recording, speaker_holds.
  cbn [rec_word rec_filename rec_speaker].
  split; [|split; [|auto]].
  - split; [intros E; rewrite E in Ew; discriminate|].
    split; [apply strip_bare|].
    split; [intros E; rewrite E in Ef; discriminate|].
    split; apply strip_bare.
  - destruct speaker as [[|c s]|]; [exact I| |exact I].
    cbn [opt_text nonempty is_empty negb andb] in Es.
    apply negb_false_iff in Es. apply contains_inv in Es. exact Es.
Qed.

Lemma bindings_fold : forall speaker bindings results,
  exists new,
    fold_left (bindings_step unicode_lower speaker) bindings results
    = results ++ new
    /\ length new <= length bindings
    /\ Forall (fun r => complete_recording r
                        /\ speaker_holds unicode_lower speaker r) new.
Proof.
  intros speaker. induction bindings as [|b bindings IH]; intros results;
    cbn [fold_left].
  - exists []. rewrite app_nil_r. simpl. auto.
  - unfold bindings_step at 2.
    destruct (binding_recording unicode_lower speaker b) as [r|] eqn:E.
    + destruct (IH (results ++ [r])) as (new & -> & L & F).
      exists (r :: new). rewrite <- app_assoc. split; [reflexivity|].
      split; [simpl; lia|]. constructor; [|exact F].
      apply binding_recording_inv in E. tauto.
    + destruct (IH results) as (new & -> & L & F).
      exists new. split; [reflexivity|]. split; [simpl; lia|exact F].
Qed.

(** X18. The recordings made of the bindings of a SPARQL answer are
    complete: the word and the filename of each are not empty and have no
    whitespace at either end, nor has the speaker; a binding whose word or
    filename is missing or blank gives no recording.  When a speaker is
    asked for, the speaker of every recording holds that name, cases
    apart. *)
Theorem sparql_recordings_complete : forall speaker bindings,
  let results := bindings_loop unicode_lower speaker bindings in
  length results <= length bindings
  /\ Forall (fun r => complete_recording r
                      /\ speaker_holds unicode_lower speaker r) results.
Proof.
  intros speaker bindings results. subst results. unfold bindings_loop.
  destruct (bindings_fold speaker bindings []) as (new & -> & L & F).
  simpl. auto.
Qed.
End BindingsFacts.
